(** * TermoPTbrSolver: the deduction engine of [solver.py]

    A shallow embedding of the feedback evaluator [check_guess] and of the
    class [TermoSolverCSP] ([_update_constraints], [_is_consistent],
    [add_feedback], [get_next_guess]), followed by the properties of the
    engine stated in the specification.

    Conventions of the embedding:
    - a Python [str] is a [string]; a letter (a [str] of length one) is an
      [ascii];
    - a Python [dict] is a [gmap], a Python [set] is a [gset]; loops over
      them whose body only tests and leaves early are written as the
      existence of an item that leaves;
    - a Python [int] that counts letters is a [Z]; positions, which the
      source only ever draws from [range], are [nat];
    - the three status strings ['correct'], ['present'], ['absent'] are the
      constructors of [status];
    - a call that may raise returns an [outcome]: either [Returned v] or
      [Raised e];
    - what a method prints is returned next to its result;
    - [random.choice] and the OR-Tools solver are parameters of
      [get_next_guess]. *)

From Stdlib Require Import ZArith Ascii String List Lia.
From stdpp Require Import base option list gmap sets strings pretty.

(** ** Python runtime: exceptions, indexing, loops *)

Inductive exn : Set := IndexError | KeyError | ValueError | TypeError.

Inductive outcome (A : Type) : Type :=
| Returned (a : A)
| Raised (e : exn).
Arguments Returned {A} a.
Arguments Raised {A} e.

#[global] Instance exn_eq_dec : EqDecision exn.
Proof. solve_decision. Defined.

#[global] Instance outcome_eq_dec {A} `{EqDecision A} : EqDecision (outcome A).
Proof. solve_decision. Defined.

#[global] Instance outcome_ret : MRet outcome := λ A a, Returned a.

#[global] Instance outcome_bind : MBind outcome := λ A B k m,
  match m with
  | Returned a => k a
  | Raised e => Raised e
  end.

(** [for x in xs: body], threading the variables the body assigns. *)
Fixpoint for_each {A S : Type} (xs : list A) (body : S → A → outcome S) (s : S)
  : outcome S :=
  match xs with
  | [] => Returned s
  | x :: xs' => s' ← body s x; for_each xs' body s'
  end.

(** [[f(x) for x in l]]. *)
Fixpoint for_list {A B} (f : A → outcome B) (l : list A) : outcome (list B) :=
  match l with
  | [] => mret []
  | x :: l' => y ← f x; ys ← for_list f l'; mret (y :: ys)
  end.

Definition range (n : nat) : list nat := seq 0 n.
Arguments range : simpl never.

(** The letters of a [str], in order ([for letter in word]). *)
Definition chars (w : string) : list ascii := list_ascii_of_string w.

Definition len (w : string) : nat := String.length w.

(** [w[i]] for [i >= 0]: [IndexError] past the end. *)
Definition str_index (w : string) (i : nat) : outcome ascii :=
  match String.get i w with
  | Some c => Returned c
  | None => Raised IndexError
  end.

(** [l[i]] for [i >= 0]. *)
Definition list_index {A} (l : list A) (i : nat) : outcome A :=
  match l !! i with
  | Some x => Returned x
  | None => Raised IndexError
  end.

(** [l[i] = x] for [i >= 0]. *)
Definition list_assign {A} (l : list A) (i : nat) (x : A) : outcome (list A) :=
  if decide (i < length l) then Returned (<[i:=x]> l) else Raised IndexError.

(** [d[k]]: [KeyError] on a missing key. *)
Definition dict_index {K V} `{Countable K} (d : gmap K V) (k : K) : outcome V :=
  match d !! k with
  | Some v => Returned v
  | None => Raised KeyError
  end.

(** [d.get(k, dflt)]. *)
Definition dict_get {K V} `{Countable K} (d : gmap K V) (k : K) (dflt : V) : V :=
  default dflt (d !! k).

(** [k in d]. *)
Definition dict_mem {K V} `{Countable K} (d : gmap K V) (k : K) : bool :=
  bool_decide (is_Some (d !! k)).

(** [letter in word]. *)
Definition str_mem (c : ascii) (w : string) : bool :=
  bool_decide (c ∈ chars w).

(** The idiom
    [for letter in w: d[letter] = d.get(letter, 0) + 1]
    that the source uses to count letters. *)
Definition count_step (d : gmap ascii Z) (letter : ascii) : gmap ascii Z :=
  <[letter := (dict_get d letter 0 + 1)%Z]> d.

Definition letter_counts (w : string) : gmap ascii Z :=
  fold_left count_step (chars w) ∅.

(** [c.upper()] for a character of code below 128, where [str.upper] maps
    [a-z] to [A-Z] and changes nothing else.  Python also maps letters of
    higher code (some to other alphabets or to two characters), which this
    definition leaves alone: a statement about the upper-cased text is made
    for words of codes below 128 only. *)
Definition upper (c : ascii) : string :=
  let n := nat_of_ascii c in
  String (if (97 <=? n) && (n <=? 122) then ascii_of_nat (n - 32) else c) "".

(** ** Module constants *)

Definition WORD_LENGTH : nat := 5.

Definition ESC : ascii := ascii_of_nat 27.
Definition COLOR_GREEN : string := String ESC "[92m".
Definition COLOR_YELLOW : string := String ESC "[93m".
Definition COLOR_GRAY : string := String ESC "[90m".
Definition COLOR_RESET : string := String ESC "[0m".

(** [USE_COLORS] is [True]: each format is [COLOR + '{}' + COLOR_RESET]. *)
Definition LETTER_ABSENT_FORMAT (x : string) : string :=
  COLOR_GRAY +:+ x +:+ COLOR_RESET.
Definition LETTER_WRONG_POS_FORMAT (x : string) : string :=
  COLOR_YELLOW +:+ x +:+ COLOR_RESET.
Definition LETTER_CORRECT_POS_FORMAT (x : string) : string :=
  COLOR_GREEN +:+ x +:+ COLOR_RESET.

(** ** Feedback *)

Inductive status : Set := correct | present | absent.

#[global] Instance status_eq_dec : EqDecision status.
Proof. solve_decision. Defined.

(** One tuple [(letter, status, index)] of the structured feedback. *)
Abbreviation entry := (ascii * status * nat)%type.

Definition e_letter (e : entry) : ascii := e.1.1.
Definition e_status (e : entry) : status := e.1.2.

(** ** [check_guess] *)

(** The variables the two passes of [check_guess] assign:
    [visual_feedback], [structured_feedback], [secret_letter_counts]. *)
Abbreviation cg_state := (list string * list (option entry) * gmap ascii Z)%type.

(** Body of the loop of the [is_correct] branch. *)
Definition all_correct_body (guess : string)
    (s : list string * list (option entry)) (i : nat)
  : outcome (list string * list (option entry)) :=
  let '(visual_feedback, structured_feedback) := s in
  gi ← str_index guess i;
  visual_feedback ← list_assign visual_feedback i
                      (LETTER_CORRECT_POS_FORMAT (upper gi));
  gi' ← str_index guess i;
  structured_feedback ← list_assign structured_feedback i (Some (gi', correct, i));
  mret (visual_feedback, structured_feedback).

(** Body of the first pass: exact matches. *)
Definition pass1_body (guess secret_word : string) (s : cg_state) (i : nat)
  : outcome cg_state :=
  let '(visual_feedback, structured_feedback, secret_letter_counts) := s in
  guess_letter ← str_index guess i;
  si ← str_index secret_word i;
  if decide (guess_letter = si) then
    visual_feedback ← list_assign visual_feedback i
                        (LETTER_CORRECT_POS_FORMAT (upper guess_letter));
    structured_feedback ← list_assign structured_feedback i
                            (Some (guess_letter, correct, i));
    n ← dict_index secret_letter_counts guess_letter;
    mret (visual_feedback, structured_feedback,
          <[guess_letter := (n - 1)%Z]> secret_letter_counts)
  else mret s.

(** Body of the second pass: the positions the first pass left blank.  The
    inner scan of the source ([is_truly_absent], lines 102-106) reads
    [structured_feedback] only and assigns nothing that is used afterwards. *)
Definition pass2_body (guess : string) (s : cg_state) (i : nat)
  : outcome cg_state :=
  let '(visual_feedback, structured_feedback, secret_letter_counts) := s in
  v ← list_index visual_feedback i;
  if decide (v = "") then
    guess_letter ← str_index guess i;
    if dict_mem secret_letter_counts guess_letter then
      n ← dict_index secret_letter_counts guess_letter;
      if decide (n > 0)%Z then
        visual_feedback ← list_assign visual_feedback i
                            (LETTER_WRONG_POS_FORMAT (upper guess_letter));
        structured_feedback ← list_assign structured_feedback i
                                (Some (guess_letter, present, i));
        n' ← dict_index secret_letter_counts guess_letter;
        mret (visual_feedback, structured_feedback,
              <[guess_letter := (n' - 1)%Z]> secret_letter_counts)
      else
        visual_feedback ← list_assign visual_feedback i
                            (LETTER_ABSENT_FORMAT (upper guess_letter));
        structured_feedback ← list_assign structured_feedback i
                                (Some (guess_letter, absent, i));
        mret (visual_feedback, structured_feedback, secret_letter_counts)
    else
      visual_feedback ← list_assign visual_feedback i
                          (LETTER_ABSENT_FORMAT (upper guess_letter));
      structured_feedback ← list_assign structured_feedback i
                              (Some (guess_letter, absent, i));
      mret (visual_feedback, structured_feedback, secret_letter_counts)
  else mret s.

(** The value [check_guess] returns:
    [(visual_feedback_str, is_correct, structured_feedback_list)]. *)
Abbreviation cg_result := (string * bool * list (option entry))%type.

Definition check_guess (guess secret_word : string) : outcome cg_result :=
  if negb (len guess =? WORD_LENGTH) || negb (len secret_word =? WORD_LENGTH) then
    mret ("Internal error: Invalid length", false, [])
  else
    let visual_feedback := replicate WORD_LENGTH "" in
    let structured_feedback : list (option entry) := replicate WORD_LENGTH None in
    let is_correct := bool_decide (guess = secret_word) in
    if is_correct then
      '(visual_feedback, structured_feedback) ←
        for_each (range WORD_LENGTH) (all_correct_body guess)
                 (visual_feedback, structured_feedback);
      mret (String.concat " " visual_feedback, true, structured_feedback)
    else
      let secret_letter_counts := letter_counts secret_word in
      s1 ← for_each (range WORD_LENGTH) (pass1_body guess secret_word)
             (visual_feedback, structured_feedback, secret_letter_counts);
      '(visual_feedback, structured_feedback, _) ←
        for_each (range WORD_LENGTH) (pass2_body guess) s1;
      mret (String.concat " " visual_feedback, false, structured_feedback).

(** ** [TermoSolverCSP] *)

(** The structured feedback handed to the solver: a list of tuples. *)
Abbreviation feedback := (list entry).

Record TermoSolverCSP : Type := mkSolver {
  all_valid_words : gset string;
  possible_words : gset string;
  word_length : nat;
  guesses_history : list string;
  feedback_history : list feedback;
  green_letters : gmap nat ascii;
  yellow_letters : gmap nat (gset ascii);
  gray_letters : gset ascii;
  min_letter_counts : gmap ascii Z
}.

(** [__init__(self, valid_words, word_length)]. *)
Definition init (valid_words : gset string) (word_length : nat) : TermoSolverCSP :=
  {| all_valid_words := valid_words;
     possible_words := valid_words;
     word_length := word_length;
     guesses_history := [];
     feedback_history := [];
     green_letters := ∅;
     yellow_letters := ∅;
     gray_letters := ∅;
     min_letter_counts := ∅ |}.

(** *** [_update_constraints] *)

(** The variables the main loop of [_update_constraints] assigns:
    [self.green_letters], [self.yellow_letters], [self.gray_letters] and the
    local [current_positive_counts]. *)
Record uc_state : Type := mkUc {
  uc_green : gmap nat ascii;
  uc_yellow : gmap nat (gset ascii);
  uc_gray : gset ascii;
  uc_positive : gmap ascii Z
}.

Definition is_positive (s : status) : bool :=
  match s with correct | present => true | absent => false end.

(** The inner scan of the ['absent'] branch: [is_globally_absent]. *)
Definition is_globally_absent (structured_feedback : feedback) (letter : ascii) : bool :=
  negb (existsb (λ e, bool_decide (e_letter e = letter) && is_positive (e_status e))
                structured_feedback).

Definition uc_body (structured_feedback : feedback) (s : uc_state) (e : entry)
  : uc_state :=
  let '(letter, st, index) := e in
  match st with
  | correct =>
      let green := <[index := letter]> (uc_green s) in
      let yellow :=
        match uc_yellow s !! index with
        | Some letters => <[index := letters ∖ {[letter]}]> (uc_yellow s)
        | None => uc_yellow s
        end in
      {| uc_green := green; uc_yellow := yellow; uc_gray := uc_gray s;
         uc_positive := count_step (uc_positive s) letter |}
  | present =>
      let yellow :=
        match uc_yellow s !! index with
        | Some _ => uc_yellow s
        | None => <[index := ∅]> (uc_yellow s)
        end in
      let yellow := <[index := {[letter]} ∪ default ∅ (yellow !! index)]> yellow in
      {| uc_green := uc_green s; uc_yellow := yellow; uc_gray := uc_gray s;
         uc_positive := count_step (uc_positive s) letter |}
  | absent =>
      {| uc_green := uc_green s; uc_yellow := uc_yellow s;
         uc_gray := if is_globally_absent structured_feedback letter
                    then {[letter]} ∪ uc_gray s else uc_gray s;
         uc_positive := uc_positive s |}
  end.

(** [for letter, count in current_positive_counts.items():
       self.min_letter_counts[letter] = max(self.min_letter_counts.get(letter, 0), count)] *)
Definition raise_min (letter : ascii) (count : Z) (m : gmap ascii Z) : gmap ascii Z :=
  <[letter := Z.max (dict_get m letter 0%Z) count]> m.

(** The local [current_guess_counts] is built and never read, and the final
    loop of the source only executes [pass]; neither changes the object. *)
Definition _update_constraints (self : TermoSolverCSP) (guess : string)
    (structured_feedback : feedback) : TermoSolverCSP :=
  let s := fold_left (uc_body structured_feedback) structured_feedback
             {| uc_green := green_letters self; uc_yellow := yellow_letters self;
                uc_gray := gray_letters self; uc_positive := ∅ |} in
  {| all_valid_words := all_valid_words self;
     possible_words := possible_words self;
     word_length := word_length self;
     guesses_history := guesses_history self;
     feedback_history := feedback_history self;
     green_letters := uc_green s;
     yellow_letters := uc_yellow s;
     gray_letters := uc_gray s;
     min_letter_counts := map_fold raise_min (min_letter_counts self) (uc_positive s) |}.

(** *** [_is_consistent] *)

(** [for k, v in d.items(): if bad(k, v): return False] leaves the loop early
    exactly when some item is bad; the bodies below raise nothing. *)
Definition dict_any {K V} `{Countable K} (bad : K → V → bool) (d : gmap K V) : bool :=
  existsb (λ kv, bad kv.1 kv.2) (map_to_list d).

Definition set_any {K} `{Countable K} (bad : K → bool) (X : gset K) : bool :=
  existsb bad (elements X).

(** [index >= len(word) or word[index] != letter] *)
Definition green_violation (word : string) (index : nat) (letter : ascii) : bool :=
  (len word <=? index) || bool_decide (String.get index word ≠ Some letter).

(** [if index >= len(word): continue] then [word[index] in letters_in_pos] *)
Definition yellow_violation (word : string) (index : nat) (letters_in_pos : gset ascii)
  : bool :=
  if len word <=? index then false
  else match String.get index word with
       | Some c => bool_decide (c ∈ letters_in_pos)
       | None => false
       end.

(** [letter in word and letter not in self.min_letter_counts] *)
Definition gray_violation (self : TermoSolverCSP) (word : string) (letter : ascii)
  : bool :=
  str_mem letter word && negb (dict_mem (min_letter_counts self) letter).

(** [word_counts.get(letter, 0) < min_count] *)
Definition min_violation (word_counts : gmap ascii Z) (letter : ascii) (min_count : Z)
  : bool :=
  (dict_get word_counts letter 0 <? min_count)%Z.

(** The tables one history entry is scanned into:
    [guess_counts], [positive_counts], [has_gray]. *)
Abbreviation scan_state := (gmap ascii Z * gmap ascii Z * gmap ascii bool)%type.

Definition scan_body (guess : string) (structured_feedback : feedback)
    (s : scan_state) (i : nat) : outcome scan_state :=
  let '(guess_counts, positive_counts, has_gray) := s in
  letter ← str_index guess i;
  e ← list_index structured_feedback i;
  let st := e_status e in
  let guess_counts := count_step guess_counts letter in
  let positive_counts :=
    if is_positive st then count_step positive_counts letter else positive_counts in
  let has_gray :=
    if decide (st = absent) then <[letter := true]> has_gray else has_gray in
  mret (guess_counts, positive_counts, has_gray).

(** [has_gray.get(letter, False) and letter in word] and then
    [word_counts.get(letter, 0) != exact_count]. *)
Definition exact_violation (word : string) (word_counts positive_counts : gmap ascii Z)
    (has_gray : gmap ascii bool) (letter : ascii) (_ : Z) : bool :=
  dict_get has_gray letter false && str_mem letter word &&
  negb (dict_get word_counts letter 0 =? dict_get positive_counts letter 0)%Z.

(** The loop over [zip(self.guesses_history, self.feedback_history)]. *)
Fixpoint history_consistent (word_length : nat) (word : string)
    (word_counts : gmap ascii Z) (h : list (string * feedback)) : outcome bool :=
  match h with
  | [] => mret true
  | (guess, structured_feedback) :: h' =>
      '(guess_counts, positive_counts, has_gray) ←
        for_each (range word_length) (scan_body guess structured_feedback) (∅, ∅, ∅);
      if dict_any (exact_violation word word_counts positive_counts has_gray) guess_counts
      then mret false
      else history_consistent word_length word word_counts h'
  end.

Definition _is_consistent (self : TermoSolverCSP) (word : string) : outcome bool :=
  let word_counts := letter_counts word in
  if dict_any (green_violation word) (green_letters self) then mret false
  else if dict_any (yellow_violation word) (yellow_letters self) then mret false
  else if set_any (gray_violation self word) (gray_letters self) then mret false
  else if dict_any (min_violation word_counts) (min_letter_counts self) then mret false
  else history_consistent (word_length self) word word_counts
         (zip (guesses_history self) (feedback_history self)).

(** *** [add_feedback] *)

(** [{word for word in X if P(word)}]: the first call that raises ends the
    comprehension. *)
Definition set_comprehension (P : string → outcome bool) (X : gset string)
  : outcome (gset string) :=
  for_each (elements X)
    (λ (acc : gset string) word, b ← P word; mret (if b : bool then {[word]} ∪ acc else acc)) ∅.

Definition record_history (self : TermoSolverCSP) (guess : string)
    (structured_feedback : feedback) : TermoSolverCSP :=
  {| all_valid_words := all_valid_words self;
     possible_words := possible_words self;
     word_length := word_length self;
     guesses_history := guesses_history self ++ [guess];
     feedback_history := feedback_history self ++ [structured_feedback];
     green_letters := green_letters self;
     yellow_letters := yellow_letters self;
     gray_letters := gray_letters self;
     min_letter_counts := min_letter_counts self |}.

Definition set_possible_words (self : TermoSolverCSP) (ws : gset string)
  : TermoSolverCSP :=
  {| all_valid_words := all_valid_words self;
     possible_words := ws;
     word_length := word_length self;
     guesses_history := guesses_history self;
     feedback_history := feedback_history self;
     green_letters := green_letters self;
     yellow_letters := yellow_letters self;
     gray_letters := gray_letters self;
     min_letter_counts := min_letter_counts self |}.

(** [add_feedback] mutates the object and may raise while filtering; the
    model returns the object as the call leaves it, with how the call ended:
    [None] for a normal return, [Some e] when [e] was raised. *)
Definition add_feedback (self : TermoSolverCSP) (guess : string)
    (structured_feedback : feedback) : TermoSolverCSP * option exn :=
  let self := record_history self guess structured_feedback in
  let self := _update_constraints self guess structured_feedback in
  match set_comprehension (_is_consistent self) (possible_words self) with
  | Returned ws => (set_possible_words self ws, None)
  | Raised e => (self, Some e)
  end.

(** *** One attempt of [play_game]

    Lines 319-321: the structured feedback of [check_guess] is handed to
    [add_feedback].  The solver unpacks every element as a tuple
    [(letter, status, index)]; an unfilled slot ([None]) cannot be unpacked
    and raises [TypeError]. *)
Definition tuples (structured_feedback : list (option entry)) : outcome feedback :=
  for_list (λ o, match o with Some e => Returned e | None => Raised TypeError end)
           structured_feedback.

Definition attempt (solver : TermoSolverCSP) (current_guess secret_word : string)
  : outcome TermoSolverCSP :=
  '(visual_feedback, is_correct, structured_feedback) ←
    check_guess current_guess secret_word;
  fb ← tuples structured_feedback;
  match add_feedback solver current_guess fb with
  | (solver', None) => Returned solver'
  | (_, Some e) => Raised e
  end.

(** The attempts of a session against one secret, whatever the guesses are. *)
Fixpoint attempts (solver : TermoSolverCSP) (secret_word : string)
    (guesses : list string) : outcome TermoSolverCSP :=
  match guesses with
  | [] => mret solver
  | current_guess :: rest =>
      solver' ← attempt solver current_guess secret_word;
      attempts solver' secret_word rest
  end.

(** The solver objects a program can hold: a fresh one, or one on which
    [add_feedback] was called (with any arguments, however the call ended). *)
Inductive reachable : TermoSolverCSP → Prop :=
| reachable_init (valid_words : gset string) (word_length : nat) :
    reachable (init valid_words word_length)
| reachable_add_feedback (self : TermoSolverCSP) (guess : string) (fb : feedback) :
    reachable self → reachable (add_feedback self guess fb).1.

(** *** [get_next_guess] *)

(** [random.choice(seq)]: [IndexError] on an empty sequence, otherwise the
    element at the index drawn; [entropy] stands for the draw. *)
Definition random_choice {A} (entropy : nat) (l : list A) : outcome A :=
  match l with
  | [] => Raised IndexError
  | _ => list_index l (entropy mod length l)
  end.

(** [ord(c)]. *)
Definition ord (c : ascii) : Z := Z.of_nat (nat_of_ascii c).

(** [chr(z)] within the modelled alphabet; the variables of the constraint
    model range over [0..25], so the source only calls it on [97..122]. *)
Definition chr (z : Z) : outcome ascii :=
  if decide (0 ≤ z < 256)%Z then Returned (ascii_of_nat (Z.to_nat z))
  else Raised ValueError.

Definition no_candidates_message : string :=
  "Error: No possible words remaining! Check secret word.".

(** What a call of [get_next_guess] leaves behind: the lines it printed and
    the value it returned (or the exception it raised). *)
Abbreviation guess_result := (list string * outcome string)%type.

Section GuessSelector.
(** OR-Tools is an external library: [cp_solve n tuples] stands for building
    a model of [n] integer variables constrained by
    [AddAllowedAssignments(letters, tuples)] and solving it; it yields the
    status and the value of each variable.  It stands for the calls the
    library accepts: with no variable at all ([n = 0]) the library raises
    instead of solving, so a statement about the solver path is made for a
    word length of at least 1.  The status is kept as its integer code, and
    the warning line shows that code; the name the library may print for a
    status is not modelled. *)
Variable OPTIMAL FEASIBLE : Z.
Variable cp_solve : nat → list (list Z) → Z * list Z.

Definition get_next_guess (entropy : nat) (self : TermoSolverCSP)
    (attempt_number : Z) : guess_result :=
  if decide (attempt_number = 0%Z) then ([], mret "acelo")
  else if decide (attempt_number = 1%Z) then ([], mret "sumir")
  else if decide (possible_words self = ∅) then
    ([no_candidates_message],
     random_choice entropy (elements (all_valid_words self)))
  else if decide (size (possible_words self) = 1) then
    ([], list_index (elements (possible_words self)) 0)
  else
    let allowed_tuples :=
      (λ word, (λ c, ord c - ord "a")%Z <$> chars word) <$>
      filter (λ word, len word = word_length self) (elements (possible_words self)) in
    if decide (allowed_tuples = []) then
      (["Error: allowed_tuples set is empty for OR-Tools."],
       random_choice entropy (elements (possible_words self)))
    else
      let '(st, solution_indices) := cp_solve (word_length self) allowed_tuples in
      if decide (st = OPTIMAL ∨ st = FEASIBLE) then
        match for_list (λ idx, chr (idx + ord "a")) solution_indices with
        | Returned cs =>
            let guess := string_of_list_ascii cs in
            (["Debug: OR-Tools suggested: " +:+ guess], mret guess)
        | Raised e => ([], Raised e)
        end
      else
        (["Warning: OR-Tools did not find a consistent solution (status="
            +:+ pretty st +:+ "). Using random choice."],
         random_choice entropy (elements (possible_words self))).
End GuessSelector.

(** *** [choose_secret_word] *)

(** [if not valid_words: return None], otherwise
    [random.choice(list(valid_words))]. *)
Definition choose_secret_word (entropy : nat) (valid_words : gset string)
  : outcome (option string) :=
  if decide (valid_words = ∅) then mret None
  else w ← random_choice entropy (elements valid_words); mret (Some w).

(** *** [play_game] *)

Definition MAX_ATTEMPTS : nat := 6.
Definition WORD_LIST_FILE : string := "palavras_5letras.txt".

(** [w.upper()], [s * n] and the string ["\n"]. *)
Definition str_upper (w : string) : string := String.concat "" (upper <$> chars w).

Fixpoint str_times (s : string) (n : nat) : string :=
  match n with
  | 0 => ""
  | S n' => s +:+ str_times s n'
  end.

Definition NL : string := String (ascii_of_nat 10) "".

(** [load_words] reads the corpus from a file and is not modelled; when it
    returns [valid_words] (on every other path it ends the process) it has
    printed this line. *)
Definition load_words_report (valid_words : gset string) : string :=
  pretty (size valid_words) +:+ " " +:+ pretty WORD_LENGTH
    +:+ "-letter words loaded from '" +:+ WORD_LIST_FILE +:+ "'.".

Definition no_recovery_message : string :=
  "Critical Error: No more possible words for recovery.".

(** A piece of the program that prints: the lines written to the standard
    output, one per [print], and the value (or the exception) that follows. *)
Abbreviation printing A := (list string * outcome A)%type.

(** [lines] are printed, then [r] runs. *)
Definition say {A} (lines : list string) (r : printing A) : printing A :=
  (lines ++ r.1, r.2).

(** How one turn of the [while] loop is left: at its end, through the
    [return] of the winning branch, or through [break]; with the solver
    object and the display history as they are then. *)
Inductive round_end :=
| next_round (solver : TermoSolverCSP) (feedback_history_display : list string)
| game_won (solver : TermoSolverCSP)
| loop_broken (solver : TermoSolverCSP).

(** [play_game] returns [None] on every path; the model tells the paths
    apart and hands back the solver object the function held at the end. *)
Inductive game_exit :=
| no_secret
| won (solver : TermoSolverCSP)
| lost (solver : TermoSolverCSP).

Section Game.
Variable OPTIMAL FEASIBLE : Z.
Variable cp_solve : nat → list (list Z) → Z * list Z.
(** [f"{sorted(list(s))}"]: the printed form of the sorted list. *)
Variable repr_sorted : gset string → string.
(** The draws of [random.choice]: draw [0] picks the secret; the turn with
    [attempts_made = k] has draw [2k+1] for [get_next_guess] and draw [2k+2]
    for the recovery. *)
Variable rnd : nat → nat.

Section Loop.
Variable valid_words : gset string.
Variable secret_word : string.

(** The turn from [check_guess] on, with the guess settled. *)
Definition check_and_record (solver : TermoSolverCSP)
    (feedback_history_display : list string) (current_guess : string)
  : printing round_end :=
  match check_guess current_guess secret_word with
  | Raised e => ([], Raised e)
  | Returned (visual_feedback, is_correct, structured_feedback) =>
      match tuples structured_feedback with
      | Raised e => ([], Raised e)
      | Returned fb =>
          match add_feedback solver current_guess fb with
          | (_, Some e) => ([], Raised e)
          | (solver', None) =>
              let feedback_history_display := feedback_history_display ++ [visual_feedback] in
              say ([NL +:+ "History:"] ++ feedback_history_display ++
                   ["Possible words remaining: " +:+ pretty (size (possible_words solver'));
                    str_times "-" 20])
                (if is_correct then
                   ([NL +:+ str_times "=" 30;
                     COLOR_GREEN +:+ "SOLVER GUESSED THE WORD!" +:+ COLOR_RESET;
                     "The word was: " +:+ str_upper secret_word;
                     str_times "=" 30],
                    mret (game_won solver'))
                 else ([], mret (next_round solver' feedback_history_display)))
          end
      end
  end.

(** One turn of the [while] loop. *)
Definition play_round (attempts_made : nat) (solver : TermoSolverCSP)
    (feedback_history_display : list string) : printing round_end :=
  say [str_times "-" 30;
       "Attempt " +:+ pretty (attempts_made + 1) +:+ " of " +:+ pretty MAX_ATTEMPTS]
    (let '(printed, r) :=
       get_next_guess OPTIMAL FEASIBLE cp_solve (rnd (2 * attempts_made + 1)) solver
                      (Z.of_nat attempts_made) in
     say printed
       match r with
       | Raised e => ([], Raised e)
       | Returned current_guess =>
           say ["Solver guessed: " +:+ str_upper current_guess]
             (if decide (current_guess ∈ valid_words) then
                check_and_record solver feedback_history_display current_guess
              else
                say ["Warning: Solver generated an invalid word '" +:+ current_guess
                       +:+ "'. Check logic."]
                  (if decide (possible_words solver = ∅) then
                     ([no_recovery_message], mret (loop_broken solver))
                   else
                     match random_choice (rnd (2 * attempts_made + 2))
                                         (elements (possible_words solver)) with
                     | Raised e => ([], Raised e)
                     | Returned current_guess =>
                         say ["Recovery: Trying " +:+ str_upper current_guess]
                           (check_and_record solver feedback_history_display current_guess)
                     end))
       end).

(** The code after the loop. *)
Definition after_loop (solver : TermoSolverCSP) : printing game_exit :=
  ([NL +:+ str_times "=" 30;
    COLOR_GRAY +:+ "Solver used all attempts!" +:+ COLOR_RESET;
    "The secret word was: " +:+ str_upper secret_word;
    "Words remaining as possibilities: " +:+ pretty (size (possible_words solver))]
   ++ (if decide (size (possible_words solver) < 10) then
         ["Remaining possibilities: " +:+ repr_sorted (possible_words solver)]
       else [])
   ++ [str_times "=" 30],
   mret (lost solver)).

(** [while attempts_made < MAX_ATTEMPTS], by recursion on
    [remaining = MAX_ATTEMPTS - attempts_made]. *)
Fixpoint game_loop (remaining attempts_made : nat) (solver : TermoSolverCSP)
    (feedback_history_display : list string) : printing game_exit :=
  match remaining with
  | 0 => after_loop solver
  | S remaining' =>
      let '(printed, r) := play_round attempts_made solver feedback_history_display in
      say printed
        match r with
        | Raised e => ([], Raised e)
        | Returned (next_round solver' feedback_history_display') =>
            game_loop remaining' (attempts_made + 1) solver' feedback_history_display'
        | Returned (game_won solver') => ([], mret (won solver'))
        | Returned (loop_broken solver') => after_loop solver'
        end
  end.
End Loop.

(** [play_game], from the value [load_words] returned. *)
Definition play_game (valid_words : gset string) : printing game_exit :=
  say [NL +:+ "Welcome to Termo in Python with CSP Solver!";
       load_words_report valid_words]
    match choose_secret_word (rnd 0) valid_words with
    | Raised e => ([], Raised e)
    | Returned None => (["Error: Could not choose a secret word."], mret no_secret)
    | Returned (Some secret_word) =>
        if decide (secret_word = "") then
          (["Error: Could not choose a secret word."], mret no_secret)
        else
          say ["(Debug: The secret word is '" +:+ str_upper secret_word +:+ "')";
               "The solver has " +:+ pretty MAX_ATTEMPTS +:+ " attempts."]
            (game_loop valid_words secret_word MAX_ATTEMPTS 0
                       (init valid_words WORD_LENGTH) [])
    end.
End Game.

(** * Properties *)

(** ** Strings as lists of letters *)

Lemma get_chars (w : string) (i : nat) : String.get i w = chars w !! i.
Proof.
  revert i. induction w as [|c w IH]; intros [|i]; simpl; auto.
Qed.

Lemma len_chars (w : string) : len w = length (chars w).
Proof. induction w; simpl; auto. Qed.

Lemma str_index_Some (w : string) (i : nat) (c : ascii) :
  chars w !! i = Some c → str_index w i = Returned c.
Proof. intros H. unfold str_index. by rewrite get_chars, H. Qed.

(** ** Counting letters *)

(** Number of occurrences of [c] in a sequence of letters. *)
Definition occ (c : ascii) (l : list ascii) : nat := count_occ ascii_dec l c.

Lemma occ_cons (c x : ascii) (l : list ascii) :
  occ c (x :: l) = (if decide (x = c) then 1 else 0) + occ c l.
Proof.
  unfold occ. simpl. destruct (ascii_dec x c), (decide (x = c)); congruence || lia.
Qed.

Lemma occ_zero (c : ascii) (l : list ascii) : occ c l = 0 ↔ c ∉ l.
Proof.
  unfold occ. rewrite list_elem_of_In. symmetry. apply count_occ_not_In.
Qed.

Lemma fold_count_step (l : list ascii) (d : gmap ascii Z) (c : ascii) :
  fold_left count_step l d !! c =
    if decide (occ c l = 0) then d !! c
    else Some (dict_get d c 0 + Z.of_nat (occ c l))%Z.
Proof.
  revert d. induction l as [|x l IH]; intros d; [done|].
  rewrite occ_cons. cbn [fold_left]. rewrite IH. unfold count_step, dict_get.
  destruct (decide (x = c)) as [->|Hne].
  - rewrite lookup_insert_eq. cbn [default].
    destruct (decide (occ c l = 0)) as [->|?]; cbn; f_equal; lia.
  - rewrite lookup_insert_ne by done. done.
Qed.

Lemma letter_counts_lookup (w : string) (c : ascii) :
  letter_counts w !! c =
    if decide (occ c (chars w) = 0) then None else Some (Z.of_nat (occ c (chars w))).
Proof.
  unfold letter_counts. rewrite fold_count_step, lookup_empty.
  case_decide; [done|]. unfold dict_get. by rewrite lookup_empty.
Qed.

Lemma letter_counts_get (w : string) (c : ascii) :
  dict_get (letter_counts w) c 0%Z = Z.of_nat (occ c (chars w)).
Proof.
  unfold dict_get. rewrite letter_counts_lookup. case_decide as H; simpl; [|done].
  by rewrite H.
Qed.

(** ** Loops with an invariant *)

Lemma for_each_seq_inv {St : Type} (P : nat → St → Prop) (body : St → nat → outcome St) :
  ∀ (n a : nat) (s : St),
    P a s →
    (∀ i t, a ≤ i < a + n → P i t → ∃ t', body t i = Returned t' ∧ P (S i) t') →
    ∃ s', for_each (seq a n) body s = Returned s' ∧ P (a + n) s'.
Proof.
  induction n as [|n IH]; intros a s Hs Hstep.
  - exists s. rewrite Nat.add_0_r. done.
  - destruct (Hstep a s ltac:(lia) Hs) as (s1 & Hb & Hs1).
    destruct (IH (S a) s1 Hs1) as (s' & Hrun & Hs').
    { intros i t Hi. apply Hstep. lia. }
    exists s'. cbn [seq for_each]. rewrite Hb. cbn.
    split; [done|]. by replace (a + S n) with (S a + n) by lia.
Qed.

Lemma for_each_range_inv {St : Type} (P : nat → St → Prop) (body : St → nat → outcome St)
    (n : nat) (s : St) :
  P 0 s →
  (∀ i t, i < n → P i t → ∃ t', body t i = Returned t' ∧ P (S i) t') →
  ∃ s', for_each (range n) body s = Returned s' ∧ P n s'.
Proof.
  intros H0 Hstep. apply (for_each_seq_inv P body n 0 s H0).
  intros i t Hi. apply Hstep. lia.
Qed.

(** ** Counting the entries of a feedback *)

Fixpoint count_if {A : Type} (p : A → bool) (l : list A) : nat :=
  match l with
  | [] => 0
  | x :: l' => (if p x then 1 else 0) + count_if p l'
  end.

(** [letter] is marked ['correct'] or ['present'] by the entry. *)
Definition marks_positive (letter : ascii) (e : entry) : bool :=
  bool_decide (e_letter e = letter) && is_positive (e_status e).

(** [letter] is marked ['absent'] by the entry. *)
Definition marks_absent (letter : ascii) (e : entry) : bool :=
  bool_decide (e_letter e = letter) && bool_decide (e_status e = absent).

Definition marks_positive_nat (letter : ascii) (e : entry) : nat :=
  if marks_positive letter e then 1 else 0.

Definition positive_count (letter : ascii) (fb : feedback) : nat :=
  count_if (marks_positive letter) fb.

Definition absent_count (letter : ascii) (fb : feedback) : nat :=
  count_if (marks_absent letter) fb.

(** The same count over the slots of [structured_feedback] while
    [check_guess] is still filling them. *)
Definition slot_positive (letter : ascii) (o : option entry) : bool :=
  match o with
  | Some e => marks_positive letter e
  | None => false
  end.

Lemma count_if_app {A} (p : A → bool) (l1 l2 : list A) :
  count_if p (l1 ++ l2) = count_if p l1 + count_if p l2.
Proof. induction l1 as [|x l1 IH]; simpl; [done|]. rewrite IH. lia. Qed.

Lemma count_if_fmap {A B} (p : B → bool) (f : A → B) (l : list A) :
  count_if p (f <$> l) = count_if (λ x, p (f x)) l.
Proof.
  induction l as [|x l IH]; [done|]. rewrite fmap_cons. cbn [count_if]. by rewrite IH.
Qed.

Lemma count_if_insert {A} (p : A → bool) (l : list A) (i : nat) (x y : A) :
  l !! i = Some y →
  count_if p (<[i:=x]> l) + (if p y then 1 else 0)
  = count_if p l + (if p x then 1 else 0).
Proof.
  revert i. induction l as [|z l IH]; intros [|i] H; simplify_eq/=.
  - lia.
  - specialize (IH i H). lia.
Qed.

Lemma count_if_zero {A} (p : A → bool) (l : list A) :
  count_if p l = 0 ↔ ∀ x, x ∈ l → p x = false.
Proof.
  induction l as [|z l IH]; simpl.
  - split; [|done]. intros _ x Hx. by apply elem_of_nil in Hx.
  - split.
    + intros H x Hx. apply elem_of_cons in Hx as [->|Hx].
      * destruct (p z); [lia|done].
      * apply IH; [|done]. destruct (p z); lia.
    + intros H. rewrite (H z) by apply list_elem_of_here.
      apply IH. intros x Hx. apply H. by apply list_elem_of_further.
Qed.

(** Positions marked positive for [c] all hold [c] in [sl]: there are at most
    as many of them as occurrences of [c] in [sl]. *)
Lemma slot_positive_le_occ (c : ascii) :
  ∀ (sf : list (option entry)) (sl : list ascii),
    (∀ i o, sf !! i = Some o → slot_positive c o = true → sl !! i = Some c) →
    count_if (slot_positive c) sf ≤ occ c sl.
Proof.
  induction sf as [|o sf IH]; intros sl H; simpl; [lia|].
  destruct sl as [|x sl].
  - assert (slot_positive c o = false) as ->.
    { destruct (slot_positive c o) eqn:E; [|done]. by specialize (H 0 o eq_refl E). }
    assert (count_if (slot_positive c) sf = 0) as ->; [|lia].
    apply count_if_zero. intros o' Ho'.
    apply list_elem_of_lookup in Ho' as [i Hi].
    destruct (slot_positive c o') eqn:E; [|done]. by specialize (H (S i) o' Hi E).
  - rewrite occ_cons. specialize (IH sl).
    assert (count_if (slot_positive c) sf ≤ occ c sl) as Hle.
    { apply IH. intros i o' Hi. apply (H (S i) o' Hi). }
    destruct (slot_positive c o) eqn:E; [|lia].
    specialize (H 0 o eq_refl E). simplify_eq/=. rewrite decide_True by done. lia.
Qed.

Lemma count_slot_insert (c : ascii) (sf : list (option entry)) (k : nat) (e : entry) :
  sf !! k = Some None →
  count_if (slot_positive c) (<[k := Some e]> sf)
  = count_if (slot_positive c) sf + (if marks_positive c e then 1 else 0).
Proof.
  intros H. pose proof (count_if_insert (slot_positive c) sf k (Some e) None H) as E.
  cbn [slot_positive] in E. lia.
Qed.

Lemma count_if_replicate_false {A} (p : A → bool) (n : nat) (x : A) :
  p x = false → count_if p (replicate n x) = 0.
Proof. intros H. induction n as [|n IH]; simpl; [done|]. rewrite H, IH. done. Qed.

Lemma format_correct_nonempty (x : string) : LETTER_CORRECT_POS_FORMAT x ≠ "".
Proof. done. Qed.

Lemma format_wrong_pos_nonempty (x : string) : LETTER_WRONG_POS_FORMAT x ≠ "".
Proof. done. Qed.

Lemma format_absent_nonempty (x : string) : LETTER_ABSENT_FORMAT x ≠ "".
Proof. done. Qed.

(** ** What [check_guess] computes

    [feedback_for guess secret fb]: the feedback has one tuple per position,
    each carrying the guessed letter and its own index; a position is
    ['correct'] exactly when guess and secret agree there; and the positive
    markings of a letter are bounded by, and once some occurrence is
    ['absent'] equal to, its number of occurrences in the secret. *)
Record feedback_for (guess secret : string) (fb : feedback) : Prop := {
  ff_length : length fb = length (chars guess);
  ff_entry : ∀ i c st j, fb !! i = Some (c, st, j) → chars guess !! i = Some c ∧ j = i;
  ff_correct : ∀ i c st j, fb !! i = Some (c, st, j) →
               (st = correct ↔ chars secret !! i = Some c);
  ff_bound : ∀ c, positive_count c fb ≤ occ c (chars secret);
  ff_exact : ∀ i c j, fb !! i = Some (c, absent, j) →
             positive_count c fb = occ c (chars secret)
}.

Lemma slots_all_filled (sf : list (option entry)) :
  (∀ i, i < length sf → ∃ e, sf !! i = Some (Some e)) → ∃ fb : feedback, sf = Some <$> fb.
Proof.
  induction sf as [|o sf IH]; intros H.
  - by exists [].
  - destruct (H 0 ltac:(simpl; lia)) as [e He]. simplify_eq/=.
    destruct IH as [fb ->].
    { intros i Hi. apply (H (S i)). simpl. lia. }
    by exists (e :: fb).
Qed.

Lemma count_slots_feedback (c : ascii) (fb : feedback) :
  count_if (slot_positive c) (Some <$> fb) = positive_count c fb.
Proof. unfold positive_count. by rewrite count_if_fmap. Qed.

(** ** The two passes of [check_guess] *)

Section CheckGuess.
Variables guess secret : string.
Hypothesis Hguess : length (chars guess) = WORD_LENGTH.
Hypothesis Hsecret : length (chars secret) = WORD_LENGTH.

(** [secret_letter_counts] holds, for each letter of the secret, its number
    of occurrences less the positions already marked positive for it. *)
Definition counts_track (sf : list (option entry)) (cnt : gmap ascii Z) : Prop :=
  ∀ c, cnt !! c =
       if decide (occ c (chars secret) = 0) then None
       else Some (Z.of_nat (occ c (chars secret))
                  - Z.of_nat (count_if (slot_positive c) sf))%Z.

Definition filled (vf : list string) (i : nat) : Prop :=
  ∃ v, vf !! i = Some v ∧ v ≠ "".

(** Slot [i] after the first pass has visited the positions below [k]. *)
Definition slot1 (k : nat) (vf : list string) (sf : list (option entry))
    (i : nat) (c : ascii) : Prop :=
  if decide (i < k ∧ chars secret !! i = Some c)
  then sf !! i = Some (Some (c, correct, i)) ∧ filled vf i
  else sf !! i = Some None ∧ vf !! i = Some "".

Definition inv1 (k : nat) (s : cg_state) : Prop :=
  let '(vf, sf, cnt) := s in
  length vf = WORD_LENGTH ∧ length sf = WORD_LENGTH ∧
  (∀ i c, chars guess !! i = Some c → slot1 k vf sf i c) ∧
  counts_track sf cnt.

(** Slot [i] after the second pass has visited the positions below [k]. *)
Definition slot2 (k : nat) (vf : list string) (sf : list (option entry))
    (i : nat) (c : ascii) : Prop :=
  if decide (chars secret !! i = Some c)
  then sf !! i = Some (Some (c, correct, i)) ∧ filled vf i
  else if decide (i < k)
       then (sf !! i = Some (Some (c, present, i)) ∨
             sf !! i = Some (Some (c, absent, i))) ∧ filled vf i
       else sf !! i = Some None ∧ vf !! i = Some "".

Definition inv2 (k : nat) (s : cg_state) : Prop :=
  let '(vf, sf, cnt) := s in
  length vf = WORD_LENGTH ∧ length sf = WORD_LENGTH ∧
  (∀ i c, chars guess !! i = Some c → slot2 k vf sf i c) ∧
  counts_track sf cnt ∧
  (∀ c, count_if (slot_positive c) sf ≤ occ c (chars secret)) ∧
  (∀ i c j, sf !! i = Some (Some (c, absent, j)) →
            count_if (slot_positive c) sf = occ c (chars secret)).

Lemma guess_letter_at (k : nat) : k < WORD_LENGTH → ∃ c, chars guess !! k = Some c.
Proof. clear Hsecret. intros Hk. apply lookup_lt_is_Some_2. lia. Qed.

Lemma secret_letter_at (k : nat) : k < WORD_LENGTH → ∃ c, chars secret !! k = Some c.
Proof. clear Hguess. intros Hk. apply lookup_lt_is_Some_2. lia. Qed.

Lemma inv1_init :
  inv1 0 (replicate WORD_LENGTH "", replicate WORD_LENGTH None, letter_counts secret).
Proof.
  unfold inv1. rewrite !length_replicate. split_and!; [done|done|..].
  - intros i c Hi. apply lookup_lt_Some in Hi. unfold slot1.
    rewrite decide_False by lia. rewrite !lookup_replicate_2 by lia. done.
  - intros c. rewrite letter_counts_lookup.
    rewrite count_if_replicate_false by done. case_decide; [done|]. f_equal. lia.
Qed.

Lemma slot1_other (k i : nat) vf sf vf' sf' c :
  i ≠ k → vf' !! i = vf !! i → sf' !! i = sf !! i →
  slot1 k vf sf i c → slot1 (S k) vf' sf' i c.
Proof.
  intros Hne Hv Hf. unfold slot1, filled. rewrite Hv, Hf.
  assert ((i < k ∧ chars secret !! i = Some c) ↔
          (i < S k ∧ chars secret !! i = Some c)) as Hiff.
  { split; intros [? ?]; (split; [lia|done]). }
  destruct (decide (i < k ∧ _)) as [H1|H1], (decide (i < S k ∧ _)) as [H2|H2];
    tauto.
Qed.

Lemma pass1_step (k : nat) (s : cg_state) :
  k < WORD_LENGTH → inv1 k s →
  ∃ s', pass1_body guess secret s k = Returned s' ∧ inv1 (S k) s'.
Proof.
  destruct s as [[vf sf] cnt]. intros Hk (Hvf & Hsf & Hslot & Hcnt).
  destruct (guess_letter_at k Hk) as [c Hc].
  destruct (secret_letter_at k Hk) as [d Hd].
  pose proof (Hslot k c Hc) as Hk0. unfold slot1 in Hk0.
  rewrite decide_False in Hk0 by lia. destruct Hk0 as [Hsfk Hvfk].
  unfold pass1_body. rewrite (str_index_Some _ _ _ Hc), (str_index_Some _ _ _ Hd).
  cbn. destruct (decide (c = d)) as [<-|Hne].
  - unfold list_assign. rewrite !decide_True by lia. cbn.
    assert (occ c (chars secret) ≠ 0) as Hocc.
    { rewrite occ_zero. intros Hn. apply Hn. eapply list_elem_of_lookup_2. exact Hd. }
    pose proof (Hcnt c) as Hcc. rewrite decide_False in Hcc by done.
    unfold dict_index. rewrite Hcc. cbn. eexists. split; [reflexivity|].
    unfold inv1. rewrite !length_insert. split_and!; [done|done|..].
    + intros i c' Hi. destruct (decide (i = k)) as [->|Hik].
      * simplify_eq. unfold slot1, filled. rewrite decide_True by (split; [lia|done]).
        rewrite !list_lookup_insert_eq by lia. split; [done|].
        eexists. split; [done|]. apply format_correct_nonempty.
      * apply (slot1_other k i vf sf); [done|..|by apply Hslot];
          by rewrite list_lookup_insert_ne.
    + intros c'. rewrite count_slot_insert by done. unfold marks_positive. cbn.
      destruct (decide (c = c')) as [<-|Hcc'].
      * rewrite lookup_insert_eq, bool_decide_eq_true_2 by done.
        rewrite decide_False by done. cbn. f_equal. lia.
      * rewrite lookup_insert_ne, bool_decide_eq_false_2 by done. cbn.
        rewrite Hcnt. case_decide; [done|]. f_equal. lia.
  - exists (vf, sf, cnt). split; [done|]. unfold inv1. split_and!; [done|done|..|done].
    intros i c' Hi. destruct (decide (i = k)) as [->|Hik].
    + simplify_eq. unfold slot1. rewrite decide_False; [done|].
      intros [_ ?]. congruence.
    + apply (slot1_other k i vf sf); [done|done|done|by apply Hslot].
Qed.

Lemma inv1_inv2 (s : cg_state) : inv1 WORD_LENGTH s → inv2 0 s.
Proof.
  destruct s as [[vf sf] cnt]. intros (Hvf & Hsf & Hslot & Hcnt).
  assert (∀ i o, sf !! i = Some o → o ≠ None →
                 ∃ c, chars guess !! i = Some c ∧ chars secret !! i = Some c ∧
                      o = Some (c, correct, i)) as Hfilled.
  { intros i o Hi Ho. pose proof (lookup_lt_Some _ _ _ Hi) as Hlt.
    destruct (guess_letter_at i ltac:(lia)) as [c Hc].
    specialize (Hslot i c Hc). unfold slot1 in Hslot.
    case_decide as Hd; destruct Hslot as [Hsfi _]; [|congruence].
    exists c. split_and!; [done|tauto|congruence]. }
  unfold inv2. split_and!; [done|done|..|done| |].
  - intros i c Hc. pose proof (lookup_lt_Some _ _ _ Hc) as Hlt.
    specialize (Hslot i c Hc). unfold slot1 in Hslot. unfold slot2.
    destruct (decide (chars secret !! i = Some c)) as [Hs|Hs].
    + rewrite decide_True in Hslot; [done|]. split; [lia|done].
    + rewrite decide_False in Hslot by tauto. rewrite decide_False by lia. done.
  - intros c. apply slot_positive_le_occ. intros i o Hi Hpos.
    destruct (Hfilled i o Hi) as (c' & _ & Hs & ->); [by destruct o|].
    unfold slot_positive, marks_positive in Hpos. cbn in Hpos.
    apply andb_true_iff in Hpos as [Hpos _]. apply bool_decide_eq_true in Hpos.
    by subst.
  - intros i c j Hi. destruct (Hfilled i _ Hi) as (c' & _ & _ & ?); [done|].
    simplify_eq.
Qed.

Lemma slot2_other (k i : nat) vf sf vf' sf' c :
  i ≠ k → vf' !! i = vf !! i → sf' !! i = sf !! i →
  slot2 k vf sf i c → slot2 (S k) vf' sf' i c.
Proof.
  intros Hne Hv Hf. unfold slot2, filled. rewrite Hv, Hf.
  destruct (decide (chars secret !! i = Some c)); [done|].
  destruct (decide (i < k)), (decide (i < S k)); try done; lia.
Qed.

Lemma slot2_skip (k : nat) vf sf c :
  chars secret !! k = Some c → slot2 k vf sf k c → slot2 (S k) vf sf k c.
Proof. intros Hs. unfold slot2. by rewrite !decide_True by done. Qed.

Lemma pass2_step (k : nat) (s : cg_state) :
  k < WORD_LENGTH → inv2 k s →
  ∃ s', pass2_body guess s k = Returned s' ∧ inv2 (S k) s'.
Proof.
  destruct s as [[vf sf] cnt].
  intros Hk (Hvf & Hsf & Hslot & Hcnt & Hle & Habs).
  destruct (guess_letter_at k Hk) as [c Hc].
  pose proof (Hslot k c Hc) as Hk0. unfold slot2 in Hk0. unfold pass2_body.
  destruct (decide (chars secret !! k = Some c)) as [Hs|Hs].
  { destruct Hk0 as [_ (v & Hv & Hne)]. unfold list_index. rewrite Hv. cbn.
    rewrite decide_False by done. exists (vf, sf, cnt). split; [done|].
    unfold inv2. split_and!; try done.
    intros i c' Hi. destruct (decide (i = k)) as [->|Hik].
    - simplify_eq. apply slot2_skip; [done|]. by apply Hslot.
    - apply (slot2_other k i vf sf); [done|done|done|by apply Hslot]. }
  rewrite decide_False in Hk0 by lia. destruct Hk0 as [Hsfk Hvfk].
  unfold list_index. rewrite Hvfk. cbn. rewrite decide_True by done.
  rewrite (str_index_Some _ _ _ Hc). cbn.
  assert (∀ st vf', filled vf' k → length vf' = WORD_LENGTH → st ≠ correct →
            (∀ i, i ≠ k → vf' !! i = vf !! i) →
            ∀ i c', chars guess !! i = Some c' →
                    slot2 (S k) vf' (<[k := Some (c, st, k)]> sf) i c') as Hslots.
  { intros st vf' Hfill Hlen Hst Hsame i c' Hi. destruct (decide (i = k)) as [->|Hik].
    - simplify_eq. unfold slot2. rewrite decide_False by done.
      rewrite decide_True by lia. rewrite list_lookup_insert_eq by lia.
      split; [|done]. destruct st; [done|by left|by right].
    - apply (slot2_other k i vf sf); [done|by apply Hsame| |by apply Hslot].
      by rewrite list_lookup_insert_ne. }
  assert (∀ x, filled (<[k := x]> vf) k ↔ x ≠ "") as Hfill.
  { intros x. unfold filled. rewrite list_lookup_insert_eq by lia. split.
    - intros (v & Hv & Hne). congruence.
    - intros Hne. by exists x. }
  assert (∀ x i, i ≠ k → <[k := x]> vf !! i = vf !! i) as Hsame.
  { intros x i Hik. by rewrite list_lookup_insert_ne. }
  (* marking the position absent keeps every count *)
  assert (count_if (slot_positive c) sf = occ c (chars secret) →
          inv2 (S k) (<[k := LETTER_ABSENT_FORMAT (upper c)]> vf,
                      <[k := Some (c, absent, k)]> sf, cnt)) as Hmark_absent.
  { intros Hfull.
    assert (∀ c', count_if (slot_positive c') (<[k := Some (c, absent, k)]> sf)
                  = count_if (slot_positive c') sf) as Hsamecount.
    { intros c'. rewrite count_slot_insert by done. unfold marks_positive. cbn.
      rewrite andb_false_r. lia. }
    unfold inv2. rewrite !length_insert. split_and!; [done|done|..].
    - apply Hslots; [by apply Hfill, format_absent_nonempty| |done|by apply Hsame].
      by rewrite length_insert.
    - intros c'. rewrite Hsamecount. apply Hcnt.
    - intros c'. rewrite Hsamecount. apply Hle.
    - intros i c' j Hi. rewrite Hsamecount. destruct (decide (i = k)) as [->|Hik].
      + rewrite list_lookup_insert_eq in Hi by lia. by simplify_eq.
      + rewrite list_lookup_insert_ne in Hi by done. by eapply Habs. }
  unfold dict_mem, dict_index, list_assign. rewrite !decide_True by lia.
  pose proof (Hcnt c) as Hcc. pose proof (Hle c) as Hlec.
  destruct (decide (occ c (chars secret) = 0)) as [Hz|Hnz].
  { rewrite Hcc. rewrite bool_decide_eq_false_2 by (by intros [? ?]). cbn.
    eexists. split; [reflexivity|]. apply Hmark_absent. lia. }
  rewrite Hcc. rewrite bool_decide_eq_true_2 by eauto. cbn.
  destruct (decide (_ > 0)%Z) as [Hpos|Hpos]; cbn.
  - eexists. split; [reflexivity|].
    assert (∀ c', count_if (slot_positive c') (<[k := Some (c, present, k)]> sf)
                  = count_if (slot_positive c') sf + (if decide (c = c') then 1 else 0))
      as Hcount.
    { intros c'. rewrite count_slot_insert by done. unfold marks_positive. cbn.
      rewrite andb_true_r. destruct (decide (c = c')).
      - by rewrite bool_decide_eq_true_2.
      - by rewrite bool_decide_eq_false_2. }
    unfold inv2. rewrite !length_insert. split_and!; [done|done|..].
    + apply Hslots; [by apply Hfill, format_wrong_pos_nonempty| |done|by apply Hsame].
      by rewrite length_insert.
    + intros c'. rewrite Hcount. destruct (decide (c = c')) as [<-|Hcc'].
      * rewrite lookup_insert_eq, decide_False by done. f_equal. lia.
      * rewrite lookup_insert_ne by done. rewrite Hcnt.
        case_decide; [done|]. f_equal. lia.
    + intros c'. rewrite Hcount. destruct (decide (c = c')) as [<-|Hcc'].
      * lia.
      * specialize (Hle c'). lia.
    + intros i c' j Hi. rewrite Hcount. destruct (decide (i = k)) as [->|Hik].
      { rewrite list_lookup_insert_eq in Hi by lia. by simplify_eq. }
      rewrite list_lookup_insert_ne in Hi by done. specialize (Habs i c' j Hi).
      destruct (decide (c = c')) as [<-|Hcc']; lia.
  - eexists. split; [reflexivity|]. apply Hmark_absent. lia.
Qed.

(** The loop of the [is_correct] branch. *)
Definition inv_correct (k : nat) (s : list string * list (option entry)) : Prop :=
  let '(vf, sf) := s in
  length vf = WORD_LENGTH ∧ length sf = WORD_LENGTH ∧
  (∀ i c, chars guess !! i = Some c →
          if decide (i < k) then sf !! i = Some (Some (c, correct, i))
          else sf !! i = Some None).

Lemma all_correct_step (k : nat) (s : list string * list (option entry)) :
  k < WORD_LENGTH → inv_correct k s →
  ∃ s', all_correct_body guess s k = Returned s' ∧ inv_correct (S k) s'.
Proof.
  destruct s as [vf sf]. intros Hk (Hvf & Hsf & Hslot).
  destruct (guess_letter_at k Hk) as [c Hc].
  unfold all_correct_body. rewrite (str_index_Some _ _ _ Hc). cbn.
  unfold list_assign. rewrite !decide_True by lia. cbn.
  eexists. split; [reflexivity|]. unfold inv_correct. rewrite !length_insert.
  split_and!; [done|done|]. intros i c' Hi. specialize (Hslot i c' Hi).
  destruct (decide (i = k)) as [->|Hik].
  - simplify_eq. rewrite decide_True by lia. by rewrite list_lookup_insert_eq by lia.
  - rewrite list_lookup_insert_ne by done.
    destruct (decide (i < k)), (decide (i < S k)); try done; lia.
Qed.

(** From the filled slots to the returned feedback. *)
Lemma slots_feedback_for (sf : list (option entry)) :
  length sf = WORD_LENGTH →
  (∀ i c, chars guess !! i = Some c →
          ∃ st, sf !! i = Some (Some (c, st, i)) ∧
                (st = correct ↔ chars secret !! i = Some c)) →
  (∀ c, count_if (slot_positive c) sf ≤ occ c (chars secret)) →
  (∀ i c j, sf !! i = Some (Some (c, absent, j)) →
            count_if (slot_positive c) sf = occ c (chars secret)) →
  ∃ fb : feedback, sf = Some <$> fb ∧ feedback_for guess secret fb.
Proof.
  intros Hlen Hslot Hle Habs.
  destruct (slots_all_filled sf) as [fb ->].
  { intros i Hi. destruct (guess_letter_at i ltac:(lia)) as [c Hc].
    destruct (Hslot i c Hc) as (st & Hst & _). eauto. }
  exists fb. split; [done|]. rewrite length_fmap in Hlen.
  assert (∀ i c st j, fb !! i = Some (c, st, j) →
            chars guess !! i = Some c ∧ j = i ∧
            (st = correct ↔ chars secret !! i = Some c)) as Hent.
  { intros i c st j Hi. pose proof (lookup_lt_Some _ _ _ Hi) as Hlt.
    destruct (guess_letter_at i ltac:(lia)) as [c' Hc'].
    destruct (Hslot i c' Hc') as (st' & Hst' & Hiff).
    rewrite list_lookup_fmap, Hi in Hst'. by simplify_eq/=. }
  split.
  - lia.
  - intros i c st j Hi. destruct (Hent i c st j Hi) as (? & ? & _). done.
  - intros i c st j Hi. destruct (Hent i c st j Hi) as (_ & _ & ?). done.
  - intros c. rewrite <- count_slots_feedback. apply Hle.
  - intros i c j Hi. rewrite <- count_slots_feedback. apply (Habs i c j).
    by rewrite list_lookup_fmap, Hi.
Qed.
End CheckGuess.

(** [check_guess] on two words of the right length returns, and what it
    returns is described by [feedback_for]. *)
Lemma check_guess_returns (guess secret : string) :
  len guess = WORD_LENGTH → len secret = WORD_LENGTH →
  ∃ (visual : string) (fb : feedback),
    check_guess guess secret
      = Returned (visual, bool_decide (guess = secret), Some <$> fb) ∧
    feedback_for guess secret fb.
Proof.
  intros Hg Hs. unfold check_guess. rewrite Hg, Hs, Nat.eqb_refl. cbn [negb orb].
  rewrite len_chars in Hg, Hs.
  destruct (bool_decide (guess = secret)) eqn:Heq.
  - apply bool_decide_eq_true in Heq. subst secret.
    destruct (for_each_range_inv (inv_correct guess) (all_correct_body guess) WORD_LENGTH
                (replicate WORD_LENGTH "", replicate WORD_LENGTH None))
      as ([vf sf] & Hrun & Hvf & Hsf & Hslot).
    { unfold inv_correct. rewrite !length_replicate. split_and!; [done|done|].
      intros i c Hi. apply lookup_lt_Some in Hi. rewrite decide_False by lia.
      apply lookup_replicate_2. lia. }
    { intros i t Hi. by apply (all_correct_step guess guess Hg Hg). }
    rewrite Hrun. cbn.
    assert (∀ i c, chars guess !! i = Some c → sf !! i = Some (Some (c, correct, i)))
      as Hall.
    { intros i c Hi. specialize (Hslot i c Hi). apply lookup_lt_Some in Hi.
      by rewrite decide_True in Hslot by lia. }
    destruct (slots_feedback_for guess guess Hg Hg sf) as (fb & -> & Hfb); [done|..].
    + intros i c Hi. exists correct. split; [by apply Hall|done].
    + intros c. apply slot_positive_le_occ. intros i o Hi Hpos.
      pose proof (lookup_lt_Some _ _ _ Hi) as Hlt.
      destruct (guess_letter_at guess Hg i ltac:(lia)) as [c' Hc'].
      rewrite (Hall i c' Hc') in Hi. simplify_eq. cbn in Hpos.
      apply andb_true_iff in Hpos as [Hpos _]. apply bool_decide_eq_true in Hpos.
      cbn in Hpos. by subst.
    + intros i c j Hi. pose proof (lookup_lt_Some _ _ _ Hi) as Hlt.
      destruct (guess_letter_at guess Hg i ltac:(lia)) as [c' Hc'].
      rewrite (Hall i c' Hc') in Hi. simplify_eq.
    + eauto.
  - destruct (for_each_range_inv (inv1 guess secret) (pass1_body guess secret) WORD_LENGTH
                (replicate WORD_LENGTH "", replicate WORD_LENGTH None,
                 letter_counts secret))
      as (s1 & Hrun1 & Hinv1).
    { by apply inv1_init. }
    { intros i t Hi. by apply pass1_step. }
    rewrite Hrun1. cbn.
    destruct (for_each_range_inv (inv2 guess secret) (pass2_body guess) WORD_LENGTH s1)
      as ([[vf sf] cnt] & Hrun2 & Hvf & Hsf & Hslot & Hcnt & Hle & Habs).
    { by apply inv1_inv2. }
    { intros i t Hi. by apply pass2_step. }
    rewrite Hrun2. cbn.
    destruct (slots_feedback_for guess secret Hg Hs sf) as (fb & -> & Hfb); [done|..|eauto];
      [|done|done].
    intros i c Hi. specialize (Hslot i c Hi). unfold slot2 in Hslot.
    apply lookup_lt_Some in Hi.
    destruct (decide (chars secret !! i = Some c)) as [Hsi|Hsi].
    + exists correct. by destruct Hslot.
    + rewrite decide_True in Hslot by lia. destruct Hslot as [[Hp|Ha] _].
      * exists present. by split.
      * exists absent. by split.
Qed.

(** ** Early exits of [_is_consistent] *)

Lemma dict_any_true {K V} `{Countable K} (bad : K → V → bool) (d : gmap K V) :
  dict_any bad d = true ↔ ∃ k v, d !! k = Some v ∧ bad k v = true.
Proof.
  unfold dict_any. rewrite existsb_exists. split.
  - intros ([k v] & Hin & Hbad). exists k, v. split; [|done].
    apply elem_of_map_to_list. by apply list_elem_of_In.
  - intros (k & v & Hk & Hbad). exists (k, v). split; [|done].
    apply list_elem_of_In. by apply elem_of_map_to_list.
Qed.

Lemma dict_any_false {K V} `{Countable K} (bad : K → V → bool) (d : gmap K V) :
  dict_any bad d = false ↔ ∀ k v, d !! k = Some v → bad k v = false.
Proof.
  split.
  - intros Hf k v Hk. destruct (bad k v) eqn:E; [|done].
    assert (dict_any bad d = true) by (apply dict_any_true; eauto). congruence.
  - intros Hall. destruct (dict_any bad d) eqn:E; [|done].
    apply dict_any_true in E as (k & v & Hk & Hbad).
    rewrite (Hall k v Hk) in Hbad. done.
Qed.

Lemma set_any_true {K} `{Countable K} (bad : K → bool) (X : gset K) :
  set_any bad X = true ↔ ∃ k, k ∈ X ∧ bad k = true.
Proof.
  unfold set_any. rewrite existsb_exists. split.
  - intros (k & Hin & Hbad). exists k. split; [|done].
    apply elem_of_elements. by apply list_elem_of_In.
  - intros (k & Hk & Hbad). exists k. split; [|done].
    apply list_elem_of_In. by apply elem_of_elements.
Qed.

Lemma set_any_false {K} `{Countable K} (bad : K → bool) (X : gset K) :
  set_any bad X = false ↔ ∀ k, k ∈ X → bad k = false.
Proof.
  split.
  - intros Hf k Hk. destruct (bad k) eqn:E; [|done].
    assert (set_any bad X = true) by (apply set_any_true; eauto). congruence.
  - intros Hall. destruct (set_any bad X) eqn:E; [|done].
    apply set_any_true in E as (k & Hk & Hbad). rewrite (Hall k Hk) in Hbad. done.
Qed.

(** The four constraint tables accept [word]. *)
Record tables_accept (self : TermoSolverCSP) (word : string) : Prop := {
  ta_green : ∀ index letter, green_letters self !! index = Some letter →
             green_violation word index letter = false;
  ta_yellow : ∀ index letters, yellow_letters self !! index = Some letters →
              yellow_violation word index letters = false;
  ta_gray : ∀ letter, letter ∈ gray_letters self →
            gray_violation self word letter = false;
  ta_min : ∀ letter min_count, min_letter_counts self !! letter = Some min_count →
           min_violation (letter_counts word) letter min_count = false
}.

Definition history_of (self : TermoSolverCSP) : list (string * feedback) :=
  zip (guesses_history self) (feedback_history self).

Lemma is_consistent_true (self : TermoSolverCSP) (word : string) :
  _is_consistent self word = Returned true ↔
  tables_accept self word ∧
  history_consistent (word_length self) word (letter_counts word) (history_of self)
    = Returned true.
Proof.
  unfold _is_consistent, history_of.
  destruct (dict_any (green_violation word) _) eqn:Eg.
  { split; [done|]. intros [[Hg _ _ _] _]. apply dict_any_true in Eg as (k & v & Hk & Hb).
    rewrite (Hg k v Hk) in Hb. done. }
  destruct (dict_any (yellow_violation word) _) eqn:Ey.
  { split; [done|]. intros [[_ Hy _ _] _]. apply dict_any_true in Ey as (k & v & Hk & Hb).
    rewrite (Hy k v Hk) in Hb. done. }
  destruct (set_any (gray_violation self word) _) eqn:Er.
  { split; [done|]. intros [[_ _ Hr _] _]. apply set_any_true in Er as (k & Hk & Hb).
    rewrite (Hr k Hk) in Hb. done. }
  destruct (dict_any (min_violation _) _) eqn:Em.
  { split; [done|]. intros [[_ _ _ Hm] _]. apply dict_any_true in Em as (k & v & Hk & Hb).
    rewrite (Hm k v Hk) in Hb. done. }
  split; [|by intros [_ ?]]. intros Hh. split; [|done]. split.
  - by apply dict_any_false.
  - by apply dict_any_false.
  - by apply set_any_false.
  - by apply dict_any_false.
Qed.

(** The tables in the words of the constraints. *)
Lemma green_violation_false (word : string) (index : nat) (letter : ascii) :
  green_violation word index letter = false ↔ chars word !! index = Some letter.
Proof.
  unfold green_violation. rewrite orb_false_iff, Nat.leb_gt, bool_decide_eq_false.
  rewrite get_chars, len_chars. split.
  - intros [_ Hn]. by destruct (decide (chars word !! index = Some letter)).
  - intros Hi. split; [by eapply lookup_lt_Some|]. by intros Hn.
Qed.

Lemma yellow_violation_false (word : string) (index : nat) (letters : gset ascii) :
  yellow_violation word index letters = false ↔
  ∀ c, chars word !! index = Some c → c ∉ letters.
Proof.
  unfold yellow_violation. rewrite get_chars, len_chars.
  destruct (length (chars word) <=? index) eqn:E.
  - apply Nat.leb_le in E. split; [|done]. intros _ c Hc.
    apply lookup_lt_Some in Hc. lia.
  - destruct (chars word !! index) as [c|]; [|done].
    rewrite bool_decide_eq_false. split; [by intros ? ? [= <-]|]. intros Hc. by apply Hc.
Qed.

Lemma str_mem_true (c : ascii) (w : string) : str_mem c w = true ↔ c ∈ chars w.
Proof. unfold str_mem. apply bool_decide_eq_true. Qed.

Lemma str_mem_occ (c : ascii) (w : string) : str_mem c w = true ↔ 0 < occ c (chars w).
Proof.
  rewrite str_mem_true. pose proof (occ_zero c (chars w)) as Hz. split.
  - intros Hin. destruct (occ c (chars w)); [|lia]. by apply Hz in Hin.
  - intros Hpos. destruct (decide (c ∈ chars w)) as [|Hn]; [done|].
    apply Hz in Hn. lia.
Qed.

Lemma dict_mem_true {K V} `{Countable K} (d : gmap K V) (k : K) :
  dict_mem d k = true ↔ is_Some (d !! k).
Proof. unfold dict_mem. apply bool_decide_eq_true. Qed.

Lemma gray_violation_false (self : TermoSolverCSP) (word : string) (letter : ascii) :
  gray_violation self word letter = false ↔
  (letter ∈ chars word → is_Some (min_letter_counts self !! letter)).
Proof.
  unfold gray_violation. rewrite andb_false_iff, negb_false_iff, dict_mem_true.
  rewrite <- not_true_iff_false, str_mem_true. split.
  - intros [Hn|Hs] Hin; [by apply Hn in Hin|done].
  - intros Himp. destruct (decide (letter ∈ chars word)); [right; auto|by left].
Qed.

Lemma min_violation_false (word : string) (letter : ascii) (min_count : Z) :
  min_violation (letter_counts word) letter min_count = false ↔
  (min_count ≤ Z.of_nat (occ letter (chars word)))%Z.
Proof. unfold min_violation. rewrite letter_counts_get, Z.ltb_ge. done. Qed.

(** ** Scanning one history entry *)

(** A recorded pair is [shaped] when the feedback has one tuple per letter of
    the guess, carrying that letter, and both have the solver's word length:
    what [check_guess] produces. *)
Definition shaped (L : nat) (guess : string) (fb : feedback) : Prop :=
  length (chars guess) = L ∧ length fb = L ∧ e_letter <$> fb = chars guess.

(** A table built with [count_step] holds the count [n c] of each letter. *)
Definition tracks (n : ascii → nat) (d : gmap ascii Z) : Prop :=
  ∀ c, d !! c = if decide (n c = 0) then None else Some (Z.of_nat (n c)).

Lemma tracks_empty (n : ascii → nat) : (∀ c, n c = 0) → tracks n ∅.
Proof. intros H c. rewrite lookup_empty, decide_True; auto. Qed.

Lemma tracks_count_step (n n' : ascii → nat) (d : gmap ascii Z) (x : ascii) :
  tracks n d → (∀ c, n' c = n c + if decide (x = c) then 1 else 0) →
  tracks n' (count_step d x).
Proof.
  intros Hd Hn c. unfold count_step, dict_get. rewrite (Hn c).
  destruct (decide (x = c)) as [->|Hne].
  - rewrite lookup_insert_eq, decide_False by lia. rewrite (Hd c).
    f_equal. case_decide as E; cbn; [rewrite E|]; lia.
  - rewrite lookup_insert_ne by done. rewrite (Hd c), Nat.add_0_r. done.
Qed.

Lemma tracks_same (n n' : ascii → nat) (d : gmap ascii Z) :
  tracks n d → (∀ c, n' c = n c) → tracks n' d.
Proof. intros Hd Hn c. rewrite (Hn c). apply Hd. Qed.

Lemma tracks_get (n : ascii → nat) (d : gmap ascii Z) (c : ascii) :
  tracks n d → dict_get d c 0%Z = Z.of_nat (n c).
Proof. intros Hd. unfold dict_get. rewrite (Hd c). case_decide as E; cbn; lia. Qed.

Lemma occ_app (c : ascii) (l1 l2 : list ascii) : occ c (l1 ++ l2) = occ c l1 + occ c l2.
Proof. unfold occ. apply count_occ_app. Qed.

Lemma occ_positive (c : ascii) (l : list ascii) : 0 < occ c l ↔ c ∈ l.
Proof.
  pose proof (occ_zero c l) as Hz. split.
  - intros Hpos. destruct (decide (c ∈ l)) as [|Hn]; [done|]. apply Hz in Hn. lia.
  - intros Hin. destruct (occ c l); [|lia]. by apply Hz in Hin.
Qed.

Lemma count_if_positive {A} (p : A → bool) (l : list A) :
  0 < count_if p l ↔ ∃ x, x ∈ l ∧ p x = true.
Proof.
  induction l as [|z l IH]; simpl.
  - split; [lia|]. intros (x & Hx & _). by apply elem_of_nil in Hx.
  - split.
    + intros Hpos. destruct (p z) eqn:E.
      * exists z. split; [apply list_elem_of_here|done].
      * destruct (proj1 IH ltac:(lia)) as (x & Hx & Hp). exists x.
        split; [by apply list_elem_of_further|done].
    + intros (x & Hx & Hp). apply elem_of_cons in Hx as [->|Hx].
      * rewrite Hp. lia.
      * assert (0 < count_if p l) by (apply IH; eauto). lia.
Qed.

Lemma absent_count_positive (c : ascii) (fb : feedback) :
  0 < absent_count c fb ↔ ∃ i j, fb !! i = Some (c, absent, j).
Proof.
  unfold absent_count. rewrite count_if_positive. split.
  - intros ([[l st] j] & He & Hm). apply list_elem_of_lookup in He as [i Hi].
    unfold marks_absent in Hm. cbn in Hm. apply andb_true_iff in Hm as [H1 H2].
    apply bool_decide_eq_true in H1, H2. subst. eauto.
  - intros (i & j & Hi). exists (c, absent, j). split.
    + by eapply list_elem_of_lookup_2.
    + unfold marks_absent. cbn. by rewrite !bool_decide_eq_true_2.
Qed.

Lemma positive_count_positive (c : ascii) (fb : feedback) :
  0 < positive_count c fb ↔ ∃ i st j, fb !! i = Some (c, st, j) ∧ is_positive st = true.
Proof.
  unfold positive_count. rewrite count_if_positive. split.
  - intros ([[l st] j] & He & Hm). apply list_elem_of_lookup in He as [i Hi].
    unfold marks_positive in Hm. cbn in Hm. apply andb_true_iff in Hm as [H1 H2].
    apply bool_decide_eq_true in H1. subst. eauto.
  - intros (i & st & j & Hi & Hst). exists (c, st, j). split.
    + by eapply list_elem_of_lookup_2.
    + unfold marks_positive. cbn. by rewrite bool_decide_eq_true_2.
Qed.

(** The pair of this entry does not contradict [word]: a letter of the guess
    with an ['absent'] occurrence that [word] contains occurs in [word]
    exactly as often as the guess marked it positive. *)
Definition entry_exact_ok (word guess : string) (fb : feedback) : Prop :=
  ∀ c, c ∈ chars guess → 0 < absent_count c fb → c ∈ chars word →
       occ c (chars word) = positive_count c fb.

Section Scan.
Variables (L : nat) (guess : string) (fb : feedback).
Hypothesis Hshaped : shaped L guess fb.

Definition scan_inv (k : nat) (s : scan_state) : Prop :=
  let '(guess_counts, positive_counts, has_gray) := s in
  tracks (λ c, occ c (take k (chars guess))) guess_counts ∧
  tracks (λ c, positive_count c (take k fb)) positive_counts ∧
  (∀ c, has_gray !! c =
        if decide (absent_count c (take k fb) = 0) then None else Some true).

Lemma scan_step (k : nat) (s : scan_state) :
  k < L → scan_inv k s →
  ∃ s', scan_body guess fb s k = Returned s' ∧ scan_inv (S k) s'.
Proof.
  destruct Hshaped as (Hg & Hf & Hletters).
  destruct s as [[gc pc] hg]. intros Hk (Hgc & Hpc & Hhg).
  destruct (lookup_lt_is_Some_2 fb k ltac:(lia)) as [[[x st] j] He].
  assert (chars guess !! k = Some x) as Hx.
  { by rewrite <- Hletters, list_lookup_fmap, He. }
  unfold scan_body. rewrite (str_index_Some _ _ _ Hx). unfold list_index.
  rewrite He. cbn. eexists. split; [reflexivity|].
  unfold scan_inv. rewrite (take_S_r _ _ _ Hx), (take_S_r _ _ _ He). split_and!.
  - eapply tracks_count_step; [exact Hgc|]. intros c. cbn beta.
    rewrite occ_app, occ_cons. change (occ c []) with 0. lia.
  - unfold positive_count in *. destruct st; cbn [is_positive e_status fst snd].
    + eapply tracks_count_step; [exact Hpc|]. intros c. cbn beta.
      rewrite count_if_app. cbn. unfold marks_positive. cbn.
      destruct (decide (x = c)).
      * rewrite bool_decide_eq_true_2 by done. cbn. lia.
      * rewrite bool_decide_eq_false_2 by done. cbn. lia.
    + eapply tracks_count_step; [exact Hpc|]. intros c. cbn beta.
      rewrite count_if_app. cbn. unfold marks_positive. cbn.
      destruct (decide (x = c)).
      * rewrite bool_decide_eq_true_2 by done. cbn. lia.
      * rewrite bool_decide_eq_false_2 by done. cbn. lia.
    + eapply tracks_same; [exact Hpc|]. intros c. cbn beta.
      rewrite count_if_app. cbn. unfold marks_positive. cbn.
      rewrite andb_false_r. lia.
  - intros c. unfold absent_count in *. rewrite count_if_app. cbn.
    unfold marks_absent. cbn. destruct st; cbn.
    + rewrite decide_False by done. rewrite andb_false_r, !Nat.add_0_r. apply Hhg.
    + rewrite decide_False by done. rewrite andb_false_r, !Nat.add_0_r. apply Hhg.
    + rewrite (decide_True (P := absent = absent)) by done.
      rewrite andb_true_r. destruct (decide (x = c)) as [->|Hne].
      * rewrite bool_decide_eq_true_2 by done. rewrite lookup_insert_eq.
        by rewrite decide_False by lia.
      * rewrite bool_decide_eq_false_2 by done. rewrite lookup_insert_ne by done.
        rewrite !Nat.add_0_r. apply Hhg.
Qed.

Lemma scan_returns (word : string) :
  ∃ guess_counts positive_counts has_gray,
    for_each (range L) (scan_body guess fb) (∅, ∅, ∅)
      = Returned (guess_counts, positive_counts, has_gray) ∧
    (dict_any (exact_violation word (letter_counts word) positive_counts has_gray)
              guess_counts = false
     ↔ entry_exact_ok word guess fb).
Proof.
  destruct (for_each_range_inv scan_inv (scan_body guess fb) L (∅, ∅, ∅))
    as ([[gc pc] hg] & Hrun & Hgc & Hpc & Hhg).
  { unfold scan_inv. split_and!.
    - by apply tracks_empty.
    - by apply tracks_empty.
    - intros c. by rewrite lookup_empty. }
  { apply scan_step. }
  destruct Hshaped as (Hg & Hf & Hletters).
  rewrite take_ge in Hgc by lia. rewrite take_ge in Hpc by lia.
  assert (∀ c, hg !! c = if decide (absent_count c fb = 0) then None else Some true)
    as Hhg'.
  { intros c. rewrite Hhg. by rewrite take_ge by lia. }
  clear Hhg. rename Hhg' into Hhg.
  exists gc, pc, hg. split; [done|]. rewrite dict_any_false.
  assert (∀ c, exact_violation word (letter_counts word) pc hg c 0%Z = false ↔
               (0 < absent_count c fb → c ∈ chars word →
                occ c (chars word) = positive_count c fb)) as Hviol.
  { intros c. unfold exact_violation.
    rewrite letter_counts_get, (tracks_get _ _ _ Hpc).
    unfold dict_get at 1. rewrite (Hhg c).
    destruct (decide (absent_count c fb = 0)) as [Hz|Hnz]; cbn.
    { split; [intros _ ?; lia|done]. }
    destruct (str_mem c word) eqn:Em; cbn.
    - apply str_mem_true in Em. rewrite negb_false_iff, Z.eqb_eq. split.
      + intros ? _ _. lia.
      + intros Himp. rewrite Himp; [done|lia|done].
    - split; [|done]. intros _ _ Hin. apply str_mem_true in Hin. congruence. }
  split.
  - intros Hall c Hc. apply Hviol.
    pose proof (Hgc c) as Hlook. cbn beta in Hlook.
    rewrite decide_False in Hlook by (apply occ_positive in Hc; lia).
    apply (Hall c _ Hlook).
  - intros Hok c v Hlook. pose proof (Hgc c) as Hc. cbn beta in Hc.
    rewrite Hlook in Hc. case_decide as Hz; [done|].
    assert (c ∈ chars guess) as Hin by (apply occ_positive; lia).
    apply (Hviol c). by apply Hok.
Qed.
End Scan.

(** ** The loop over the history *)

Lemma history_consistent_cons (L : nat) (word guess : string) (fb : feedback)
    (h : list (string * feedback)) :
  shaped L guess fb →
  history_consistent L word (letter_counts word) ((guess, fb) :: h) = Returned true ↔
  entry_exact_ok word guess fb ∧
  history_consistent L word (letter_counts word) h = Returned true.
Proof.
  intros Hsh. cbn [history_consistent].
  destruct (scan_returns L guess fb Hsh word) as (gc & pc & hg & Hrun & Hok).
  rewrite Hrun. cbn. destruct (dict_any _ gc) eqn:E.
  - split; [done|]. intros [Hentry _]. apply Hok in Hentry. congruence.
  - split; [|by intros [_ ?]]. intros Hh. split; [by apply Hok|done].
Qed.

Lemma history_consistent_elem (L : nat) (word guess : string) (fb : feedback)
    (h : list (string * feedback)) :
  history_consistent L word (letter_counts word) h = Returned true →
  (guess, fb) ∈ h → shaped L guess fb → entry_exact_ok word guess fb.
Proof.
  induction h as [|[g' fb'] h IH]; intros Hh Hin Hsh.
  - by apply elem_of_nil in Hin.
  - apply elem_of_cons in Hin as [Heq|Hin].
    + simplify_eq. by apply (history_consistent_cons L word g' fb' h Hsh).
    + apply IH; [|done|done]. cbn [history_consistent] in Hh.
      destruct (for_each _ _ _) as [[[gc pc] hg]|]; [|done]. cbn in Hh.
      by destruct (dict_any _ gc).
Qed.

Lemma history_consistent_snoc (L : nat) (word guess : string) (fb : feedback)
    (h : list (string * feedback)) :
  history_consistent L word (letter_counts word) h = Returned true →
  shaped L guess fb → entry_exact_ok word guess fb →
  history_consistent L word (letter_counts word) (h ++ [(guess, fb)]) = Returned true.
Proof.
  intros Hh Hsh Hok. induction h as [|[g' fb'] h IH].
  - by apply history_consistent_cons.
  - cbn [app history_consistent] in *.
    destruct (for_each _ _ _) as [[[gc pc] hg]|]; [|done]. cbn in *.
    destruct (dict_any _ gc); [done|]. by apply IH.
Qed.

(** A scan that succeeds for one word succeeds for every word: whether the
    loop over the history raises does not depend on the candidate, unless an
    earlier entry already rejected it. *)
Lemma history_consistent_shaped (L : nat) (word : string) (h : list (string * feedback)) :
  Forall (λ p, shaped L p.1 p.2) h →
  ∃ b, history_consistent L word (letter_counts word) h = Returned b.
Proof.
  induction 1 as [|[g fb] h Hsh _ [b IH]]; [by exists true|].
  cbn [history_consistent].
  destruct (scan_returns L g fb Hsh word) as (gc & pc & hg & Hrun & _).
  rewrite Hrun. cbn. destruct (dict_any _ gc); eauto.
Qed.

(** ** [_update_constraints], one tuple at a time *)

(** [c] is barred from position [i]. *)
Definition yellow_at (y : gmap nat (gset ascii)) (i : nat) (c : ascii) : Prop :=
  ∃ letters, y !! i = Some letters ∧ c ∈ letters.

Lemma is_globally_absent_true (fb : feedback) (c : ascii) :
  is_globally_absent fb c = true ↔ positive_count c fb = 0.
Proof.
  unfold is_globally_absent, positive_count. rewrite negb_true_iff, count_if_zero.
  rewrite <- not_true_iff_false, existsb_exists. split.
  - intros Hn e He. destruct (marks_positive c e) eqn:E; [|done]. destruct Hn.
    exists e. split; [by apply list_elem_of_In|done].
  - intros Hz (e & He & Hm). apply list_elem_of_In in He.
    specialize (Hz e He). unfold marks_positive in Hz. congruence.
Qed.

Section UpdateStep.
Variable fb : feedback.

Lemma uc_green_step (s : uc_state) (l : ascii) (st : status) (j i : nat) :
  uc_green (uc_body fb s (l, st, j)) !! i =
    if decide (st = correct ∧ j = i) then Some l else uc_green s !! i.
Proof.
  destruct st; cbn.
  - destruct (decide (j = i)) as [->|Hne].
    + rewrite lookup_insert_eq. by rewrite decide_True.
    + rewrite lookup_insert_ne by done. rewrite decide_False; [done|]. by intros [_ ?].
  - rewrite decide_False; [done|]. by intros [? _].
  - rewrite decide_False; [done|]. by intros [? _].
Qed.

Lemma uc_yellow_step_bwd (s : uc_state) (l : ascii) (st : status) (j i : nat) (c : ascii) :
  yellow_at (uc_yellow (uc_body fb s (l, st, j))) i c →
  yellow_at (uc_yellow s) i c ∨ (l = c ∧ st = present ∧ j = i).
Proof.
  unfold yellow_at. destruct st; cbn.
  - destruct (uc_yellow s !! j) as [letters|] eqn:Ej; [|by left].
    intros (X & HX & Hc). destruct (decide (j = i)) as [->|Hne].
    + rewrite lookup_insert_eq in HX. simplify_eq. left. exists letters.
      split; [done|]. by apply elem_of_difference in Hc as [? _].
    + rewrite lookup_insert_ne in HX by done. left. eauto.
  - intros (X & HX & Hc). destruct (decide (j = i)) as [->|Hne].
    + rewrite lookup_insert_eq in HX. simplify_eq.
      apply elem_of_union in Hc as [Hc|Hc].
      * apply elem_of_singleton in Hc. right. done.
      * left. destruct (uc_yellow s !! i) as [letters|] eqn:Ei.
        -- rewrite Ei in Hc. cbn in Hc. eauto.
        -- rewrite lookup_insert_eq in Hc. cbn in Hc. set_solver.
    + rewrite lookup_insert_ne in HX by done. left. exists X. split; [|done].
      destruct (uc_yellow s !! j); [done|]. by rewrite lookup_insert_ne in HX.
  - by left.
Qed.

Lemma uc_yellow_step_fwd (s : uc_state) (l : ascii) (st : status) (j i : nat) (c : ascii) :
  yellow_at (uc_yellow s) i c →
  yellow_at (uc_yellow (uc_body fb s (l, st, j))) i c ∨ (l = c ∧ st = correct ∧ j = i).
Proof.
  unfold yellow_at. intros (X & HX & Hc). destruct st; cbn.
  - destruct (decide (j = i)) as [->|Hne].
    + rewrite HX. destruct (decide (l = c)) as [->|Hlc]; [by right|].
      left. exists (X ∖ {[l]}). rewrite lookup_insert_eq. split; [done|]. set_solver.
    + left. exists X. split; [|done].
      destruct (uc_yellow s !! j); [|done]. by rewrite lookup_insert_ne.
  - left. destruct (decide (j = i)) as [->|Hne].
    + rewrite HX. eexists. rewrite lookup_insert_eq. split; [done|].
      rewrite HX. cbn. set_solver.
    + exists X. split; [|done]. rewrite lookup_insert_ne by done.
      destruct (uc_yellow s !! j); [done|]. by rewrite lookup_insert_ne.
  - left. eauto.
Qed.

Lemma uc_gray_step (s : uc_state) (l : ascii) (st : status) (j : nat) (c : ascii) :
  c ∈ uc_gray (uc_body fb s (l, st, j)) ↔
  c ∈ uc_gray s ∨ (l = c ∧ st = absent ∧ positive_count c fb = 0).
Proof.
  destruct st; cbn;
    [split; [by left|intros [?|(_ & ? & _)]; done]..|].
  destruct (is_globally_absent fb l) eqn:E.
  - apply is_globally_absent_true in E. rewrite elem_of_union, elem_of_singleton.
    split.
    + intros [->|?]; [by right|by left].
    + intros [?|(-> & _ & _)]; [by right|by left].
  - split; [by left|]. intros [?|(-> & _ & Hz)]; [done|].
    apply is_globally_absent_true in Hz. congruence.
Qed.

Lemma uc_positive_step (s : uc_state) (l : ascii) (st : status) (j : nat) :
  uc_positive (uc_body fb s (l, st, j)) =
    if is_positive st then count_step (uc_positive s) l else uc_positive s.
Proof. by destruct st. Qed.
End UpdateStep.

(** ** [_update_constraints], the whole feedback *)

Section UpdateRun.
Variable fb : feedback.

Lemma uc_green_bwd (l : feedback) (s : uc_state) (i : nat) (c : ascii) :
  uc_green (fold_left (uc_body fb) l s) !! i = Some c →
  uc_green s !! i = Some c ∨ (c, correct, i) ∈ l.
Proof.
  revert s. induction l as [|[[x st] j] l IH]; intros s H; [by left|].
  cbn [fold_left] in H. apply IH in H as [H|H].
  - rewrite uc_green_step in H. case_decide as Hd; [|by left].
    destruct Hd as [-> ->]. simplify_eq. right. apply list_elem_of_here.
  - right. by apply list_elem_of_further.
Qed.

Lemma uc_green_fwd (l : feedback) (s : uc_state) (i : nat) (c : ascii) :
  uc_green s !! i = Some c →
  ∃ c', uc_green (fold_left (uc_body fb) l s) !! i = Some c' ∧
        (c' = c ∨ (c', correct, i) ∈ l).
Proof.
  revert s c. induction l as [|[[x st] j] l IH]; intros s c H; [by eauto|].
  cbn [fold_left]. destruct (decide (st = correct ∧ j = i)) as [[-> ->]|Hd].
  - destruct (IH (uc_body fb s (x, correct, i)) x) as (c' & Hc' & Hor).
    { rewrite uc_green_step. by rewrite decide_True. }
    exists c'. split; [done|]. right. destruct Hor as [->|Hin].
    + apply list_elem_of_here.
    + by apply list_elem_of_further.
  - destruct (IH (uc_body fb s (x, st, j)) c) as (c' & Hc' & Hor).
    { rewrite uc_green_step. by rewrite decide_False. }
    exists c'. split; [done|]. destruct Hor as [->|Hin]; [by left|].
    right. by apply list_elem_of_further.
Qed.

Lemma uc_yellow_bwd (l : feedback) (s : uc_state) (i : nat) (c : ascii) :
  yellow_at (uc_yellow (fold_left (uc_body fb) l s)) i c →
  yellow_at (uc_yellow s) i c ∨ (c, present, i) ∈ l.
Proof.
  revert s. induction l as [|[[x st] j] l IH]; intros s H; [by left|].
  cbn [fold_left] in H. apply IH in H as [H|H].
  - apply uc_yellow_step_bwd in H as [H|(-> & -> & ->)]; [by left|].
    right. apply list_elem_of_here.
  - right. by apply list_elem_of_further.
Qed.

Lemma uc_yellow_fwd (l : feedback) (s : uc_state) (i : nat) (c : ascii) :
  yellow_at (uc_yellow s) i c →
  yellow_at (uc_yellow (fold_left (uc_body fb) l s)) i c ∨ (c, correct, i) ∈ l.
Proof.
  revert s. induction l as [|[[x st] j] l IH]; intros s H; [by left|].
  cbn [fold_left].
  destruct (uc_yellow_step_fwd fb s x st j i c H) as [H1|(-> & -> & ->)].
  - destruct (IH _ H1) as [?|?]; [by left|]. right. by apply list_elem_of_further.
  - right. apply list_elem_of_here.
Qed.

Lemma uc_gray_run (l : feedback) (s : uc_state) (c : ascii) :
  c ∈ uc_gray (fold_left (uc_body fb) l s) ↔
  c ∈ uc_gray s ∨ (0 < absent_count c l ∧ positive_count c fb = 0).
Proof.
  revert s. induction l as [|[[x st] j] l IH]; intros s.
  - cbn. split; [by left|]. intros [?|[? _]]; [done|]. unfold absent_count in *.
    cbn in *. lia.
  - cbn [fold_left]. rewrite IH, uc_gray_step. unfold absent_count. cbn [count_if].
    unfold marks_absent at 2. cbn [e_letter e_status fst snd]. split.
    + intros [[?|(-> & -> & Hz)]|[Hpos Hz]].
      * by left.
      * right. split; [|done]. rewrite !bool_decide_eq_true_2 by done. cbn. lia.
      * right. split; [lia|done].
    + intros [?|[Hpos Hz]]; [by left; left|].
      destruct (bool_decide (x = c)) eqn:Ex, (bool_decide (st = absent)) eqn:Es;
        cbn in Hpos; try (right; split; [exact Hpos|done]).
      apply bool_decide_eq_true in Ex, Es. left. right. done.
Qed.

Lemma uc_positive_run (l : feedback) (s : uc_state) (n : ascii → nat) :
  tracks n (uc_positive s) →
  tracks (λ c, n c + positive_count c l) (uc_positive (fold_left (uc_body fb) l s)).
Proof.
  revert s n. induction l as [|[[x st] j] l IH]; intros s n Hn.
  - cbn. eapply tracks_same; [exact Hn|]. intros c. unfold positive_count. cbn. lia.
  - cbn [fold_left].
    eapply tracks_same; [apply (IH _ (λ c, n c + marks_positive_nat c (x, st, j)))|].
    + rewrite uc_positive_step. unfold marks_positive_nat, marks_positive.
      cbn [e_letter e_status fst snd]. destruct (is_positive st).
      * eapply tracks_count_step; [exact Hn|]. intros c. cbn beta.
        rewrite andb_true_r. destruct (decide (x = c)).
        -- by rewrite bool_decide_eq_true_2.
        -- by rewrite bool_decide_eq_false_2.
      * eapply tracks_same; [exact Hn|]. intros c. cbn beta.
        rewrite andb_false_r. lia.
    + intros c. cbn beta. unfold positive_count, marks_positive_nat. cbn [count_if]. lia.
Qed.
End UpdateRun.

Lemma map_fold_raise_min (m p : gmap ascii Z) (c : ascii) :
  map_fold raise_min m p !! c =
    match p !! c with
    | Some k => Some (Z.max (dict_get m c 0%Z) k)
    | None => m !! c
    end.
Proof.
  revert c. apply (map_fold_weak_ind
    (λ r p, ∀ c, r !! c = match p !! c with
                          | Some k => Some (Z.max (dict_get m c 0%Z) k)
                          | None => m !! c
                          end)).
  - intros c. by rewrite lookup_empty.
  - intros i x p' r Hi IH c. unfold raise_min. destruct (decide (i = c)) as [->|Hne].
    + rewrite !lookup_insert_eq. f_equal. unfold dict_get. by rewrite IH, Hi.
    + rewrite !lookup_insert_ne by done. apply IH.
Qed.

(** ** What an update does to each table *)

Section Update.
Variables (self : TermoSolverCSP) (guess : string) (fb : feedback).
Local Abbreviation self' := (_update_constraints self guess fb).

Lemma update_green_bwd (i : nat) (c : ascii) :
  green_letters self' !! i = Some c →
  green_letters self !! i = Some c ∨ (c, correct, i) ∈ fb.
Proof. apply uc_green_bwd. Qed.

Lemma update_green_fwd (i : nat) (c : ascii) :
  green_letters self !! i = Some c →
  ∃ c', green_letters self' !! i = Some c' ∧ (c' = c ∨ (c', correct, i) ∈ fb).
Proof. intros H. by apply (uc_green_fwd fb fb _ i c). Qed.

Lemma update_yellow_bwd (i : nat) (c : ascii) :
  yellow_at (yellow_letters self') i c →
  yellow_at (yellow_letters self) i c ∨ (c, present, i) ∈ fb.
Proof. apply uc_yellow_bwd. Qed.

Lemma update_yellow_fwd (i : nat) (c : ascii) :
  yellow_at (yellow_letters self) i c →
  yellow_at (yellow_letters self') i c ∨ (c, correct, i) ∈ fb.
Proof. intros H. by apply (uc_yellow_fwd fb fb _ i c). Qed.

Lemma update_gray (c : ascii) :
  c ∈ gray_letters self' ↔
  c ∈ gray_letters self ∨ (0 < absent_count c fb ∧ positive_count c fb = 0).
Proof. apply uc_gray_run. Qed.

Lemma update_min (c : ascii) :
  min_letter_counts self' !! c =
    if decide (positive_count c fb = 0) then min_letter_counts self !! c
    else Some (Z.max (dict_get (min_letter_counts self) c 0%Z)
                     (Z.of_nat (positive_count c fb))).
Proof.
  cbn [_update_constraints min_letter_counts].
  rewrite map_fold_raise_min.
  pose proof (uc_positive_run fb fb
                {| uc_green := green_letters self; uc_yellow := yellow_letters self;
                   uc_gray := gray_letters self; uc_positive := ∅ |}
                (λ _, 0) (tracks_empty _ (λ _, eq_refl)) c) as Hp.
  cbn beta in Hp. rewrite Hp, !Nat.add_0_l.
  by destruct (decide (positive_count c fb = 0)).
Qed.

Lemma update_min_mono (c : ascii) :
  (dict_get (min_letter_counts self) c 0 ≤ dict_get (min_letter_counts self') c 0)%Z.
Proof.
  unfold dict_get at 2. rewrite update_min. case_decide; [done|]. cbn. lia.
Qed.

Lemma update_min_dom (c : ascii) :
  is_Some (min_letter_counts self !! c) → is_Some (min_letter_counts self' !! c).
Proof. intros H. rewrite update_min. case_decide; [done|]. eauto. Qed.
End Update.

(** ** Feedback derived from the secret never contradicts the secret *)

Lemma feedback_for_letters (guess secret : string) (fb : feedback) :
  feedback_for guess secret fb → e_letter <$> fb = chars guess.
Proof.
  intros [Hlen Hent _ _ _]. apply list_eq_same_length with (length fb).
  - lia.
  - by rewrite length_fmap.
  - intros i x y Hi Hx Hy. rewrite list_lookup_fmap in Hx.
    destruct (fb !! i) as [[[c st] j]|] eqn:E; [|done].
    destruct (Hent i c st j E) as [Hc _]. cbn in Hx. congruence.
Qed.

Lemma feedback_for_shaped (guess secret : string) (fb : feedback) :
  feedback_for guess secret fb → shaped (length (chars guess)) guess fb.
Proof.
  intros Hfb. split_and!; [done|by destruct Hfb|by eapply feedback_for_letters].
Qed.

Lemma feedback_for_exact_ok (guess secret : string) (fb : feedback) :
  feedback_for guess secret fb → entry_exact_ok secret guess fb.
Proof.
  intros Hfb c _ Habs _. apply absent_count_positive in Habs as (i & j & Hi).
  symmetry. by eapply ff_exact.
Qed.

Lemma feedback_for_elem (guess secret : string) (fb : feedback) (c : ascii)
    (st : status) (i : nat) :
  feedback_for guess secret fb → (c, st, i) ∈ fb →
  fb !! i = Some (c, st, i) ∧ (st = correct ↔ chars secret !! i = Some c).
Proof.
  intros Hfb Hin. apply list_elem_of_lookup in Hin as [n Hn].
  destruct (ff_entry _ _ _ Hfb n c st i Hn) as [_ ->].
  split; [done|]. by eapply ff_correct.
Qed.

Lemma tables_accept_update (self : TermoSolverCSP) (guess secret : string) (fb : feedback) :
  feedback_for guess secret fb →
  tables_accept self secret →
  tables_accept (_update_constraints self guess fb) secret.
Proof.
  intros Hfb [Hg Hy Hr Hm]. split.
  - intros i c Hi. apply green_violation_false.
    apply update_green_bwd in Hi as [Hi|Hin].
    + by apply green_violation_false, Hg.
    + destruct (feedback_for_elem _ _ _ _ _ _ Hfb Hin) as [_ Hiff]. by apply Hiff.
  - intros i letters Hi. apply yellow_violation_false. intros c Hc Hin.
    destruct (update_yellow_bwd self guess fb i c) as [(X & HX & HcX)|Hfbin].
    { by exists letters. }
    + specialize (Hy i X HX). rewrite yellow_violation_false in Hy. by apply (Hy c).
    + destruct (feedback_for_elem _ _ _ _ _ _ Hfb Hfbin) as [_ Hiff].
      apply Hiff in Hc. done.
  - intros c Hc. apply gray_violation_false. intros Hin.
    apply update_gray in Hc as [Hc|[Habs Hz]].
    + apply update_min_dom. specialize (Hr c Hc). rewrite gray_violation_false in Hr. auto.
    + exfalso. apply absent_count_positive in Habs as (i & j & Hi).
      pose proof (ff_exact _ _ _ Hfb i c j Hi) as Hex.
      apply occ_positive in Hin. lia.
  - intros c m Hc. apply min_violation_false. rewrite update_min in Hc.
    pose proof (ff_bound _ _ _ Hfb c) as Hb.
    assert (dict_get (min_letter_counts self) c 0 ≤ Z.of_nat (occ c (chars secret)))%Z
      as Hold.
    { unfold dict_get. destruct (min_letter_counts self !! c) as [m0|] eqn:E; cbn; [|lia].
      by apply min_violation_false, Hm. }
    case_decide; simplify_eq.
    + by apply min_violation_false, Hm.
    + lia.
Qed.

(** ** The set comprehension of [add_feedback] *)

Lemma set_comprehension_loop (P : string → outcome bool) (l : list string)
    (acc Y : gset string) :
  for_each l (λ (acc : gset string) word,
                b ← P word; mret (if b : bool then {[word]} ∪ acc else acc)) acc
    = Returned Y →
  ∀ w, w ∈ Y ↔ w ∈ acc ∨ (w ∈ l ∧ P w = Returned true).
Proof.
  revert acc. induction l as [|x l IH]; intros acc Hrun w.
  - cbn in Hrun. simplify_eq. split; [by left|]. intros [?|[Hn _]]; [done|].
    by apply elem_of_nil in Hn.
  - cbn [for_each] in Hrun. destruct (P x) as [b|e] eqn:Ex; [|done]. cbn in Hrun.
    rewrite (IH _ Hrun w), elem_of_cons. destruct b.
    + rewrite elem_of_union, elem_of_singleton. split.
      * intros [[->|?]|[? ?]]; eauto.
      * intros [?|[[->|?] ?]]; eauto.
    + split.
      * intros [?|[? ?]]; eauto.
      * intros [?|[[->|?] ?]]; eauto. congruence.
Qed.

Lemma set_comprehension_returned (P : string → outcome bool) (X Y : gset string) :
  set_comprehension P X = Returned Y →
  ∀ w, w ∈ Y ↔ w ∈ X ∧ P w = Returned true.
Proof.
  intros Hrun w. unfold set_comprehension in Hrun.
  rewrite (set_comprehension_loop P _ _ _ Hrun w), elem_of_elements.
  split; [intros [Hn|?]; [by apply not_elem_of_empty in Hn|done]|by right].
Qed.

Lemma set_comprehension_total (P : string → outcome bool) (X : gset string) :
  (∀ w, w ∈ X → ∃ b, P w = Returned b) → ∃ Y, set_comprehension P X = Returned Y.
Proof.
  unfold set_comprehension. intros Hall.
  assert (∀ w, w ∈ elements X → ∃ b, P w = Returned b) as Hl.
  { intros w Hw. apply Hall. by apply elem_of_elements. }
  clear Hall. generalize (∅ : gset string).
  induction (elements X) as [|x l IH]; intros acc; [by eexists|].
  cbn [for_each]. destruct (Hl x) as [b Hb]; [apply list_elem_of_here|].
  rewrite Hb. cbn. apply IH. intros w Hw. apply Hl. by apply list_elem_of_further.
Qed.

(** ** [add_feedback] *)

(** The object after lines 230-232, before the candidates are filtered. *)
Definition updated (self : TermoSolverCSP) (guess : string) (fb : feedback)
  : TermoSolverCSP :=
  _update_constraints (record_history self guess fb) guess fb.

Lemma is_consistent_set_possible_words (self : TermoSolverCSP) (ws : gset string)
    (word : string) :
  _is_consistent (set_possible_words self ws) word = _is_consistent self word.
Proof. done. Qed.

Lemma add_feedback_is_consistent (self : TermoSolverCSP) (guess : string) (fb : feedback)
    (word : string) :
  _is_consistent (add_feedback self guess fb).1 word
  = _is_consistent (updated self guess fb) word.
Proof.
  unfold add_feedback. fold (updated self guess fb).
  by destruct (set_comprehension _ _).
Qed.

Lemma add_feedback_possible_words (self : TermoSolverCSP) (guess : string) (fb : feedback)
    (word : string) :
  word ∈ possible_words (add_feedback self guess fb).1 →
  word ∈ possible_words self.
Proof.
  unfold add_feedback. fold (updated self guess fb).
  destruct (set_comprehension _ _) as [ws|e] eqn:E; cbn; [|done].
  intros Hw. by apply (set_comprehension_returned _ _ _ E) in Hw as [? _].
Qed.

Lemma add_feedback_keeps (self : TermoSolverCSP) (guess : string) (fb : feedback)
    (word : string) :
  word ∈ possible_words self →
  _is_consistent (updated self guess fb) word = Returned true →
  word ∈ possible_words (add_feedback self guess fb).1.
Proof.
  intros Hw Hc. unfold add_feedback. fold (updated self guess fb).
  destruct (set_comprehension _ _) as [ws|e] eqn:E; cbn; [|done].
  by apply (set_comprehension_returned _ _ _ E).
Qed.

(** ** Sessions *)

(** What holds of the solver during a session played with words of length
    [L]: both histories advance together and every recorded pair is shaped. *)
Definition session_inv (L : nat) (self : TermoSolverCSP) : Prop :=
  word_length self = L ∧
  length (guesses_history self) = length (feedback_history self) ∧
  Forall (λ p, shaped L p.1 p.2) (history_of self).

Lemma history_of_updated (self : TermoSolverCSP) (guess : string) (fb : feedback) :
  length (guesses_history self) = length (feedback_history self) →
  history_of (updated self guess fb) = history_of self ++ [(guess, fb)].
Proof. intros Hlen. unfold history_of. cbn. by rewrite zip_with_app. Qed.

Lemma session_inv_init (valid_words : gset string) (L : nat) :
  session_inv L (init valid_words L).
Proof. split_and!; [done|done|]. apply Forall_nil_2. Qed.

Lemma session_inv_updated (L : nat) (self : TermoSolverCSP) (guess : string)
    (fb : feedback) :
  session_inv L self → shaped L guess fb → session_inv L (updated self guess fb).
Proof.
  intros (HL & Hlen & Hall) Hsh. split_and!.
  - done.
  - cbn. rewrite !length_app. cbn. lia.
  - rewrite history_of_updated by done. apply Forall_app. split; [done|].
    by apply Forall_singleton.
Qed.

Lemma is_consistent_returns (L : nat) (self : TermoSolverCSP) (word : string) :
  session_inv L self → ∃ b, _is_consistent self word = Returned b.
Proof.
  intros (HL & _ & Hall). unfold _is_consistent.
  repeat (match goal with |- context [if ?b then _ else _] => destruct b end;
          [by eexists|]).
  rewrite HL. by apply history_consistent_shaped.
Qed.

Lemma add_feedback_returns (L : nat) (self : TermoSolverCSP) (guess : string)
    (fb : feedback) :
  session_inv L self → shaped L guess fb →
  (add_feedback self guess fb).2 = None ∧ session_inv L (add_feedback self guess fb).1.
Proof.
  intros Hinv Hsh. pose proof (session_inv_updated L self guess fb Hinv Hsh) as Hup.
  unfold add_feedback. fold (updated self guess fb).
  destruct (set_comprehension_total (_is_consistent (updated self guess fb))
              (possible_words (updated self guess fb))) as [Y HY].
  { intros w _. by eapply is_consistent_returns. }
  rewrite HY. cbn. split; [done|]. exact Hup.
Qed.

Lemma consistent_updated (self : TermoSolverCSP) (guess secret : string) (fb : feedback) :
  session_inv (length (chars guess)) self →
  feedback_for guess secret fb →
  _is_consistent self secret = Returned true →
  _is_consistent (updated self guess fb) secret = Returned true.
Proof.
  intros (HL & Hlen & Hall) Hfb [Htab Hhist]%is_consistent_true.
  apply is_consistent_true. split.
  - apply tables_accept_update; [done|].
    destruct Htab as [Hg Hy Hr Hm]. by split.
  - rewrite history_of_updated by done. cbn [updated _update_constraints word_length
      record_history]. apply history_consistent_snoc; [done|..].
    + rewrite HL. by eapply feedback_for_shaped.
    + by eapply feedback_for_exact_ok.
Qed.

Lemma init_consistent (valid_words : gset string) (L : nat) (word : string) :
  _is_consistent (init valid_words L) word = Returned true.
Proof.
  apply is_consistent_true. split; [split|done]; cbn.
  - intros i c Hi. by rewrite lookup_empty in Hi.
  - intros i X Hi. by rewrite lookup_empty in Hi.
  - intros c Hc. by apply not_elem_of_empty in Hc.
  - intros c m Hc. by rewrite lookup_empty in Hc.
Qed.

Lemma tuples_filled (fb : feedback) : tuples (Some <$> fb) = Returned fb.
Proof.
  unfold tuples. induction fb as [|e fb IH]; [done|].
  rewrite fmap_cons. cbn [for_list]. cbn. by rewrite IH.
Qed.

Lemma attempt_returns (self : TermoSolverCSP) (guess secret : string) :
  len guess = WORD_LENGTH → len secret = WORD_LENGTH →
  session_inv WORD_LENGTH self →
  ∃ fb, feedback_for guess secret fb ∧
        attempt self guess secret = Returned (add_feedback self guess fb).1 ∧
        session_inv WORD_LENGTH (add_feedback self guess fb).1.
Proof.
  intros Hg Hs Hinv.
  destruct (check_guess_returns guess secret Hg Hs) as (vis & fb & Hcg & Hfb).
  exists fb. split; [done|].
  assert (shaped WORD_LENGTH guess fb) as Hsh.
  { rewrite <- Hg, len_chars. by eapply feedback_for_shaped. }
  destruct (add_feedback_returns WORD_LENGTH self guess fb Hinv Hsh) as [Hnone Hinv'].
  split; [|done]. unfold attempt. rewrite Hcg. cbn. rewrite tuples_filled. cbn.
  destruct (add_feedback self guess fb) as [self' [e|]]; [done|done].
Qed.

(** The secret survives any number of attempts made against it. *)
Lemma attempts_keep_secret (secret : string) (guesses : list string) :
  len secret = WORD_LENGTH →
  Forall (λ g, len g = WORD_LENGTH) guesses →
  ∀ self, session_inv WORD_LENGTH self →
          _is_consistent self secret = Returned true →
          ∃ solver, attempts self secret guesses = Returned solver ∧
                    session_inv WORD_LENGTH solver ∧
                    _is_consistent solver secret = Returned true ∧
                    (secret ∈ possible_words self → secret ∈ possible_words solver).
Proof.
  intros Hs. induction 1 as [|g gs Hg _ IH]; intros self Hinv Hcons.
  - exists self. by split_and!.
  - destruct (attempt_returns self g secret Hg Hs Hinv) as (fb & Hfb & Hatt & Hinv').
    assert (_is_consistent (updated self g fb) secret = Returned true) as Hup.
    { apply consistent_updated; [|done|done]. by rewrite <- len_chars, Hg. }
    destruct (IH (add_feedback self g fb).1 Hinv') as (solver & Hrun & ? & ? & Hkeep).
    { by rewrite add_feedback_is_consistent. }
    exists solver. cbn [attempts]. rewrite Hatt. cbn. split_and!; [done..|].
    intros Hin. apply Hkeep. by apply add_feedback_keeps.
Qed.

(** ** Invariants of reachable solver objects *)

(** The minimum counts follow the recorded feedback: every recorded minimum
    is at least one, and a letter marked positive [k] times by a recorded
    feedback has a recorded minimum of at least [k]. *)
Definition coupled (self : TermoSolverCSP) : Prop :=
  length (guesses_history self) = length (feedback_history self) ∧
  (∀ c m, min_letter_counts self !! c = Some m → (1 ≤ m)%Z) ∧
  (∀ fb c, fb ∈ feedback_history self → 0 < positive_count c fb →
           ∃ m, min_letter_counts self !! c = Some m ∧
                (Z.of_nat (positive_count c fb) ≤ m)%Z).

Lemma coupled_updated (self : TermoSolverCSP) (guess : string) (fb : feedback) :
  coupled self → coupled (updated self guess fb).
Proof.
  intros (Hlen & Hpos & Hcov). unfold updated. split_and!.
  - cbn. rewrite !length_app. cbn. lia.
  - intros c m Hm. rewrite update_min in Hm. cbn [record_history min_letter_counts] in Hm.
    case_decide; simplify_eq; [by eapply Hpos|]. lia.
  - intros fb' c Hin Hk. rewrite update_min. cbn [record_history min_letter_counts].
    cbn in Hin. apply elem_of_app in Hin as [Hin|Hin].
    + destruct (Hcov fb' c Hin Hk) as (m & Hm & Hle). case_decide; [by eauto|].
      eexists. split; [done|]. unfold dict_get. rewrite Hm. cbn. lia.
    + apply list_elem_of_singleton in Hin as ->. rewrite decide_False by lia.
      eexists. split; [done|]. lia.
Qed.

Lemma coupled_add_feedback (self : TermoSolverCSP) (guess : string) (fb : feedback) :
  coupled self → coupled (add_feedback self guess fb).1.
Proof.
  intros H. apply (coupled_updated self guess fb) in H. unfold add_feedback.
  fold (updated self guess fb). by destruct (set_comprehension _ _).
Qed.

Lemma reachable_coupled (self : TermoSolverCSP) : reachable self → coupled self.
Proof.
  induction 1 as [valid_words L|self guess fb _ IH].
  - split_and!; [done|..].
    + intros c m Hm. cbn in Hm. by rewrite lookup_empty in Hm.
    + intros fb c Hin. cbn in Hin. by apply elem_of_nil in Hin.
  - by apply coupled_add_feedback.
Qed.

(** ** Concrete sessions *)

#[global] Instance yellow_at_dec (y : gmap nat (gset ascii)) (i : nat) (c : ascii) :
  Decision (yellow_at y i c).
Proof.
  unfold yellow_at. destruct (y !! i) as [letters|] eqn:E.
  - destruct (decide (c ∈ letters)) as [Hin|Hnot].
    + left. by exists letters.
    + right. intros (X & HX & Hc). by simplify_eq.
  - right. by intros (X & HX & _).
Defined.

(** Decide a closed proposition by evaluation. *)
Ltac by_evaluation := apply (bool_decide_unpack _); vm_compute; exact I.

Definition small_corpus : gset string :=
  {[ "bater"; "carta"; "porta"; "festa"; "manta" ]}.

(** [check_guess("sassy", "glass")]. *)
Definition sassy_glass : feedback :=
  [("s"%char, present, 0); ("a"%char, present, 1); ("s"%char, absent, 2);
   ("s"%char, correct, 3); ("y"%char, absent, 4)].

Definition after_sassy : TermoSolverCSP :=
  (add_feedback (init {[ "glass"; "sassy"; "gloss" ]} WORD_LENGTH) "sassy" sassy_glass).1.

(** [check_guess("acelo", "bravo")] and [check_guess("acelo", "amigo")]. *)
Definition acelo_bravo : feedback :=
  [("a"%char, present, 0); ("c"%char, absent, 1); ("e"%char, absent, 2);
   ("l"%char, absent, 3); ("o"%char, correct, 4)].

Definition acelo_amigo : feedback :=
  [("a"%char, correct, 0); ("c"%char, absent, 1); ("e"%char, absent, 2);
   ("l"%char, absent, 3); ("o"%char, correct, 4)].

Definition after_bravo : TermoSolverCSP :=
  (add_feedback (init {[ "bravo"; "amigo" ]} WORD_LENGTH) "acelo" acelo_bravo).1.

Definition out_of_candidates : TermoSolverCSP :=
  set_possible_words (init small_corpus WORD_LENGTH) ∅.

(** ** The claims *)

(** *** C1 *)

(** C1. Self-consistency: whatever the corpus, the secret [s] and the guesses
    already made (all of length 5), after each guess [g] has been reported to
    the solver with the structured feedback [check_guess(g, s)], the session
    has run without raising, [_is_consistent(s)] returns [True], and [s], if
    it was a candidate at the start, is still in [possible_words]. *)
Theorem secret_never_filtered_out (valid_words : gset string) (secret : string)
    (guesses : list string) :
  len secret = WORD_LENGTH →
  Forall (λ g, len g = WORD_LENGTH) guesses →
  ∃ solver,
    attempts (init valid_words WORD_LENGTH) secret guesses = Returned solver ∧
    _is_consistent solver secret = Returned true ∧
    (secret ∈ valid_words → secret ∈ possible_words solver).
Proof.
  intros Hs Hgs.
  destruct (attempts_keep_secret secret guesses Hs Hgs (init valid_words WORD_LENGTH))
    as (solver & Hrun & _ & Hcons & Hkeep).
  - apply session_inv_init.
  - apply init_consistent.
  - exists solver. by split_and!.
Qed.

Lemma secret_never_filtered_out_witness :
  len "porta" = WORD_LENGTH ∧
  Forall (λ g, len g = WORD_LENGTH) ["acelo"; "sumir"; "carta"] ∧
  ∃ solver,
    attempts (init small_corpus WORD_LENGTH) "porta" ["acelo"; "sumir"; "carta"]
      = Returned solver ∧
    _is_consistent solver "porta" = Returned true ∧
    ("porta" ∈ small_corpus → "porta" ∈ possible_words solver).
Proof.
  split; [reflexivity|]. split; [repeat constructor|].
  apply (secret_never_filtered_out small_corpus "porta" ["acelo"; "sumir"; "carta"]).
  - reflexivity.
  - repeat constructor.
Defined.

(** *** C2 *)

Lemma positive_absent_split (c : ascii) (fb : feedback) :
  positive_count c fb + absent_count c fb = occ c (e_letter <$> fb).
Proof.
  unfold positive_count, absent_count.
  induction fb as [|[[x st] j] fb IH]; [done|].
  rewrite fmap_cons, occ_cons. cbn [count_if]. unfold marks_positive at 1, marks_absent at 1.
  cbn [e_letter e_status fst snd].
  destruct (decide (x = c)) as [->|Hne].
  - rewrite !bool_decide_eq_true_2 by done. destruct st; cbn -[count_if occ];
      rewrite ?(bool_decide_eq_true_2 (absent = absent)),
              ?(bool_decide_eq_false_2 (correct = absent)),
              ?(bool_decide_eq_false_2 (present = absent)) by done; lia.
  - rewrite !bool_decide_eq_false_2 by done. cbn -[count_if occ]. lia.
Qed.

(** C2. Duplicate letters: for a guess and a secret of length 5 and any
    letter [c], the positions [check_guess] marks ['correct'] or ['present']
    for [c] are never more than the occurrences of [c] in the secret; they
    are as many as the guess allows within that bound, and the occurrences
    of [c] in the guess beyond it are the ones marked ['absent']. *)
Theorem positive_marks_bounded (guess secret : string) (c : ascii) :
  len guess = WORD_LENGTH → len secret = WORD_LENGTH →
  ∃ visual is_correct fb,
    check_guess guess secret = Returned (visual, is_correct, Some <$> fb) ∧
    positive_count c fb ≤ occ c (chars secret) ∧
    positive_count c fb = occ c (chars guess) `min` occ c (chars secret) ∧
    absent_count c fb = occ c (chars guess) - occ c (chars secret).
Proof.
  intros Hg Hs.
  destruct (check_guess_returns guess secret Hg Hs) as (vis & fb & Hcg & Hfb).
  exists vis, (bool_decide (guess = secret)), fb. split; [done|].
  pose proof (ff_bound _ _ _ Hfb c) as Hb.
  pose proof (positive_absent_split c fb) as Hsplit.
  rewrite (feedback_for_letters _ _ _ Hfb) in Hsplit.
  destruct (absent_count c fb) as [|a] eqn:Ea.
  - split_and!; lia.
  - assert (0 < absent_count c fb) as Habs by lia.
    apply absent_count_positive in Habs as (i & j & Hi).
    pose proof (ff_exact _ _ _ Hfb i c j Hi) as Hex. split_and!; lia.
Qed.

Lemma positive_marks_bounded_witness :
  len "sassy" = WORD_LENGTH ∧ len "glass" = WORD_LENGTH ∧
  ∃ visual is_correct fb,
    check_guess "sassy" "glass" = Returned (visual, is_correct, Some <$> fb) ∧
    positive_count "s" fb ≤ occ "s" (chars "glass") ∧
    positive_count "s" fb = occ "s" (chars "sassy") `min` occ "s" (chars "glass") ∧
    absent_count "s" fb = occ "s" (chars "sassy") - occ "s" (chars "glass").
Proof.
  split; [reflexivity|]. split; [reflexivity|].
  apply (positive_marks_bounded "sassy" "glass" "s"); reflexivity.
Defined.

(** *** C3 *)

(** C3. Exact counts: in a reachable solver object, let [(guess, fb)] be a
    recorded pair (shaped as [check_guess] shapes it) in which letter [c] has
    [k >= 1] occurrences marked ['correct'] or ['present'] and at least one
    marked ['absent']; then every word that [_is_consistent] accepts contains
    [c] exactly [k] times. *)
Theorem exact_count_enforced (self : TermoSolverCSP) (n : nat) (guess : string)
    (fb : feedback) (c : ascii) (k : nat) (word : string) :
  reachable self →
  guesses_history self !! n = Some guess →
  feedback_history self !! n = Some fb →
  shaped (word_length self) guess fb →
  positive_count c fb = k → 0 < k → 0 < absent_count c fb →
  _is_consistent self word = Returned true →
  occ c (chars word) = k.
Proof.
  intros Hreach Hg Hf Hsh Hk Hpos Habs [Htab Hhist]%is_consistent_true.
  destruct (reachable_coupled self Hreach) as (_ & _ & Hcov).
  destruct (Hcov fb c) as (m & Hm & Hle); [by eapply list_elem_of_lookup_2|lia|].
  pose proof (ta_min _ _ Htab c m Hm) as Hmin. rewrite min_violation_false in Hmin.
  assert (c ∈ chars word) as Hin by (apply occ_positive; lia).
  assert ((guess, fb) ∈ history_of self) as Hpair.
  { unfold history_of. by eapply (elem_of_lookup_zip_with_2 pair _ _ guess fb). }
  pose proof (history_consistent_elem _ _ _ _ _ Hhist Hpair Hsh) as Hok.
  rewrite <- Hk. apply Hok; [|done|done].
  destruct Hsh as (_ & _ & <-). apply absent_count_positive in Habs as (i & j & Hi).
  apply list_elem_of_lookup. exists i. by rewrite list_lookup_fmap, Hi.
Qed.

Lemma exact_count_enforced_witness :
  reachable after_sassy ∧
  guesses_history after_sassy !! 0 = Some "sassy" ∧
  feedback_history after_sassy !! 0 = Some sassy_glass ∧
  shaped (word_length after_sassy) "sassy" sassy_glass ∧
  positive_count "s" sassy_glass = 2 ∧ 0 < 2 ∧ 0 < absent_count "s" sassy_glass ∧
  _is_consistent after_sassy "glass" = Returned true ∧
  occ "s" (chars "glass") = 2.
Proof.
  assert (reachable after_sassy) as Hreach.
  { apply reachable_add_feedback, reachable_init. }
  assert (guesses_history after_sassy !! 0 = Some "sassy") as Hg by (vm_compute; reflexivity).
  assert (feedback_history after_sassy !! 0 = Some sassy_glass) as Hf
    by (vm_compute; reflexivity).
  assert (shaped (word_length after_sassy) "sassy" sassy_glass) as Hsh
    by (split_and!; vm_compute; reflexivity).
  assert (positive_count "s" sassy_glass = 2) as Hk by (vm_compute; reflexivity).
  assert (0 < 2) as Hpos by lia.
  assert (0 < absent_count "s" sassy_glass) as Habs by (vm_compute; lia).
  assert (_is_consistent after_sassy "glass" = Returned true) as Hc
    by (vm_compute; reflexivity).
  do 8 (split; [assumption|]).
  exact (exact_count_enforced after_sassy 0 "sassy" sassy_glass "s" 2 "glass"
           Hreach Hg Hf Hsh Hk Hpos Habs Hc).
Defined.

(** *** Updates with any feedback

    What an update keeps when the feedback is arbitrary; the statement for
    the feedback of a session is [only_grows] below. *)

(** With a feedback computed against a secret that the tables accept, no
    ['correct'] tuple meets a letter barred from its position, so the update
    discards nothing. *)
Lemma truthful_update_keeps_yellow (self : TermoSolverCSP) (guess secret : string)
    (fb : feedback) (i : nat) (c : ascii) :
  feedback_for guess secret fb → tables_accept self secret →
  yellow_at (yellow_letters self) i c →
  yellow_at (yellow_letters (updated self guess fb)) i c.
Proof.
  intros Hfb Htab Hy.
  destruct (update_yellow_fwd (record_history self guess fb) guess fb i c Hy)
    as [?|Hin]; [done|exfalso].
  destruct (feedback_for_elem _ _ _ _ _ _ Hfb Hin) as [_ Hiff].
  destruct Hy as (X & HX & Hc).
  pose proof (ta_yellow _ _ Htab i X HX) as Hno. rewrite yellow_violation_false in Hno.
  apply (Hno c); [by apply Hiff|done].
Qed.

(** Across a call of [add_feedback] with any feedback at all (however the
    call ends): a green position stays green, and keeps its letter unless the
    feedback marks another letter ['correct'] there; a letter barred from a
    position by [yellow_letters] stays barred unless the feedback marks it
    ['correct'] at that position; the gray letters and both histories only
    grow; every recorded minimum count stays recorded and never decreases. *)
Lemma constraints_grow_but_for_correct (self : TermoSolverCSP) (guess : string)
    (fb : feedback) :
  let self' := (add_feedback self guess fb).1 in
  (∀ i c, green_letters self !! i = Some c →
          ∃ c', green_letters self' !! i = Some c' ∧ (c' = c ∨ (c', correct, i) ∈ fb)) ∧
  (∀ i c, yellow_at (yellow_letters self) i c →
          yellow_at (yellow_letters self') i c ∨ (c, correct, i) ∈ fb) ∧
  gray_letters self ⊆ gray_letters self' ∧
  guesses_history self `prefix_of` guesses_history self' ∧
  feedback_history self `prefix_of` feedback_history self' ∧
  (∀ c, is_Some (min_letter_counts self !! c) → is_Some (min_letter_counts self' !! c)) ∧
  (∀ c, (dict_get (min_letter_counts self) c 0 ≤ dict_get (min_letter_counts self') c 0)%Z).
Proof.
  intros self'.
  assert (green_letters self' = green_letters (updated self guess fb) ∧
          yellow_letters self' = yellow_letters (updated self guess fb) ∧
          gray_letters self' = gray_letters (updated self guess fb) ∧
          guesses_history self' = guesses_history self ++ [guess] ∧
          feedback_history self' = feedback_history self ++ [fb] ∧
          min_letter_counts self' = min_letter_counts (updated self guess fb))
    as (-> & -> & -> & -> & -> & ->).
  { subst self'. unfold add_feedback. fold (updated self guess fb).
    by destruct (set_comprehension _ _). }
  unfold updated. split_and!.
  - intros i c Hi. by apply (update_green_fwd (record_history self guess fb)).
  - intros i c Hi. by apply (update_yellow_fwd (record_history self guess fb)).
  - intros c Hc. apply update_gray. by left.
  - by apply prefix_app_r.
  - by apply prefix_app_r.
  - intros c Hc. by apply (update_min_dom (record_history self guess fb)).
  - intros c. apply (update_min_mono (record_history self guess fb)).
Qed.

(** The two exceptions need feedback that no single secret produces: here
    the object is handed the feedback of ["acelo"] against ["bravo"] and then
    against ["amigo"], and line 138 discards the ['a'] barred from position
    0.  In a session against one secret this does not happen. *)
Lemma yellow_letter_discarded :
  check_guess "acelo" "bravo"
    = Returned (String.concat " "
                  [LETTER_WRONG_POS_FORMAT "A"; LETTER_ABSENT_FORMAT "C";
                   LETTER_ABSENT_FORMAT "E"; LETTER_ABSENT_FORMAT "L";
                   LETTER_CORRECT_POS_FORMAT "O"],
                false, Some <$> acelo_bravo) ∧
  check_guess "acelo" "amigo"
    = Returned (String.concat " "
                  [LETTER_CORRECT_POS_FORMAT "A"; LETTER_ABSENT_FORMAT "C";
                   LETTER_ABSENT_FORMAT "E"; LETTER_ABSENT_FORMAT "L";
                   LETTER_CORRECT_POS_FORMAT "O"],
                false, Some <$> acelo_amigo) ∧
  yellow_at (yellow_letters after_bravo) 0 "a" ∧
  ¬ yellow_at (yellow_letters (add_feedback after_bravo "acelo" acelo_amigo).1) 0 "a".
Proof.
  split_and!.
  - vm_compute. reflexivity.
  - vm_compute. reflexivity.
  - by_evaluation.
  - by_evaluation.
Qed.

(** *** C5 *)

(** C5, as the code has it.  Length mismatch: when the guess or the secret
    is not of length 5, [check_guess] raises nothing; it returns to its
    caller the tuple [("Internal error: Invalid length", False, [])], which
    no call on two words of length 5 returns.  Nothing is truncated or
    padded: the structured feedback of that result is empty.  The caller does
    not test for it: lines 319-321 pass the empty list to [add_feedback] as
    the feedback of the guess, and [add_feedback] appends the guess and the
    empty list to the two histories. *)
Theorem length_mismatch_reported (self : TermoSolverCSP) (guess secret : string) :
  len guess ≠ WORD_LENGTH ∨ len secret ≠ WORD_LENGTH →
  check_guess guess secret = Returned ("Internal error: Invalid length", false, []) ∧
  (∀ g s, len g = WORD_LENGTH → len s = WORD_LENGTH →
          check_guess g s ≠ Returned ("Internal error: Invalid length", false, [])) ∧
  attempt self guess secret
  = match add_feedback self guess [] with
    | (self', None) => Returned self'
    | (_, Some e) => Raised e
    end ∧
  guesses_history (add_feedback self guess []).1 = guesses_history self ++ [guess] ∧
  feedback_history (add_feedback self guess []).1 = feedback_history self ++ [[]].
Proof.
  intros Hbad.
  assert (check_guess guess secret
          = Returned ("Internal error: Invalid length", false, [])) as Hcg.
  { unfold check_guess.
    assert (negb (len guess =? WORD_LENGTH) || negb (len secret =? WORD_LENGTH) = true)
      as ->; [|done].
    apply orb_true_iff. rewrite !negb_true_iff, !Nat.eqb_neq. done. }
  split_and!.
  - exact Hcg.
  - intros g s Hg Hs Heq.
    destruct (check_guess_returns g s Hg Hs) as (vis & fb & Hret & Hfb).
    rewrite Hret in Heq. simplify_eq. destruct fb; [|done].
    pose proof (ff_length _ _ _ Hfb) as Hlen. rewrite <- len_chars, Hg in Hlen. done.
  - unfold attempt. rewrite Hcg. done.
  - unfold add_feedback. by destruct (set_comprehension _ _).
  - unfold add_feedback. by destruct (set_comprehension _ _).
Qed.

Lemma length_mismatch_reported_witness :
  (len "abc" ≠ WORD_LENGTH ∨ len "carro" ≠ WORD_LENGTH) ∧
  check_guess "abc" "carro" = Returned ("Internal error: Invalid length", false, []) ∧
  (∀ g s, len g = WORD_LENGTH → len s = WORD_LENGTH →
          check_guess g s ≠ Returned ("Internal error: Invalid length", false, [])) ∧
  attempt (init small_corpus WORD_LENGTH) "abc" "carro"
  = match add_feedback (init small_corpus WORD_LENGTH) "abc" [] with
    | (self', None) => Returned self'
    | (_, Some e) => Raised e
    end ∧
  guesses_history (add_feedback (init small_corpus WORD_LENGTH) "abc" []).1
  = guesses_history (init small_corpus WORD_LENGTH) ++ ["abc"] ∧
  feedback_history (add_feedback (init small_corpus WORD_LENGTH) "abc" []).1
  = feedback_history (init small_corpus WORD_LENGTH) ++ [[]].
Proof.
  assert (len "abc" ≠ WORD_LENGTH ∨ len "carro" ≠ WORD_LENGTH) as Hbad.
  { left. vm_compute. lia. }
  split; [exact Hbad|].
  exact (length_mismatch_reported (init small_corpus WORD_LENGTH) "abc" "carro" Hbad).
Defined.

(** The claim as the spec words it fails: on a guess of length 3
    [check_guess] raises no error; it returns normally, and the empty list
    it returns is recorded by [add_feedback] as the feedback of the guess. *)
Lemma length_mismatch_not_raised :
  len "abc" ≠ WORD_LENGTH ∧
  check_guess "abc" "carro" = Returned ("Internal error: Invalid length", false, []) ∧
  ¬ (∃ e, check_guess "abc" "carro" = Raised e) ∧
  feedback_history (add_feedback (init small_corpus WORD_LENGTH) "abc" []).1 = [[]].
Proof.
  split_and!.
  - vm_compute. lia.
  - vm_compute. reflexivity.
  - intros [e He]. vm_compute in He. discriminate He.
  - vm_compute. reflexivity.
Qed.

(** *** C6 *)

(** C6. Monotonic shrink: after any call of [add_feedback], [possible_words]
    is a subset of what it was, so it has at most as many elements. *)
Theorem candidates_only_shrink (self : TermoSolverCSP) (guess : string) (fb : feedback) :
  possible_words (add_feedback self guess fb).1 ⊆ possible_words self ∧
  size (possible_words (add_feedback self guess fb).1) ≤ size (possible_words self).
Proof.
  assert (possible_words (add_feedback self guess fb).1 ⊆ possible_words self) as Hsub.
  { intros w. apply add_feedback_possible_words. }
  split; [done|]. by apply subseteq_size.
Qed.

(** *** C7 *)



(** *** C8 and C9 *)

Lemma random_choice_elements (entropy : nat) (X : gset string) :
  X ≠ ∅ → ∃ w, random_choice entropy (elements X) = Returned w ∧ w ∈ X.
Proof.
  intros Hne. destruct (elements X) as [|x l] eqn:E.
  { by apply elements_empty_inv, leibniz_equiv in E. }
  rewrite <- E. assert (0 < length (elements X)) as Hlen by (rewrite E; simpl; lia).
  destruct (lookup_lt_is_Some_2 (elements X) (entropy mod length (elements X)))
    as [w Hw].
  { apply Nat.mod_upper_bound. lia. }
  exists w. split.
  - unfold random_choice. rewrite E. rewrite <- E. unfold list_index. by rewrite Hw.
  - apply elem_of_elements. by eapply list_elem_of_lookup_2.
Qed.

Section Selector.
Variables (OPTIMAL FEASIBLE : Z) (cp_solve : nat → list (list Z) → Z * list Z).

Local Abbreviation next_guess := (get_next_guess OPTIMAL FEASIBLE cp_solve).

(** The anomaly line is printed on the empty-candidates path only. *)
Lemma anomaly_only_when_empty (entropy : nat) (self : TermoSolverCSP) (k : Z) :
  no_candidates_message ∈ (next_guess entropy self k).1 →
  possible_words self = ∅ ∧ k ≠ 0%Z ∧ k ≠ 1%Z.
Proof.
  unfold get_next_guess.
  destruct (decide (k = 0%Z)); [by intros ?%elem_of_nil|].
  destruct (decide (k = 1%Z)); [by intros ?%elem_of_nil|].
  destruct (decide (possible_words self = ∅)); [done|].
  destruct (decide (size (possible_words self) = 1)); [by intros ?%elem_of_nil|].
  cbv zeta. destruct (decide (_ = [])).
  { intros Heq%list_elem_of_singleton. discriminate Heq. }
  destruct (cp_solve _ _) as [st sol]. destruct (decide (st = OPTIMAL ∨ st = FEASIBLE)).
  - destruct (for_list _ sol); [|by intros ?%elem_of_nil].
    intros Heq%list_elem_of_singleton. discriminate Heq.
  - intros Heq%list_elem_of_singleton. discriminate Heq.
Qed.

(** C8. Empty candidate set: from the third attempt on, when
    [possible_words] is empty (and the corpus is not), [get_next_guess]
    prints the line ["Error: No possible words remaining! Check secret
    word."] and returns a word of [all_valid_words]; no call in which
    [possible_words] is non-empty, and no opening call, prints that line. *)
Theorem empty_candidates_reported (entropy : nat) (self : TermoSolverCSP) (k : Z) :
  (2 ≤ k)%Z → possible_words self = ∅ → all_valid_words self ≠ ∅ →
  (∃ w, next_guess entropy self k = ([no_candidates_message], Returned w) ∧
        w ∈ all_valid_words self) ∧
  (∀ entropy' self' k',
     no_candidates_message ∈ (next_guess entropy' self' k').1 →
     possible_words self' = ∅ ∧ k' ≠ 0%Z ∧ k' ≠ 1%Z).
Proof.
  intros Hk Hempty Hcorpus. split; [|apply anomaly_only_when_empty].
  destruct (random_choice_elements entropy (all_valid_words self) Hcorpus)
    as (w & Hw & Hin).
  exists w. split; [|done]. unfold get_next_guess.
  rewrite !decide_False by lia. rewrite decide_True by done. by rewrite Hw.
Qed.

(** C9. Openings: whatever the solver object holds, [get_next_guess(0)]
    returns ["acelo"] and [get_next_guess(1)] returns ["sumir"], and
    neither prints anything. *)
Theorem openings_fixed (entropy : nat) (self : TermoSolverCSP) :
  next_guess entropy self 0 = ([], Returned "acelo") ∧
  next_guess entropy self 1 = ([], Returned "sumir").
Proof. done. Qed.
End Selector.

Lemma empty_candidates_reported_witness :
  (2 ≤ 2)%Z ∧ possible_words out_of_candidates = ∅ ∧
  all_valid_words out_of_candidates ≠ ∅ ∧
  (∃ w, get_next_guess 4 2 (λ _ _, (0%Z, [])) 0 out_of_candidates 2
        = ([no_candidates_message], Returned w) ∧
        w ∈ all_valid_words out_of_candidates) ∧
  (∀ entropy' self' k',
     no_candidates_message ∈ (get_next_guess 4 2 (λ _ _, (0%Z, [])) entropy' self' k').1 →
     possible_words self' = ∅ ∧ k' ≠ 0%Z ∧ k' ≠ 1%Z).
Proof.
  assert (2 ≤ 2)%Z as Hk by lia.
  assert (possible_words out_of_candidates = ∅) as He by reflexivity.
  assert (all_valid_words out_of_candidates ≠ ∅) as Hc by by_evaluation.
  do 3 (split; [assumption|]).
  exact (empty_candidates_reported 4 2 (λ _ _, (0%Z, [])) 0 out_of_candidates 2 Hk He Hc).
Defined.

(** *** C10 *)

(** C10. Shape of the feedback: for a guess and a secret of length 5,
    [check_guess] returns; its structured feedback has exactly 5 slots, none
    of them unfilled, and slot [i] is the tuple [(guess[i], status, i)] with
    [status] one of ['correct'], ['present'], ['absent']. *)
Theorem feedback_well_shaped (guess secret : string) :
  len guess = WORD_LENGTH → len secret = WORD_LENGTH →
  ∃ visual is_correct (fb : feedback),
    check_guess guess secret = Returned (visual, is_correct, Some <$> fb) ∧
    length fb = 5 ∧
    ∀ i, i < 5 → ∃ c st, str_index guess i = Returned c ∧
                         (Some <$> fb) !! i = Some (Some (c, st, i)) ∧
                         (st = correct ∨ st = present ∨ st = absent).
Proof.
  intros Hg Hs.
  destruct (check_guess_returns guess secret Hg Hs) as (vis & fb & Hcg & Hfb).
  exists vis, (bool_decide (guess = secret)), fb. split; [done|].
  pose proof (ff_length _ _ _ Hfb) as Hlen. rewrite <- len_chars, Hg in Hlen.
  split; [done|]. intros i Hi.
  destruct (lookup_lt_is_Some_2 fb i) as [[[c st] j] He]; [unfold WORD_LENGTH in *; lia|].
  destruct (ff_entry _ _ _ Hfb i c st j He) as [Hc ->].
  exists c, st. split_and!; [by apply str_index_Some| |by destruct st; auto].
  by rewrite list_lookup_fmap, He.
Qed.

Lemma feedback_well_shaped_witness :
  len "roraz" = WORD_LENGTH ∧ len "carro" = WORD_LENGTH ∧
  ∃ visual is_correct (fb : feedback),
    check_guess "roraz" "carro" = Returned (visual, is_correct, Some <$> fb) ∧
    length fb = 5 ∧
    ∀ i, i < 5 → ∃ c st, str_index "roraz" i = Returned c ∧
                         (Some <$> fb) !! i = Some (Some (c, st, i)) ∧
                         (st = correct ∨ st = present ∨ st = absent).
Proof.
  split; [reflexivity|]. split; [reflexivity|].
  apply (feedback_well_shaped "roraz" "carro"); reflexivity.
Defined.

(** * Further properties of the code *)

(** ** [check_guess]: what each mark means *)

Lemma chars_inj (v w : string) : chars v = chars w → v = w.
Proof.
  intros H. rewrite <- (string_of_list_ascii_of_string v),
    <- (string_of_list_ascii_of_string w). unfold chars in H. by rewrite H.
Qed.

(** The structured feedback of a returned result, read back as tuples. *)
Lemma check_guess_feedback_for (guess secret visual : string) (ok : bool) (fb : feedback) :
  len guess = WORD_LENGTH → len secret = WORD_LENGTH →
  check_guess guess secret = Returned (visual, ok, Some <$> fb) →
  ok = bool_decide (guess = secret) ∧ feedback_for guess secret fb.
Proof.
  intros Hg Hs Hcg.
  destruct (check_guess_returns guess secret Hg Hs) as (vis & fb0 & Hcg0 & Hfb).
  rewrite Hcg0 in Hcg. injection Hcg as -> -> Hsf.
  apply (inj (fmap Some)) in Hsf. by subst.
Qed.

(** X1. [is_correct] is [True] exactly when guess and secret are the same
    word, and that is exactly when every position is marked ['correct']. *)
Theorem is_correct_iff_all_correct (guess secret visual : string) (ok : bool)
    (fb : feedback) :
  len guess = WORD_LENGTH → len secret = WORD_LENGTH →
  check_guess guess secret = Returned (visual, ok, Some <$> fb) →
  (ok = true ↔ guess = secret) ∧
  (guess = secret ↔ ∀ e, e ∈ fb → e_status e = correct).
Proof.
  intros Hg Hs Hcg.
  destruct (check_guess_feedback_for _ _ _ _ _ Hg Hs Hcg) as [-> Hfb].
  split; [apply bool_decide_eq_true|]. split.
  - intros <- [[c st] j] [i Hi]%list_elem_of_lookup. cbn.
    apply (ff_correct _ _ _ Hfb i c st j Hi). by apply (ff_entry _ _ _ Hfb i c st j).
  - intros Hall. apply chars_inj.
    apply list_eq_same_length with (length (chars guess)); [|done|].
    { rewrite <- !len_chars. congruence. }
    intros i x y Hi Hx Hy.
    destruct (lookup_lt_is_Some_2 fb i) as [[[c st] j] He].
    { by rewrite (ff_length _ _ _ Hfb). }
    destruct (ff_entry _ _ _ Hfb i c st j He) as [Hc ->].
    assert (st = correct) as ->.
    { apply (Hall (c, st, i)). by eapply list_elem_of_lookup_2. }
    pose proof (proj1 (ff_correct _ _ _ Hfb i c correct i He) eq_refl). congruence.
Qed.

Lemma is_correct_iff_all_correct_witness :
  len "carro" = WORD_LENGTH ∧ len "carro" = WORD_LENGTH ∧
  ∃ visual fb,
    check_guess "carro" "carro" = Returned (visual, true, Some <$> fb) ∧
    (true = true ↔ "carro" = "carro") ∧
    ("carro" = "carro" ↔ ∀ e, e ∈ fb → e_status e = correct).
Proof.
  split; [reflexivity|]. split; [reflexivity|].
  eexists _, [("c"%char, correct, 0); ("a"%char, correct, 1); ("r"%char, correct, 2);
              ("r"%char, correct, 3); ("o"%char, correct, 4)].
  assert (check_guess "carro" "carro"
          = Returned (String.concat " "
                        [LETTER_CORRECT_POS_FORMAT "C"; LETTER_CORRECT_POS_FORMAT "A";
                         LETTER_CORRECT_POS_FORMAT "R"; LETTER_CORRECT_POS_FORMAT "R";
                         LETTER_CORRECT_POS_FORMAT "O"], true,
                      Some <$> [("c"%char, correct, 0); ("a"%char, correct, 1);
                                ("r"%char, correct, 2); ("r"%char, correct, 3);
                                ("o"%char, correct, 4)])) as Hcg
    by (vm_compute; reflexivity).
  split; [exact Hcg|].
  exact (is_correct_iff_all_correct "carro" "carro" _ true _ eq_refl eq_refl Hcg).
Defined.

(** X2. Position by position: a position is ['correct'] exactly when the
    secret holds the guessed letter there; a ['present'] letter occurs in the
    secret, but not at that position; a letter that does not occur in the
    secret is always ['absent']. *)
Theorem marks_by_position (guess secret visual : string) (ok : bool) (fb : feedback)
    (i : nat) (c : ascii) (st : status) (j : nat) :
  len guess = WORD_LENGTH → len secret = WORD_LENGTH →
  check_guess guess secret = Returned (visual, ok, Some <$> fb) →
  fb !! i = Some (c, st, j) →
  String.get i guess = Some c ∧
  (st = correct ↔ String.get i secret = Some c) ∧
  (st = present → c ∈ chars secret ∧ String.get i secret ≠ Some c) ∧
  (c ∉ chars secret → st = absent).
Proof.
  intros Hg Hs Hcg Hi.
  destruct (check_guess_feedback_for _ _ _ _ _ Hg Hs Hcg) as [_ Hfb].
  destruct (ff_entry _ _ _ Hfb i c st j Hi) as [Hc ->].
  pose proof (ff_correct _ _ _ Hfb i c st i Hi) as Hcor.
  pose proof (ff_bound _ _ _ Hfb c) as Hb.
  assert (is_positive st = true → c ∈ chars secret) as Hin.
  { intros Hp. apply occ_positive.
    assert (0 < positive_count c fb); [|lia].
    apply positive_count_positive. eauto. }
  rewrite !get_chars. split_and!; [done|done|..].
  - intros ->. split; [by apply Hin|]. intros Hs'. by apply Hcor in Hs'.
  - intros Hn. destruct st; [|by destruct Hn; apply Hin|done].
    by destruct Hn; apply Hin.
Qed.

Lemma marks_by_position_witness :
  len "sassy" = WORD_LENGTH ∧ len "glass" = WORD_LENGTH ∧
  check_guess "sassy" "glass"
    = Returned (String.concat " "
                  [LETTER_WRONG_POS_FORMAT "S"; LETTER_WRONG_POS_FORMAT "A";
                   LETTER_ABSENT_FORMAT "S"; LETTER_CORRECT_POS_FORMAT "S";
                   LETTER_ABSENT_FORMAT "Y"], false, Some <$> sassy_glass) ∧
  sassy_glass !! 0 = Some ("s"%char, present, 0) ∧
  String.get 0 "sassy" = Some "s"%char ∧
  (present = correct ↔ String.get 0 "glass" = Some "s"%char) ∧
  (present = present → "s"%char ∈ chars "glass" ∧ String.get 0 "glass" ≠ Some "s"%char) ∧
  ("s"%char ∉ chars "glass" → present = absent).
Proof.
  assert (check_guess "sassy" "glass"
    = Returned (String.concat " "
                  [LETTER_WRONG_POS_FORMAT "S"; LETTER_WRONG_POS_FORMAT "A";
                   LETTER_ABSENT_FORMAT "S"; LETTER_CORRECT_POS_FORMAT "S";
                   LETTER_ABSENT_FORMAT "Y"], false, Some <$> sassy_glass)) as Hcg
    by (vm_compute; reflexivity).
  split; [reflexivity|]. split; [reflexivity|]. split; [exact Hcg|].
  split; [reflexivity|].
  exact (marks_by_position "sassy" "glass" _ false sassy_glass 0 "s" present 0
           eq_refl eq_refl Hcg eq_refl).
Defined.

(** ** [check_guess]: the visual feedback *)

Lemma for_each_preserves {A St : Type} (P : St → Prop) (body : St → A → outcome St) :
  (∀ s x s', P s → body s x = Returned s' → P s') →
  ∀ xs s s', P s → for_each xs body s = Returned s' → P s'.
Proof.
  intros Hbody. induction xs as [|x xs IH]; intros s s' Hs Hrun.
  - cbn in Hrun. by simplify_eq.
  - cbn [for_each] in Hrun. destruct (body s x) as [s1|e] eqn:E; [|done].
    cbn in Hrun. eapply IH; [|exact Hrun]. by eapply Hbody.
Qed.

(** The coloured letter shown for one tuple. *)
Definition visual_of (e : entry) : string :=
  match e_status e with
  | correct => LETTER_CORRECT_POS_FORMAT (upper (e_letter e))
  | present => LETTER_WRONG_POS_FORMAT (upper (e_letter e))
  | absent => LETTER_ABSENT_FORMAT (upper (e_letter e))
  end.

Definition slot_visual (o : option entry) : string :=
  match o with Some e => visual_of e | None => "" end.

Lemma list_assign_returned {A} (l l' : list A) (i : nat) (x : A) :
  list_assign l i x = Returned l' → l' = <[i:=x]> l.
Proof. unfold list_assign. case_decide; congruence. Qed.

Lemma visual_assign (vf vf' : list string) (sf sf' : list (option entry)) (i : nat)
    (e : entry) :
  vf = slot_visual <$> sf →
  list_assign vf i (visual_of e) = Returned vf' →
  list_assign sf i (Some e) = Returned sf' →
  vf' = slot_visual <$> sf'.
Proof.
  intros -> ->%list_assign_returned ->%list_assign_returned.
  by rewrite list_fmap_insert.
Qed.

Ltac bind_cases H :=
  repeat match type of H with
         | context [mbind _ ?m] =>
             let E := fresh "E" in destruct m eqn:E; cbn in H; [|discriminate H]
         end.

Ltac visual_step :=
  match goal with
  | Hv : list_assign _ ?i _ = Returned ?vf',
    Hs : list_assign _ ?i (Some ?e) = Returned ?sf' |- ?vf' = slot_visual <$> ?sf' =>
      exact (visual_assign _ _ _ _ i e eq_refl Hv Hs)
  end.

Ltac ret_inv H := cbv [mret outcome_ret] in H; simplify_eq/=.

Lemma all_correct_visual (guess : string) (s : list string * list (option entry))
    (i : nat) (s' : list string * list (option entry)) :
  s.1 = slot_visual <$> s.2 → all_correct_body guess s i = Returned s' →
  s'.1 = slot_visual <$> s'.2.
Proof.
  destruct s as [vf sf]. cbn. intros Hv Hb. unfold all_correct_body in Hb.
  bind_cases Hb. ret_inv Hb.
  visual_step.
Qed.

Lemma pass1_visual (guess secret : string) (s : cg_state) (i : nat) (s' : cg_state) :
  s.1.1 = slot_visual <$> s.1.2 → pass1_body guess secret s i = Returned s' →
  s'.1.1 = slot_visual <$> s'.1.2.
Proof.
  destruct s as [[vf sf] cnt]. cbn. intros Hv Hb. unfold pass1_body in Hb.
  bind_cases Hb. case_decide; [|by ret_inv Hb].
  bind_cases Hb. ret_inv Hb.
  visual_step.
Qed.

Lemma pass2_visual (guess : string) (s : cg_state) (i : nat) (s' : cg_state) :
  s.1.1 = slot_visual <$> s.1.2 → pass2_body guess s i = Returned s' →
  s'.1.1 = slot_visual <$> s'.1.2.
Proof.
  destruct s as [[vf sf] cnt]. cbn. intros Hv Hb. unfold pass2_body in Hb.
  bind_cases Hb. case_decide; [|by ret_inv Hb].
  bind_cases Hb. destruct (dict_mem cnt _).
  - bind_cases Hb. case_decide.
    + bind_cases Hb. ret_inv Hb.
      visual_step.
    + bind_cases Hb. ret_inv Hb.
      visual_step.
  - bind_cases Hb. ret_inv Hb.
    visual_step.
Qed.

(** The visual slots are the renderings of the structured slots. *)
Lemma check_guess_slots (guess secret visual : string) (ok : bool)
    (sf : list (option entry)) :
  len guess = WORD_LENGTH → len secret = WORD_LENGTH →
  check_guess guess secret = Returned (visual, ok, sf) →
  visual = String.concat " " (slot_visual <$> sf).
Proof.
  intros Hg Hs Hcg. unfold check_guess in Hcg. rewrite Hg, Hs, Nat.eqb_refl in Hcg.
  cbn [negb orb] in Hcg.
  assert (replicate WORD_LENGTH "" = slot_visual <$> replicate WORD_LENGTH None) as H0.
  { by rewrite fmap_replicate. }
  destruct (bool_decide (guess = secret)).
  - destruct (for_each _ _ _) as [[vf sf']|] eqn:Hrun; [|done].
    cbv [mbind outcome_bind mret outcome_ret] in Hcg. injection Hcg as <- <- <-.
    f_equal.
    apply (for_each_preserves (λ s, s.1 = slot_visual <$> s.2) _
             (all_correct_visual guess) _
             (replicate WORD_LENGTH "", replicate WORD_LENGTH None) _ H0 Hrun).
  - destruct (for_each _ (pass1_body _ _) _) as [s1|] eqn:Hrun1; [|done].
    cbv [mbind outcome_bind] in Hcg.
    destruct (for_each _ (pass2_body _) _) as [[[vf sf'] cnt]|] eqn:Hrun2; [|done].
    cbv [mbind outcome_bind mret outcome_ret] in Hcg. injection Hcg as <- <- <-.
    f_equal.
    apply (for_each_preserves (λ s, s.1.1 = slot_visual <$> s.1.2) _
             (pass2_visual guess) _ s1 _
             (for_each_preserves (λ s, s.1.1 = slot_visual <$> s.1.2) _
                (pass1_visual guess secret) _
                (replicate WORD_LENGTH "", replicate WORD_LENGTH None,
                 letter_counts secret) _ H0 Hrun1) Hrun2).
Qed.

(** X3. For a guess whose characters all have codes below 128 (where
    [upper] is [str.upper]), the visual feedback agrees with the structured
    one: it is the five coloured letters, in order and separated by single
    spaces, each the upper-cased guessed letter in the colour of its
    status. *)
Theorem visual_matches_structured (guess secret visual : string) (ok : bool)
    (fb : feedback) :
  len guess = WORD_LENGTH → len secret = WORD_LENGTH →
  Forall (λ c, nat_of_ascii c < 128) (chars guess) →
  check_guess guess secret = Returned (visual, ok, Some <$> fb) →
  visual = String.concat " " (visual_of <$> fb).
Proof.
  intros Hg Hs _ Hcg. rewrite (check_guess_slots guess secret visual ok _ Hg Hs Hcg).
  f_equal. rewrite <- list_fmap_compose. done.
Qed.

Lemma visual_matches_structured_witness :
  len "roraz" = WORD_LENGTH ∧ len "carro" = WORD_LENGTH ∧
  Forall (λ c, nat_of_ascii c < 128) (chars "roraz") ∧
  ∃ visual fb,
    check_guess "roraz" "carro" = Returned (visual, false, Some <$> fb) ∧
    visual = String.concat " " (visual_of <$> fb).
Proof.
  assert (Forall (λ c, nat_of_ascii c < 128) (chars "roraz")) as Hascii by by_evaluation.
  split; [reflexivity|]. split; [reflexivity|]. split; [exact Hascii|].
  destruct (check_guess_returns "roraz" "carro" eq_refl eq_refl) as (vis & fb & Hcg & _).
  exists vis, fb. split; [exact Hcg|].
  exact (visual_matches_structured "roraz" "carro" vis _ fb eq_refl eq_refl Hascii Hcg).
Defined.

(** ** [check_guess]: which duplicates are marked *)

(** No ['present'] mark of a letter comes after an ['absent'] mark of it. *)
Definition absent_then_no_present (sf : list (option entry)) : Prop :=
  ∀ i j c, i < j → sf !! i = Some (Some (c, absent, i)) →
           sf !! j ≠ Some (Some (c, present, j)).

Lemma pass2_keeps_order (guess secret : string) (k : nat) (s s' : cg_state) :
  length (chars guess) = WORD_LENGTH → length (chars secret) = WORD_LENGTH →
  k < WORD_LENGTH → inv2 guess secret k s → absent_then_no_present s.1.2 →
  pass2_body guess s k = Returned s' → absent_then_no_present s'.1.2.
Proof.
  intros Hg Hs Hk. destruct s as [[vf sf] cnt].
  intros (Hvf & Hsf & Hslot & Hcnt & Hle & Habs) Hord Hb. cbn in Hord.
  assert (∀ sf' c, sf' = <[k := Some (c, absent, k)]> sf → absent_then_no_present sf')
    as Hmark_absent.
  { intros sf' c -> i j c0 Hij Hi Hj. destruct (decide (j = k)) as [->|Hjk].
    { by rewrite list_lookup_insert_eq in Hj by lia. }
    rewrite list_lookup_insert_ne in Hj by done.
    destruct (decide (i = k)) as [->|Hik].
    - pose proof (lookup_lt_Some _ _ _ Hj) as Hlt.
      destruct (guess_letter_at guess Hg j ltac:(lia)) as [cj Hcj].
      specialize (Hslot j cj Hcj). unfold slot2 in Hslot.
      case_decide; [destruct Hslot; congruence|].
      rewrite decide_False in Hslot by lia. destruct Hslot. congruence.
    - rewrite list_lookup_insert_ne in Hi by done. by apply (Hord i j c0). }
  unfold pass2_body in Hb. bind_cases Hb. case_decide; [|by ret_inv Hb].
  bind_cases Hb. destruct (dict_mem cnt _) eqn:Emem.
  - bind_cases Hb. case_decide as Hpos.
    + bind_cases Hb. ret_inv Hb.
      match goal with H : list_assign sf _ _ = _ |- _ =>
        apply list_assign_returned in H as -> end.
      intros i j c0 Hij Hi Hj. destruct (decide (j = k)) as [->|Hjk].
      * rewrite list_lookup_insert_eq in Hj by lia. simplify_eq.
        rewrite list_lookup_insert_ne in Hi by lia.
        pose proof (Habs i c0 i Hi) as Hfull. pose proof (Hcnt c0) as Hc0.
        unfold dict_index in *. destruct (cnt !! c0) as [n|] eqn:En; [|done].
        simplify_eq. case_decide; simplify_eq. lia.
      * rewrite list_lookup_insert_ne in Hj by done.
        destruct (decide (i = k)) as [->|Hik].
        { by rewrite list_lookup_insert_eq in Hi by lia. }
        rewrite list_lookup_insert_ne in Hi by done. by apply (Hord i j c0).
    + bind_cases Hb. ret_inv Hb.
      match goal with H : list_assign sf _ _ = _ |- _ =>
        apply list_assign_returned in H end.
      by eapply Hmark_absent.
  - bind_cases Hb. ret_inv Hb.
    match goal with H : list_assign sf _ _ = _ |- _ =>
      apply list_assign_returned in H end.
    by eapply Hmark_absent.
Qed.

(** X4. Repeated letters are served from the left: once an occurrence of a
    letter is marked ['absent'], no later occurrence of that letter is marked
    ['present'] (later occurrences are ['absent'], or ['correct'] where the
    secret holds the letter). *)
Theorem present_marks_leftmost (guess secret visual : string) (ok : bool)
    (fb : feedback) (i j : nat) (c : ascii) (st : status) :
  len guess = WORD_LENGTH → len secret = WORD_LENGTH →
  check_guess guess secret = Returned (visual, ok, Some <$> fb) →
  i < j → fb !! i = Some (c, absent, i) → fb !! j = Some (c, st, j) →
  st ≠ present.
Proof.
  intros Hg Hs Hcg Hij Hi Hj ->.
  assert (absent_then_no_present (Some <$> fb)) as Hord.
  { unfold check_guess in Hcg. rewrite Hg, Hs, Nat.eqb_refl in Hcg.
    cbn [negb orb] in Hcg. rewrite len_chars in Hg, Hs.
    destruct (bool_decide (guess = secret)) eqn:Heq.
    - apply bool_decide_eq_true in Heq. subst secret.
      destruct (check_guess_returns guess guess) as (vis & fb0 & Hcg0 & Hfb);
        [by rewrite len_chars..|].
      unfold check_guess in Hcg0. rewrite !len_chars, Hg, Nat.eqb_refl in Hcg0.
      cbn [negb orb] in Hcg0. rewrite bool_decide_eq_true_2 in Hcg0 by done.
      rewrite Hcg0 in Hcg. injection Hcg as _ _ Hsf. apply (inj (fmap Some)) in Hsf.
      subst fb0. intros i' j' c' _ Hi' _. rewrite list_lookup_fmap in Hi'.
      destruct (fb !! i') as [[[x st] n]|] eqn:E; simplify_eq/=.
      destruct (ff_entry _ _ _ Hfb i' c' absent i' E) as [Hc _].
      by pose proof (proj2 (ff_correct _ _ _ Hfb i' c' absent i' E) Hc).
    - destruct (for_each_range_inv (inv1 guess secret) (pass1_body guess secret)
                  WORD_LENGTH (replicate WORD_LENGTH "", replicate WORD_LENGTH None,
                               letter_counts secret))
        as (s1 & Hrun1 & Hinv1).
      { by apply inv1_init. }
      { intros n t Hn. by apply pass1_step. }
      rewrite Hrun1 in Hcg. cbv [mbind outcome_bind] in Hcg.
      pose proof (inv1_inv2 guess secret Hg Hs s1 Hinv1) as Hinv2.
      destruct (for_each_range_inv
                  (λ k s, inv2 guess secret k s ∧ absent_then_no_present s.1.2)
                  (pass2_body guess) WORD_LENGTH s1)
        as ([[vf sf] cnt] & Hrun2 & _ & Hfinal).
      { split; [done|]. destruct s1 as [[vf1 sf1] cnt1].
        destruct Hinv2 as (_ & Hsf1 & Hslot & _). intros i' j' c' _ Hi' _.
        pose proof (lookup_lt_Some _ _ _ Hi') as Hlt.
        destruct (guess_letter_at guess Hg i' ltac:(cbn in Hlt; lia)) as [ci Hci].
        specialize (Hslot i' ci Hci). unfold slot2 in Hslot. cbn in Hi'.
        case_decide; [destruct Hslot; congruence|].
        rewrite decide_False in Hslot by lia. destruct Hslot. congruence. }
      { intros n t Hn [Hinv Hord].
        destruct (pass2_step guess secret Hg Hs n t Hn Hinv) as (t' & Hb & Hinv').
        exists t'. split; [done|]. split; [done|].
        by eapply (pass2_keeps_order guess secret n t t'). }
      rewrite Hrun2 in Hcg. cbv [mret outcome_ret] in Hcg. injection Hcg as _ _ <-.
      exact Hfinal. }
  apply (Hord i j c Hij); by rewrite list_lookup_fmap, ?Hi, ?Hj.
Qed.

Lemma present_marks_leftmost_witness :
  len "sassy" = WORD_LENGTH ∧ len "glass" = WORD_LENGTH ∧
  check_guess "sassy" "glass"
    = Returned (String.concat " " (visual_of <$> sassy_glass), false,
                Some <$> sassy_glass) ∧
  2 < 3 ∧ sassy_glass !! 2 = Some ("s"%char, absent, 2) ∧
  sassy_glass !! 3 = Some ("s"%char, correct, 3) ∧ correct ≠ present.
Proof.
  assert (check_guess "sassy" "glass"
    = Returned (String.concat " " (visual_of <$> sassy_glass), false,
                Some <$> sassy_glass)) as Hcg by (vm_compute; reflexivity).
  assert (2 < 3) as Hlt by lia.
  split; [reflexivity|]. split; [reflexivity|]. split; [exact Hcg|].
  split; [exact Hlt|]. split; [reflexivity|]. split; [reflexivity|].
  exact (present_marks_leftmost "sassy" "glass" _ false sassy_glass 2 3 "s" correct
           eq_refl eq_refl Hcg Hlt eq_refl eq_refl).
Defined.

(** ** [_update_constraints]: the tables after an update *)

(** The index carried by each tuple is its place in the list, as in every
    feedback [check_guess] builds. *)
Definition positional (fb : feedback) : Prop :=
  ∀ i e, fb !! i = Some e → e.2 = i.

Lemma uc_yellow_step_other (fb : feedback) (s : uc_state) (l : ascii) (st : status)
    (j i : nat) :
  j ≠ i → uc_yellow (uc_body fb s (l, st, j)) !! i = uc_yellow s !! i.
Proof.
  intros Hne. destruct st; cbn; [| |done].
  - destruct (uc_yellow s !! j); [|done]. by rewrite lookup_insert_ne.
  - rewrite lookup_insert_ne by done.
    destruct (uc_yellow s !! j); [done|]. by rewrite lookup_insert_ne.
Qed.

Lemma uc_yellow_step_same (fb : feedback) (s : uc_state) (l : ascii) (st : status)
    (i : nat) :
  uc_yellow (uc_body fb s (l, st, i)) !! i =
    match st with
    | correct => (λ letters, letters ∖ {[l]}) <$> (uc_yellow s !! i)
    | present => Some ({[l]} ∪ default ∅ (uc_yellow s !! i))
    | absent => uc_yellow s !! i
    end.
Proof.
  destruct st; cbn; [| |done].
  - destruct (uc_yellow s !! i) eqn:E; cbn; [|done]. by rewrite lookup_insert_eq.
  - rewrite lookup_insert_eq. destruct (uc_yellow s !! i) eqn:E; cbn.
    + by rewrite E.
    + by rewrite lookup_insert_eq.
Qed.

Lemma uc_fold_untouched (fb l : feedback) (s : uc_state) (i : nat) :
  (∀ e, e ∈ l → e.2 ≠ i) →
  uc_green (fold_left (uc_body fb) l s) !! i = uc_green s !! i ∧
  uc_yellow (fold_left (uc_body fb) l s) !! i = uc_yellow s !! i.
Proof.
  revert s. induction l as [|[[x st] j] l IH]; intros s Hl; [done|].
  cbn [fold_left]. destruct (IH (uc_body fb s (x, st, j))) as [-> ->].
  { intros e He. apply Hl. by apply list_elem_of_further. }
  assert (j ≠ i) as Hne by (apply (Hl (x, st, j)), list_elem_of_here).
  rewrite uc_green_step, uc_yellow_step_other by done.
  rewrite decide_False; [done|]. by intros [_ ?].
Qed.

Lemma uc_fold_at (fb l : feedback) (s : uc_state) (i : nat) :
  positional l →
  uc_green (fold_left (uc_body fb) l s) !! i =
    match l !! i with
    | Some (c, correct, _) => Some c
    | _ => uc_green s !! i
    end ∧
  uc_yellow (fold_left (uc_body fb) l s) !! i =
    match l !! i with
    | Some (c, correct, _) => (λ letters, letters ∖ {[c]}) <$> (uc_yellow s !! i)
    | Some (c, present, _) => Some ({[c]} ∪ default ∅ (uc_yellow s !! i))
    | _ => uc_yellow s !! i
    end.
Proof.
  intros Hpos.
  assert (∀ l' : feedback, (∀ e, e ∈ l' → ∃ n, n ≠ i ∧ l !! n = Some e) →
                           ∀ e, e ∈ l' → e.2 ≠ i) as Hother.
  { intros l' Hl' e He. destruct (Hl' e He) as (n & Hn & Hlook).
    by rewrite (Hpos n e Hlook). }
  destruct (l !! i) as [[[c st] j]|] eqn:E.
  - pose proof (Hpos i _ E) as Hj. cbn in Hj. subst j.
    rewrite <- (take_drop_middle l i _ E), fold_left_app. cbn [fold_left].
    destruct (uc_fold_untouched fb (drop (S i) l)
                (uc_body fb (fold_left (uc_body fb) (take i l) s) (c, st, i)) i)
      as [-> ->].
    { apply Hother. intros e [n Hn]%list_elem_of_lookup. rewrite lookup_drop in Hn.
      exists (S i + n). split; [lia|done]. }
    destruct (uc_fold_untouched fb (take i l) s i) as [Hg Hy].
    { apply Hother. intros e [n Hn]%list_elem_of_lookup.
      apply lookup_take_Some in Hn as [Hn Hlt]. exists n. split; [lia|done]. }
    rewrite uc_green_step, uc_yellow_step_same, Hg, Hy.
    destruct st; [by rewrite decide_True|rewrite decide_False; [done|by intros [? _]]..].
  - apply uc_fold_untouched. apply Hother.
    intros e [n Hn]%list_elem_of_lookup. exists n. split; [congruence|done].
Qed.

(** X5. Green letters after an update with a positional feedback: a position
    marked ['correct'] holds the marked letter; every other position keeps
    what it held. *)
Theorem green_after_update (self : TermoSolverCSP) (guess : string) (fb : feedback)
    (i : nat) :
  positional fb →
  green_letters (_update_constraints self guess fb) !! i =
    match fb !! i with
    | Some (c, correct, _) => Some c
    | _ => green_letters self !! i
    end.
Proof. intros Hpos. by apply (uc_fold_at fb fb). Qed.

(** X6. Yellow exclusions after an update with a positional feedback: at a
    position marked ['present'] the set exists afterwards and has gained the
    letter; at a position marked ['correct'] an existing set has lost the
    letter (and no set is created); elsewhere nothing changes. *)
Theorem yellow_after_update (self : TermoSolverCSP) (guess : string) (fb : feedback)
    (i : nat) :
  positional fb →
  yellow_letters (_update_constraints self guess fb) !! i =
    match fb !! i with
    | Some (c, correct, _) => (λ letters, letters ∖ {[c]}) <$> (yellow_letters self !! i)
    | Some (c, present, _) => Some ({[c]} ∪ default ∅ (yellow_letters self !! i))
    | _ => yellow_letters self !! i
    end.
Proof. intros Hpos. by apply (uc_fold_at fb fb). Qed.

Lemma sassy_glass_positional : positional sassy_glass.
Proof. intros [|[|[|[|[|i]]]]] e He; simplify_eq/=; done. Qed.

Lemma green_after_update_witness :
  positional sassy_glass ∧
  green_letters (_update_constraints (init small_corpus WORD_LENGTH) "sassy" sassy_glass)
    !! 3 = Some "s"%char.
Proof.
  split; [exact sassy_glass_positional|].
  exact (green_after_update (init small_corpus WORD_LENGTH) "sassy" sassy_glass 3
           sassy_glass_positional).
Defined.

Lemma yellow_after_update_witness :
  positional sassy_glass ∧
  yellow_letters (_update_constraints (init small_corpus WORD_LENGTH) "sassy" sassy_glass)
    !! 0 = Some ({["s"%char]} ∪ default ∅ (yellow_letters (init small_corpus WORD_LENGTH) !! 0)).
Proof.
  split; [exact sassy_glass_positional|].
  exact (yellow_after_update (init small_corpus WORD_LENGTH) "sassy" sassy_glass 0
           sassy_glass_positional).
Defined.

(** X7. Gray letters after an update, for any feedback: a letter is gray
    afterwards exactly when it was gray before, or the feedback marks it
    ['absent'] somewhere and ['correct'] or ['present'] nowhere.  A letter
    with a positive mark in the feedback is never made gray by it. *)
Theorem gray_after_update (self : TermoSolverCSP) (guess : string) (fb : feedback)
    (c : ascii) :
  c ∈ gray_letters (_update_constraints self guess fb) ↔
  c ∈ gray_letters self ∨ (0 < absent_count c fb ∧ positive_count c fb = 0).
Proof. apply update_gray. Qed.

(** X8. Minimum counts after an update, for any feedback: a letter the
    feedback marks positive [k >= 1] times has the minimum
    [max(previous or 0, k)]; every other letter keeps its entry, or its lack
    of one. *)
Theorem min_count_after_update (self : TermoSolverCSP) (guess : string) (fb : feedback)
    (c : ascii) :
  min_letter_counts (_update_constraints self guess fb) !! c =
    if decide (positive_count c fb = 0) then min_letter_counts self !! c
    else Some (Z.max (dict_get (min_letter_counts self) c 0%Z)
                     (Z.of_nat (positive_count c fb))).
Proof. apply update_min. Qed.

(** ** [_is_consistent]: what acceptance means *)

Lemma history_consistent_true_iff (L : nat) (word : string) (h : list (string * feedback)) :
  Forall (λ p, shaped L p.1 p.2) h →
  history_consistent L word (letter_counts word) h = Returned true ↔
  Forall (λ p, entry_exact_ok word p.1 p.2) h.
Proof.
  induction 1 as [|[g fb] h Hsh _ IH].
  - split; [intros _; apply Forall_nil_2|done].
  - rewrite (history_consistent_cons L word g fb h Hsh), Forall_cons, IH. done.
Qed.

Lemma history_of_elem (self : TermoSolverCSP) (guess : string) (fb : feedback) :
  (guess, fb) ∈ history_of self ↔
  ∃ n, guesses_history self !! n = Some guess ∧ feedback_history self !! n = Some fb.
Proof.
  unfold history_of. rewrite elem_of_lookup_zip_with. split.
  - intros (n & x & y & Heq & Hx & Hy). simplify_eq. eauto.
  - intros (n & Hx & Hy). by exists n, guess, fb.
Qed.

(** X9. With a history of shaped pairs, [_is_consistent] returns for every
    word (of any length), and it returns [True] exactly when: the word holds
    every green letter at its position; it holds no barred letter at a yellow
    position; each gray letter it contains has a recorded minimum count; it
    contains each letter at least its recorded minimum number of times; and
    for every recorded pair, each letter of the word that the pair marks
    ['absent'] somewhere occurs in the word as often as the pair marks it
    ['correct'] or ['present']. *)
Theorem acceptance_characterised (L : nat) (self : TermoSolverCSP) (word : string) :
  session_inv L self →
  ∃ b, _is_consistent self word = Returned b ∧
       (b = true ↔
        (∀ i c, green_letters self !! i = Some c → chars word !! i = Some c) ∧
        (∀ i letters c, yellow_letters self !! i = Some letters →
                        chars word !! i = Some c → c ∉ letters) ∧
        (∀ c, c ∈ gray_letters self → c ∈ chars word →
              is_Some (min_letter_counts self !! c)) ∧
        (∀ c m, min_letter_counts self !! c = Some m →
                (m ≤ Z.of_nat (occ c (chars word)))%Z) ∧
        (∀ n guess fb c,
           guesses_history self !! n = Some guess →
           feedback_history self !! n = Some fb →
           0 < absent_count c fb → c ∈ chars word →
           occ c (chars word) = positive_count c fb)).
Proof.
  intros Hinv. destruct (is_consistent_returns L self word Hinv) as [b Hb].
  exists b. split; [done|]. destruct Hinv as (HL & _ & Hall).
  transitivity (_is_consistent self word = Returned true).
  { rewrite Hb. split; congruence. }
  rewrite is_consistent_true, HL, (history_consistent_true_iff L word _ Hall).
  rewrite Forall_forall. split.
  - intros [[Hg Hy Hr Hm] Hh]. split_and!.
    + intros i c Hi. by apply green_violation_false, Hg.
    + intros i X c Hi. by apply yellow_violation_false, (Hy i X).
    + intros c Hc. by apply gray_violation_false, Hr.
    + intros c m Hc. by apply min_violation_false, Hm.
    + intros n g fb c Hgn Hfn Habs Hin.
      assert ((g, fb) ∈ history_of self) as Hpair by (apply history_of_elem; eauto).
      apply (Hh (g, fb) Hpair c); [|done|done].
      rewrite Forall_forall in Hall. destruct (Hall _ Hpair) as (_ & _ & Hlet).
      cbn [fst snd] in Hlet |- *. rewrite <- Hlet.
      apply absent_count_positive in Habs as (i & j & Hi).
      apply list_elem_of_lookup. exists i. by rewrite list_lookup_fmap, Hi.
  - intros (Hg & Hy & Hr & Hm & Hh). split; [split|].
    + intros i c Hi. by apply green_violation_false, Hg.
    + intros i X Hi. apply yellow_violation_false. intros c. by apply Hy.
    + intros c Hc. apply gray_violation_false. by apply Hr.
    + intros c m Hc. by apply min_violation_false, Hm.
    + intros [g fb] [n [Hgn Hfn]]%history_of_elem c _ Habs Hin. by apply (Hh n g fb c).
Qed.

Lemma after_sassy_session : session_inv WORD_LENGTH after_sassy.
Proof.
  apply add_feedback_returns; [apply session_inv_init|].
  split_and!; vm_compute; reflexivity.
Qed.

Lemma acceptance_characterised_witness :
  session_inv WORD_LENGTH after_sassy ∧
  ∃ b, _is_consistent after_sassy "glass" = Returned b ∧
       (b = true ↔
        (∀ i c, green_letters after_sassy !! i = Some c → chars "glass" !! i = Some c) ∧
        (∀ i letters c, yellow_letters after_sassy !! i = Some letters →
                        chars "glass" !! i = Some c → c ∉ letters) ∧
        (∀ c, c ∈ gray_letters after_sassy → c ∈ chars "glass" →
              is_Some (min_letter_counts after_sassy !! c)) ∧
        (∀ c m, min_letter_counts after_sassy !! c = Some m →
                (m ≤ Z.of_nat (occ c (chars "glass")))%Z) ∧
        (∀ n guess fb c,
           guesses_history after_sassy !! n = Some guess →
           feedback_history after_sassy !! n = Some fb →
           0 < absent_count c fb → c ∈ chars "glass" →
           occ c (chars "glass") = positive_count c fb)).
Proof.
  split; [exact after_sassy_session|].
  exact (acceptance_characterised WORD_LENGTH after_sassy "glass" after_sassy_session).
Defined.

(** ** [add_feedback]: the candidates after a call *)

(** X10. When [add_feedback] returns normally, the new candidate set is
    exactly the old one cut down to the words the updated object accepts. *)
Theorem candidates_after_add_feedback (self : TermoSolverCSP) (guess : string)
    (fb : feedback) (word : string) :
  (add_feedback self guess fb).2 = None →
  (word ∈ possible_words (add_feedback self guess fb).1 ↔
   word ∈ possible_words self ∧
   _is_consistent (add_feedback self guess fb).1 word = Returned true).
Proof.
  rewrite add_feedback_is_consistent. unfold add_feedback.
  fold (updated self guess fb).
  destruct (set_comprehension _ _) as [ws|e] eqn:E; [|done]. intros _. cbn.
  apply (set_comprehension_returned _ _ _ E).
Qed.

Lemma after_sassy_returned :
  (add_feedback (init {[ "glass"; "sassy"; "gloss" ]} WORD_LENGTH) "sassy" sassy_glass).2
  = None.
Proof. vm_compute. reflexivity. Qed.

Lemma candidates_after_add_feedback_witness :
  (add_feedback (init {[ "glass"; "sassy"; "gloss" ]} WORD_LENGTH) "sassy" sassy_glass).2
  = None ∧
  ("glass" ∈ possible_words after_sassy ↔
   "glass" ∈ possible_words (init {[ "glass"; "sassy"; "gloss" ]} WORD_LENGTH) ∧
   _is_consistent after_sassy "glass" = Returned true).
Proof.
  split; [exact after_sassy_returned|].
  exact (candidates_after_add_feedback _ "sassy" sassy_glass "glass" after_sassy_returned).
Defined.

Lemma add_feedback_fixed_fields (self : TermoSolverCSP) (guess : string) (fb : feedback) :
  all_valid_words (add_feedback self guess fb).1 = all_valid_words self ∧
  word_length (add_feedback self guess fb).1 = word_length self.
Proof. unfold add_feedback. by destruct (set_comprehension _ _). Qed.

(** X11. In every solver object a program can hold, the candidates are words
    of the corpus the object was created with, and the two histories have the
    same length. *)
Theorem candidates_stay_in_corpus (self : TermoSolverCSP) :
  reachable self →
  possible_words self ⊆ all_valid_words self ∧
  length (guesses_history self) = length (feedback_history self).
Proof.
  intros Hreach. split; [|by destruct (reachable_coupled self Hreach)].
  induction Hreach as [valid_words L|self guess fb _ IH]; [done|].
  destruct (add_feedback_fixed_fields self guess fb) as [-> _].
  intros w Hw. by apply IH, (add_feedback_possible_words self guess fb).
Qed.

Lemma candidates_stay_in_corpus_witness :
  reachable after_sassy ∧
  possible_words after_sassy ⊆ all_valid_words after_sassy ∧
  length (guesses_history after_sassy) = length (feedback_history after_sassy).
Proof.
  assert (reachable after_sassy) as Hreach.
  { apply reachable_add_feedback, reachable_init. }
  split; [exact Hreach|]. exact (candidates_stay_in_corpus after_sassy Hreach).
Defined.

(** X12. [add_feedback] never raises during a session of shaped pairs: when
    the histories are aligned, every recorded pair is shaped and so is the
    new one, the call returns normally and the same holds of the object
    afterwards. *)
Theorem add_feedback_safe_when_shaped (L : nat) (self : TermoSolverCSP) (guess : string)
    (fb : feedback) :
  session_inv L self → shaped L guess fb →
  (add_feedback self guess fb).2 = None ∧
  session_inv L (add_feedback self guess fb).1.
Proof. intros Hinv Hsh. by apply add_feedback_returns. Qed.

Lemma add_feedback_safe_when_shaped_witness :
  session_inv WORD_LENGTH after_sassy ∧ shaped WORD_LENGTH "acelo" acelo_bravo ∧
  (add_feedback after_sassy "acelo" acelo_bravo).2 = None ∧
  session_inv WORD_LENGTH (add_feedback after_sassy "acelo" acelo_bravo).1.
Proof.
  assert (shaped WORD_LENGTH "acelo" acelo_bravo) as Hsh
    by (split_and!; vm_compute; reflexivity).
  split; [exact after_sassy_session|]. split; [exact Hsh|].
  exact (add_feedback_safe_when_shaped WORD_LENGTH after_sassy "acelo" acelo_bravo
           after_sassy_session Hsh).
Defined.

(** ** [add_feedback]: what every survivor satisfies *)

Lemma feedback_for_positional (guess secret : string) (fb : feedback) :
  feedback_for guess secret fb → positional fb.
Proof. intros Hfb i [[c st] j] Hi. by destruct (ff_entry _ _ _ Hfb i c st j Hi). Qed.

(** What the updated object demands of a word it accepts. *)
Lemma accepted_after_update (self : TermoSolverCSP) (guess : string) (fb : feedback)
    (word : string) :
  shaped (word_length self) guess fb → positional fb →
  length (guesses_history self) = length (feedback_history self) →
  _is_consistent (updated self guess fb) word = Returned true →
  (∀ i c, fb !! i = Some (c, correct, i) → chars word !! i = Some c) ∧
  (∀ i c, fb !! i = Some (c, present, i) → chars word !! i ≠ Some c) ∧
  (∀ c, positive_count c fb ≤ occ c (chars word)) ∧
  (∀ c, 0 < absent_count c fb → occ c (chars word) = positive_count c fb).
Proof.
  intros Hsh Hpos Hlen [Htab Hhist]%is_consistent_true.
  assert (∀ c, positive_count c fb ≤ occ c (chars word)) as Hmin.
  { intros c. destruct (decide (positive_count c fb = 0)) as [->|Hne]; [lia|].
    pose proof (update_min (record_history self guess fb) guess fb c) as Hm.
    rewrite decide_False in Hm by done.
    pose proof (ta_min _ _ Htab c _ Hm) as Hle. rewrite min_violation_false in Hle. lia. }
  split_and!; [| |done|].
  - intros i c Hi. apply green_violation_false, (ta_green _ _ Htab).
    unfold updated.
    destruct (uc_fold_at fb fb
                {| uc_green := green_letters self; uc_yellow := yellow_letters self;
                   uc_gray := gray_letters self; uc_positive := ∅ |} i Hpos) as [Hg _].
    rewrite Hi in Hg. exact Hg.
  - intros i c Hi Hw.
    destruct (uc_fold_at fb fb
                {| uc_green := green_letters self; uc_yellow := yellow_letters self;
                   uc_gray := gray_letters self; uc_positive := ∅ |} i Hpos) as [_ Hy].
    rewrite Hi in Hy.
    pose proof (ta_yellow _ _ Htab i _ Hy) as Hno. rewrite yellow_violation_false in Hno.
    apply (Hno c Hw). set_solver.
  - intros c Habs.
    assert ((guess, fb) ∈ history_of (updated self guess fb)) as Hpair.
    { rewrite history_of_updated by done. apply elem_of_app. right.
      apply list_elem_of_here. }
    pose proof (history_consistent_elem _ _ _ _ _ Hhist Hpair Hsh) as Hok.
    destruct (decide (c ∈ chars word)) as [Hin|Hout].
    + apply Hok; [|done|done]. destruct Hsh as (_ & _ & <-).
      apply absent_count_positive in Habs as (i & j & Hi).
      apply list_elem_of_lookup. exists i. by rewrite list_lookup_fmap, Hi.
    + apply occ_zero in Hout. specialize (Hmin c). lia.
Qed.

Lemma survivor_accepted (self : TermoSolverCSP) (guess : string) (fb : feedback)
    (word : string) :
  (add_feedback self guess fb).2 = None →
  word ∈ possible_words (add_feedback self guess fb).1 →
  _is_consistent (updated self guess fb) word = Returned true.
Proof.
  unfold add_feedback. fold (updated self guess fb).
  destruct (set_comprehension _ _) as [ws|e] eqn:E; [|done]. intros _. cbn.
  intros Hw. by apply (set_comprehension_returned _ _ _ E) in Hw as [_ ?].
Qed.

(** X13. What the filter guarantees: after [add_feedback] has returned for a
    feedback computed by [check_guess], every remaining candidate holds each
    ['correct'] letter at its position, does not hold a ['present'] letter at
    the position where it was reported, contains every letter at least as
    often as the feedback marks it positive, and contains a letter that has
    an ['absent'] mark exactly as often as the feedback marks it positive
    (not at all when it has no positive mark). *)
Theorem survivors_respect_feedback (self : TermoSolverCSP) (guess secret visual : string)
    (ok : bool) (fb : feedback) (word : string) :
  len guess = WORD_LENGTH → len secret = WORD_LENGTH →
  word_length self = WORD_LENGTH →
  length (guesses_history self) = length (feedback_history self) →
  check_guess guess secret = Returned (visual, ok, Some <$> fb) →
  (add_feedback self guess fb).2 = None →
  word ∈ possible_words (add_feedback self guess fb).1 →
  (∀ i c, fb !! i = Some (c, correct, i) → chars word !! i = Some c) ∧
  (∀ i c, fb !! i = Some (c, present, i) → chars word !! i ≠ Some c) ∧
  (∀ c, positive_count c fb ≤ occ c (chars word)) ∧
  (∀ c, 0 < absent_count c fb → occ c (chars word) = positive_count c fb).
Proof.
  intros Hg Hs HL Hlen Hcg Hret Hw.
  destruct (check_guess_feedback_for _ _ _ _ _ Hg Hs Hcg) as [_ Hfb].
  apply (accepted_after_update self guess fb word).
  - rewrite HL, <- Hg, len_chars. by eapply feedback_for_shaped.
  - by eapply feedback_for_positional.
  - done.
  - by apply survivor_accepted.
Qed.

Definition sassy_solver : TermoSolverCSP := init {[ "glass"; "sassy"; "gloss" ]} WORD_LENGTH.

Lemma sassy_glass_computed :
  check_guess "sassy" "glass"
  = Returned (String.concat " " (visual_of <$> sassy_glass), false, Some <$> sassy_glass).
Proof. vm_compute. reflexivity. Qed.

Lemma glass_survives : "glass" ∈ possible_words (add_feedback sassy_solver "sassy" sassy_glass).1.
Proof. by_evaluation. Qed.

Lemma survivors_respect_feedback_witness :
  len "sassy" = WORD_LENGTH ∧ len "glass" = WORD_LENGTH ∧
  word_length sassy_solver = WORD_LENGTH ∧
  length (guesses_history sassy_solver) = length (feedback_history sassy_solver) ∧
  check_guess "sassy" "glass"
  = Returned (String.concat " " (visual_of <$> sassy_glass), false, Some <$> sassy_glass) ∧
  (add_feedback sassy_solver "sassy" sassy_glass).2 = None ∧
  "glass" ∈ possible_words (add_feedback sassy_solver "sassy" sassy_glass).1 ∧
  (∀ i c, sassy_glass !! i = Some (c, correct, i) → chars "glass" !! i = Some c) ∧
  (∀ i c, sassy_glass !! i = Some (c, present, i) → chars "glass" !! i ≠ Some c) ∧
  (∀ c, positive_count c sassy_glass ≤ occ c (chars "glass")) ∧
  (∀ c, 0 < absent_count c sassy_glass → occ c (chars "glass") = positive_count c sassy_glass).
Proof.
  do 4 (split; [reflexivity|]). split; [exact sassy_glass_computed|].
  split; [exact after_sassy_returned|]. split; [exact glass_survives|].
  exact (survivors_respect_feedback sassy_solver "sassy" "glass" _ false sassy_glass "glass"
           eq_refl eq_refl eq_refl eq_refl sassy_glass_computed after_sassy_returned
           glass_survives).
Defined.

(** X14. A correct guess settles the game: after [add_feedback] has returned
    for the feedback of the secret guessed against itself, every remaining
    candidate of length 5 is the secret. *)
Theorem correct_guess_leaves_secret (self : TermoSolverCSP) (secret visual : string)
    (ok : bool) (fb : feedback) (word : string) :
  len secret = WORD_LENGTH → len word = WORD_LENGTH →
  word_length self = WORD_LENGTH →
  length (guesses_history self) = length (feedback_history self) →
  check_guess secret secret = Returned (visual, ok, Some <$> fb) →
  (add_feedback self secret fb).2 = None →
  word ∈ possible_words (add_feedback self secret fb).1 →
  word = secret.
Proof.
  intros Hs Hwl HL Hlen Hcg Hret Hw.
  destruct (check_guess_feedback_for _ _ _ _ _ Hs Hs Hcg) as [_ Hfb].
  destruct (accepted_after_update self secret fb word) as (Hgreen & _).
  - rewrite HL, <- Hs, len_chars. by eapply feedback_for_shaped.
  - by eapply feedback_for_positional.
  - done.
  - by apply survivor_accepted.
  - apply chars_inj. apply list_eq_same_length with WORD_LENGTH.
    + by rewrite <- len_chars.
    + by rewrite <- len_chars.
    + intros i x y Hi Hx Hy.
      destruct (lookup_lt_is_Some_2 fb i) as [[[c st] j] He].
      { rewrite (ff_length _ _ _ Hfb), <- len_chars. lia. }
      destruct (ff_entry _ _ _ Hfb i c st j He) as [Hc ->].
      assert (st = correct) as -> by (apply (ff_correct _ _ _ Hfb i c st i He); done).
      pose proof (Hgreen i c He). congruence.
Qed.

Definition porta_porta : feedback :=
  [("p"%char, correct, 0); ("o"%char, correct, 1); ("r"%char, correct, 2);
   ("t"%char, correct, 3); ("a"%char, correct, 4)].

Lemma porta_porta_computed :
  check_guess "porta" "porta"
  = Returned (String.concat " " (visual_of <$> porta_porta), true, Some <$> porta_porta).
Proof. vm_compute. reflexivity. Qed.

Lemma porta_returned :
  (add_feedback (init small_corpus WORD_LENGTH) "porta" porta_porta).2 = None.
Proof. vm_compute. reflexivity. Qed.

Lemma porta_survives :
  "porta" ∈ possible_words (add_feedback (init small_corpus WORD_LENGTH) "porta" porta_porta).1.
Proof. by_evaluation. Qed.

Lemma correct_guess_leaves_secret_witness :
  len "porta" = WORD_LENGTH ∧ len "porta" = WORD_LENGTH ∧
  word_length (init small_corpus WORD_LENGTH) = WORD_LENGTH ∧
  length (guesses_history (init small_corpus WORD_LENGTH))
  = length (feedback_history (init small_corpus WORD_LENGTH)) ∧
  check_guess "porta" "porta"
  = Returned (String.concat " " (visual_of <$> porta_porta), true, Some <$> porta_porta) ∧
  (add_feedback (init small_corpus WORD_LENGTH) "porta" porta_porta).2 = None ∧
  "porta" ∈ possible_words (add_feedback (init small_corpus WORD_LENGTH) "porta" porta_porta).1 ∧
  "porta" = "porta".
Proof.
  do 4 (split; [reflexivity|]). split; [exact porta_porta_computed|].
  split; [exact porta_returned|]. split; [exact porta_survives|].
  exact (correct_guess_leaves_secret (init small_corpus WORD_LENGTH) "porta" _ true
           porta_porta "porta" eq_refl eq_refl eq_refl eq_refl porta_porta_computed
           porta_returned porta_survives).
Defined.

(** ** [check_guess] into [add_feedback]: a length mismatch *)

Lemma update_nil (self : TermoSolverCSP) (guess : string) :
  _update_constraints self guess [] = self.
Proof. destruct self. unfold _update_constraints. cbn. by rewrite map_fold_empty. Qed.

Lemma history_consistent_app (L : nat) (word : string) (wc : gmap ascii Z)
    (h1 h2 : list (string * feedback)) :
  history_consistent L word wc (h1 ++ h2) =
    (b ← history_consistent L word wc h1;
     if b : bool then history_consistent L word wc h2 else mret false).
Proof.
  induction h1 as [|[g fb] h1 IH]; [done|]. cbn [app history_consistent].
  destruct (for_each _ _ _) as [[[gc pc] hg]|]; [|done]. cbn.
  by destruct (dict_any _ gc).
Qed.

Lemma scan_body_raises (guess : string) (fb : feedback) (s : scan_state) (i : nat) (e : exn) :
  scan_body guess fb s i = Raised e → e = IndexError.
Proof.
  destruct s as [[gc pc] hg]. unfold scan_body, str_index, list_index.
  destruct (String.get i guess); cbn; [|congruence].
  destruct (fb !! i); cbn; cbv [mret outcome_ret]; congruence.
Qed.

Lemma for_each_raises {A St : Type} (body : St → A → outcome St) (e0 : exn) :
  (∀ s x e, body s x = Raised e → e = e0) →
  ∀ xs s e, for_each xs body s = Raised e → e = e0.
Proof.
  intros Hbody. induction xs as [|x xs IH]; intros s e Hrun; [done|].
  cbn [for_each] in Hrun. destruct (body s x) as [s1|e1] eqn:E; cbn in Hrun.
  - by eapply IH.
  - simplify_eq. by eapply Hbody.
Qed.

Lemma is_consistent_raises (self : TermoSolverCSP) (word : string) (e : exn) :
  _is_consistent self word = Raised e → e = IndexError.
Proof.
  unfold _is_consistent.
  repeat (match goal with |- context [if ?b then _ else _] => destruct b end; [done|]).
  generalize (zip (guesses_history self) (feedback_history self)).
  induction l as [|[g fb] h IH]; [done|]. cbn [history_consistent].
  destruct (for_each _ _ _) as [[[gc pc] hg]|e1] eqn:E; cbn.
  - destruct (dict_any _ gc); [done|]. apply IH.
  - intros [= <-]. eapply for_each_raises; [|exact E]. intros s i e'.
    apply scan_body_raises.
Qed.

Lemma set_comprehension_raises (P : string → outcome bool) (X : gset string)
    (w : string) (e : exn) :
  w ∈ X → P w = Raised e → (∀ w' e', P w' = Raised e' → e' = e) →
  set_comprehension P X = Raised e.
Proof.
  intros Hw Hraise Honly. unfold set_comprehension.
  apply elem_of_elements in Hw. revert Hw. generalize (∅ : gset string).
  induction (elements X) as [|x l IH]; intros acc Hw.
  - by apply elem_of_nil in Hw.
  - cbn [for_each]. destruct (P x) as [b|e'] eqn:E; cbn.
    + apply elem_of_cons in Hw as [->|Hw]; [congruence|]. by apply IH.
    + f_equal. by eapply Honly.
Qed.

Lemma check_guess_mismatch (guess secret : string) :
  len guess ≠ WORD_LENGTH ∨ len secret ≠ WORD_LENGTH →
  check_guess guess secret = Returned ("Internal error: Invalid length", false, []).
Proof.
  intros Hbad. unfold check_guess.
  assert (negb (len guess =? WORD_LENGTH) || negb (len secret =? WORD_LENGTH) = true)
    as ->; [|done].
  apply orb_true_iff. rewrite !negb_true_iff, !Nat.eqb_neq. done.
Qed.

(** An empty feedback makes the filter raise on the first candidate that
    reaches the scan of the history. *)
Lemma empty_feedback_raises (self : TermoSolverCSP) (guess word : string) :
  0 < word_length self →
  length (guesses_history self) = length (feedback_history self) →
  word ∈ possible_words self → _is_consistent self word = Returned true →
  add_feedback self guess [] = (updated self guess [], Some IndexError).
Proof.
  intros HL Hlen Hw [Htab Hhist]%is_consistent_true.
  assert (_is_consistent (updated self guess []) word = Raised IndexError) as Hraise.
  { unfold updated. rewrite update_nil. unfold _is_consistent.
    destruct Htab as [Hg Hy Hr Hm].
    change (gray_violation (record_history self guess []) word)
      with (gray_violation self word).
    cbn [record_history green_letters yellow_letters gray_letters min_letter_counts
         word_length].
    rewrite (proj2 (dict_any_false _ _) Hg), (proj2 (dict_any_false _ _) Hy).
    rewrite (proj2 (set_any_false _ _) Hr), (proj2 (dict_any_false _ _) Hm).
    change (zip _ _) with (history_of (record_history self guess [])).
    rewrite <- (update_nil (record_history self guess []) guess) at 1.
    fold (updated self guess []).
    rewrite history_of_updated, history_consistent_app by done.
    rewrite Hhist. cbn.
    destruct (word_length self) as [|L]; [lia|].
    unfold range. cbn [seq for_each]. unfold scan_body, str_index, list_index.
    by destruct (String.get 0 guess). }
  assert (set_comprehension (_is_consistent (updated self guess []))
                            (possible_words (updated self guess [])) = Raised IndexError)
    as Hfilter.
  { apply (set_comprehension_raises _ _ word); [|done|].
    - unfold updated. by rewrite update_nil.
    - intros w' e'. apply is_consistent_raises. }
  unfold add_feedback. fold (updated self guess []). by rewrite Hfilter.
Qed.

(** X15. The error result of [check_guess] is not recognised downstream:
    handed to [add_feedback] as [play_game] hands it, its empty feedback is
    recorded in the history, and the filter then raises [IndexError] while
    scanning it, as soon as one candidate passes every earlier test; the
    candidate set is left as it was. *)
Theorem length_mismatch_crashes_filter (self : TermoSolverCSP) (guess secret word : string) :
  len guess ≠ WORD_LENGTH ∨ len secret ≠ WORD_LENGTH →
  0 < word_length self →
  length (guesses_history self) = length (feedback_history self) →
  word ∈ possible_words self → _is_consistent self word = Returned true →
  attempt self guess secret = Raised IndexError ∧
  (add_feedback self guess []).2 = Some IndexError ∧
  possible_words (add_feedback self guess []).1 = possible_words self ∧
  feedback_history (add_feedback self guess []).1 = feedback_history self ++ [[]].
Proof.
  intros Hbad HL Hlen Hw Hcons.
  pose proof (check_guess_mismatch guess secret Hbad) as Hcg.
  pose proof (empty_feedback_raises self guess word HL Hlen Hw Hcons) as Hadd.
  split_and!.
  - unfold attempt. rewrite Hcg. cbn. by rewrite Hadd.
  - by rewrite Hadd.
  - rewrite Hadd. unfold updated. by rewrite update_nil.
  - rewrite Hadd. unfold updated. by rewrite update_nil.
Qed.

Lemma length_mismatch_crashes_filter_witness :
  (len "abc" ≠ WORD_LENGTH ∨ len "porta" ≠ WORD_LENGTH) ∧
  0 < word_length (init small_corpus WORD_LENGTH) ∧
  length (guesses_history (init small_corpus WORD_LENGTH))
  = length (feedback_history (init small_corpus WORD_LENGTH)) ∧
  "porta" ∈ possible_words (init small_corpus WORD_LENGTH) ∧
  _is_consistent (init small_corpus WORD_LENGTH) "porta" = Returned true ∧
  attempt (init small_corpus WORD_LENGTH) "abc" "porta" = Raised IndexError ∧
  (add_feedback (init small_corpus WORD_LENGTH) "abc" []).2 = Some IndexError ∧
  possible_words (add_feedback (init small_corpus WORD_LENGTH) "abc" []).1
  = possible_words (init small_corpus WORD_LENGTH) ∧
  feedback_history (add_feedback (init small_corpus WORD_LENGTH) "abc" []).1
  = feedback_history (init small_corpus WORD_LENGTH) ++ [[]].
Proof.
  assert (len "abc" ≠ WORD_LENGTH ∨ len "porta" ≠ WORD_LENGTH) as Hbad.
  { left. vm_compute. lia. }
  assert (0 < word_length (init small_corpus WORD_LENGTH)) as HL by (vm_compute; lia).
  assert ("porta" ∈ possible_words (init small_corpus WORD_LENGTH)) as Hw by by_evaluation.
  assert (_is_consistent (init small_corpus WORD_LENGTH) "porta" = Returned true) as Hc
    by (vm_compute; reflexivity).
  split; [exact Hbad|]. split; [exact HL|]. split; [reflexivity|].
  split; [exact Hw|]. split; [exact Hc|].
  exact (length_mismatch_crashes_filter (init small_corpus WORD_LENGTH) "abc" "porta" "porta"
           Hbad HL eq_refl Hw Hc).
Defined.

(** ** Sessions: words the feedback cannot tell from the secret *)

(** The structured feedback of a call, which is all the solver is given. *)
Definition structured_of (r : outcome cg_result) : outcome (list (option entry)) :=
  '(_, _, structured_feedback) ← r; mret structured_feedback.

Lemma attempt_structured (self : TermoSolverCSP) (guess secret secret' : string) :
  structured_of (check_guess guess secret) = structured_of (check_guess guess secret') →
  attempt self guess secret = attempt self guess secret'.
Proof.
  unfold attempt, structured_of.
  destruct (check_guess guess secret) as [[[v ok] sf]|e],
           (check_guess guess secret') as [[[v' ok'] sf']|e']; cbn;
    cbv [mret outcome_ret]; intros H; by simplify_eq.
Qed.

Lemma attempts_structured (secret secret' : string) (guesses : list string) :
  Forall (λ g, structured_of (check_guess g secret')
               = structured_of (check_guess g secret)) guesses →
  ∀ self, attempts self secret guesses = attempts self secret' guesses.
Proof.
  induction 1 as [|g gs Hg _ IH]; intros self; [done|].
  cbn [attempts]. rewrite (attempt_structured self g secret secret') by done.
  destruct (attempt self g secret'); cbn; [apply IH|done].
Qed.

(** X16. The filter never removes a word it cannot tell from the secret: a
    word of length 5 that would have received the same structured feedback
    as the secret for every guess made is accepted at the end of the session
    and, if it was in the corpus, is still a candidate. *)
Theorem indistinguishable_words_survive (valid_words : gset string)
    (secret word : string) (guesses : list string) :
  len secret = WORD_LENGTH → len word = WORD_LENGTH →
  Forall (λ g, len g = WORD_LENGTH) guesses →
  Forall (λ g, structured_of (check_guess g word)
               = structured_of (check_guess g secret)) guesses →
  ∃ solver,
    attempts (init valid_words WORD_LENGTH) secret guesses = Returned solver ∧
    _is_consistent solver word = Returned true ∧
    (word ∈ valid_words → word ∈ possible_words solver).
Proof.
  intros Hs Hw Hgs Hsame.
  rewrite (attempts_structured secret word guesses Hsame).
  destruct (attempts_keep_secret word guesses Hw Hgs (init valid_words WORD_LENGTH))
    as (solver & Hrun & _ & Hcons & Hkeep).
  - apply session_inv_init.
  - apply init_consistent.
  - exists solver. by split_and!.
Qed.

Lemma indistinguishable_words_survive_witness :
  len "porta" = WORD_LENGTH ∧ len "morta" = WORD_LENGTH ∧
  Forall (λ g, len g = WORD_LENGTH) ["acelo"] ∧
  Forall (λ g, structured_of (check_guess g "morta")
               = structured_of (check_guess g "porta")) ["acelo"] ∧
  ∃ solver,
    attempts (init {[ "porta"; "morta"; "festa" ]} WORD_LENGTH) "porta" ["acelo"]
    = Returned solver ∧
    _is_consistent solver "morta" = Returned true ∧
    ("morta" ∈ ({[ "porta"; "morta"; "festa" ]} : gset string) → "morta" ∈ possible_words solver).
Proof.
  assert (Forall (λ g, len g = WORD_LENGTH) ["acelo"]) as Hgs by (repeat constructor).
  assert (Forall (λ g, structured_of (check_guess g "morta")
                       = structured_of (check_guess g "porta")) ["acelo"]) as Hsame.
  { constructor; [vm_compute; reflexivity|constructor]. }
  split; [reflexivity|]. split; [reflexivity|]. split; [exact Hgs|]. split; [exact Hsame|].
  exact (indistinguishable_words_survive {[ "porta"; "morta"; "festa" ]} "porta" "morta"
           ["acelo"] eq_refl eq_refl Hgs Hsame).
Defined.

(** ** [add_feedback]: reporting the same feedback twice *)

Lemma update_tables_at (self : TermoSolverCSP) (guess : string) (fb : feedback) (i : nat) :
  positional fb →
  green_letters (_update_constraints self guess fb) !! i =
    match fb !! i with
    | Some (c, correct, _) => Some c
    | _ => green_letters self !! i
    end ∧
  yellow_letters (_update_constraints self guess fb) !! i =
    match fb !! i with
    | Some (c, correct, _) => (λ letters, letters ∖ {[c]}) <$> (yellow_letters self !! i)
    | Some (c, present, _) => Some ({[c]} ∪ default ∅ (yellow_letters self !! i))
    | _ => yellow_letters self !! i
    end.
Proof. intros Hpos. by apply (uc_fold_at fb fb). Qed.

(** Updating again with the same feedback leaves the four tables as the
    first update left them. *)
Lemma update_tables_idempotent (self other : TermoSolverCSP) (guess : string)
    (fb : feedback) :
  positional fb →
  green_letters other = green_letters (_update_constraints self guess fb) →
  yellow_letters other = yellow_letters (_update_constraints self guess fb) →
  gray_letters other = gray_letters (_update_constraints self guess fb) →
  min_letter_counts other = min_letter_counts (_update_constraints self guess fb) →
  green_letters (_update_constraints other guess fb) = green_letters other ∧
  yellow_letters (_update_constraints other guess fb) = yellow_letters other ∧
  gray_letters (_update_constraints other guess fb) = gray_letters other ∧
  min_letter_counts (_update_constraints other guess fb) = min_letter_counts other.
Proof.
  intros Hpos Hg Hy Hr Hm. split_and!.
  - apply map_eq. intros i.
    destruct (update_tables_at other guess fb i Hpos) as [-> _].
    rewrite Hg. destruct (update_tables_at self guess fb i Hpos) as [-> _].
    by destruct (fb !! i) as [[[c []] j]|].
  - apply map_eq. intros i.
    destruct (update_tables_at other guess fb i Hpos) as [_ ->].
    rewrite Hy. destruct (update_tables_at self guess fb i Hpos) as [_ ->].
    destruct (fb !! i) as [[[c []] j]|]; [| |done..].
    + destruct (yellow_letters self !! i) as [X|]; cbn; [|done]. f_equal.
      apply set_eq. intros x. rewrite !elem_of_difference. tauto.
    + cbn. f_equal. apply set_eq. intros x. rewrite !elem_of_union. tauto.
  - apply set_eq. intros c. rewrite update_gray, Hr, update_gray. tauto.
  - apply map_eq. intros c. rewrite update_min, Hm. unfold dict_get.
    rewrite update_min. destruct (decide (positive_count c fb = 0)); [done|].
    cbn. f_equal. lia.
Qed.

Lemma history_consistent_twice (L : nat) (word : string) (wc : gmap ascii Z)
    (h : list (string * feedback)) (p : string * feedback) :
  history_consistent L word wc ((h ++ [p]) ++ [p]) = history_consistent L word wc (h ++ [p]).
Proof.
  rewrite <- (assoc_L (++)), !history_consistent_app.
  destruct (history_consistent L word wc h) as [[]|]; cbv [mbind outcome_bind]; [|done..].
  destruct p as [g fb]. cbn [app history_consistent].
  destruct (for_each _ _ _) as [[[gc pc] hg]|]; cbv [mbind outcome_bind]; [|done].
  by destruct (dict_any _ gc) eqn:E.
Qed.

Lemma set_comprehension_ext (P Q : string → outcome bool) (X : gset string) :
  (∀ w, P w = Q w) → set_comprehension P X = set_comprehension Q X.
Proof.
  intros Heq. unfold set_comprehension. generalize (∅ : gset string).
  induction (elements X) as [|x l IH]; intros acc; [done|].
  cbn [for_each]. rewrite Heq. destruct (Q x); cbn; [apply IH|done].
Qed.

Lemma add_feedback_unfold (self : TermoSolverCSP) (guess : string) (fb : feedback) :
  add_feedback self guess fb =
    match set_comprehension (_is_consistent (updated self guess fb))
                            (possible_words (updated self guess fb)) with
    | Returned ws => (set_possible_words (updated self guess fb) ws, None)
    | Raised e => (updated self guess fb, Some e)
    end.
Proof. done. Qed.

(** X17. Reporting the same positional feedback a second time changes
    nothing that matters: the second call of [add_feedback] leaves the
    candidate set exactly as the first call left it. *)
Theorem add_feedback_twice (self : TermoSolverCSP) (guess : string) (fb : feedback) :
  positional fb →
  length (guesses_history self) = length (feedback_history self) →
  possible_words (add_feedback (add_feedback self guess fb).1 guess fb).1
  = possible_words (add_feedback self guess fb).1.
Proof.
  intros Hpos Hlen. set (u1 := updated self guess fb).
  assert (∀ a1, green_letters a1 = green_letters u1 →
                yellow_letters a1 = yellow_letters u1 →
                gray_letters a1 = gray_letters u1 →
                min_letter_counts a1 = min_letter_counts u1 →
                word_length a1 = word_length u1 →
                guesses_history a1 = guesses_history u1 →
                feedback_history a1 = feedback_history u1 →
                ∀ w, _is_consistent (updated a1 guess fb) w = _is_consistent u1 w) as Hsame.
  { intros a1 Hg Hy Hr Hm HL Hgh Hfh w.
    destruct (update_tables_idempotent (record_history self guess fb)
                (record_history a1 guess fb) guess fb Hpos Hg Hy Hr Hm)
      as (Hg' & Hy' & Hr' & Hm').
    unfold _is_consistent, gray_violation. fold (updated a1 guess fb) in Hg', Hy', Hr', Hm'.
    cbn [record_history green_letters yellow_letters gray_letters min_letter_counts]
      in Hg', Hy', Hr', Hm'.
    rewrite Hg', Hy', Hr', Hm', Hg, Hy, Hr, Hm.
    change (zip (guesses_history (updated a1 guess fb)) _)
      with (history_of (updated a1 guess fb)).
    rewrite history_of_updated by (rewrite Hgh, Hfh; cbn; rewrite !length_app; cbn; lia).
    unfold history_of at 1. rewrite Hgh, Hfh.
    change (zip (guesses_history u1) (feedback_history u1)) with (history_of u1).
    change (word_length (updated a1 guess fb)) with (word_length a1). rewrite HL.
    subst u1. rewrite !(history_of_updated self guess fb Hlen).
    by rewrite history_consistent_twice. }
  rewrite (add_feedback_unfold self guess fb). fold u1.
  destruct (set_comprehension (_is_consistent u1) (possible_words u1)) as [ws|e] eqn:E.
  - cbn [fst]. rewrite (add_feedback_unfold (set_possible_words u1 ws) guess fb).
    rewrite (set_comprehension_ext _ (_is_consistent u1)
               (possible_words (updated (set_possible_words u1 ws) guess fb))
               (Hsame (set_possible_words u1 ws) eq_refl eq_refl eq_refl eq_refl eq_refl
                      eq_refl eq_refl)).
    destruct (set_comprehension_total (_is_consistent u1)
                (possible_words (updated (set_possible_words u1 ws) guess fb)))
      as [Y HY].
    { intros w Hw. exists true.
      by apply (set_comprehension_returned _ _ _ E) in Hw as [_ ?]. }
    rewrite HY. cbn. apply set_eq. intros w.
    rewrite (set_comprehension_returned _ _ _ HY w). cbn. split; [by intros [? _]|].
    intros Hw. split; [done|].
    by apply (set_comprehension_returned _ _ _ E) in Hw as [_ ?].
  - cbn [fst]. rewrite (add_feedback_unfold u1 guess fb).
    rewrite (set_comprehension_ext _ (_is_consistent u1)
               (possible_words (updated u1 guess fb))
               (Hsame u1 eq_refl eq_refl eq_refl eq_refl eq_refl eq_refl eq_refl)).
    change (possible_words (updated u1 guess fb)) with (possible_words u1).
    by rewrite E.
Qed.

Lemma add_feedback_twice_witness :
  positional sassy_glass ∧
  length (guesses_history sassy_solver) = length (feedback_history sassy_solver) ∧
  possible_words (add_feedback (add_feedback sassy_solver "sassy" sassy_glass).1
                               "sassy" sassy_glass).1
  = possible_words (add_feedback sassy_solver "sassy" sassy_glass).1.
Proof.
  split; [exact sassy_glass_positional|]. split; [reflexivity|].
  exact (add_feedback_twice sassy_solver "sassy" sassy_glass sassy_glass_positional eq_refl).
Defined.

(** ** [get_next_guess]: what it proposes *)

(** [chr] undoes the encoding of a letter as [ord(c) - ord('a')]. *)
Lemma chr_ord (c : ascii) : chr (ord c - ord "a" + ord "a") = Returned c.
Proof.
  unfold chr. replace (ord c - ord "a" + ord "a")%Z with (ord c) by lia.
  unfold ord. pose proof (nat_ascii_bounded c).
  rewrite decide_True by lia. by rewrite Nat2Z.id, ascii_nat_embedding.
Qed.

Lemma decode_encode (cs : list ascii) :
  for_list (λ idx, chr (idx + ord "a")) ((λ c, ord c - ord "a")%Z <$> cs)
  = Returned cs.
Proof.
  induction cs as [|c cs IH]; [done|].
  rewrite fmap_cons. cbn [for_list]. rewrite chr_ord, IH. done.
Qed.

Lemma list_index_elements_0 (X : gset string) :
  X ≠ ∅ → ∃ w, list_index (elements X) 0 = Returned w ∧ w ∈ X.
Proof.
  intros Hne. destruct (elements X) as [|x l] eqn:E.
  { by apply elements_empty_inv, leibniz_equiv in E. }
  exists x. split; [done|]. apply elem_of_elements. rewrite E. left.
Qed.

(** What [AddAllowedAssignments] asks of the solver: a solution reported with
    status [OPTIMAL] or [FEASIBLE] is one of the allowed tuples. *)
Definition honours_allowed (OPTIMAL FEASIBLE : Z)
    (cp_solve : nat → list (list Z) → Z * list Z) : Prop :=
  ∀ n allowed st sol,
    cp_solve n allowed = (st, sol) → st = OPTIMAL ∨ st = FEASIBLE → sol ∈ allowed.

(** A solver that reports the first allowed tuple. *)
Definition first_tuple (n : nat) (allowed : list (list Z)) : Z * list Z :=
  match allowed with
  | t :: _ => (4%Z, t)
  | [] => (3%Z, [])
  end.

Lemma first_tuple_honours : honours_allowed 4 2 first_tuple.
Proof.
  intros n [|t allowed] st sol Heq Hst; cbn in Heq; simplify_eq.
  - destruct Hst; discriminate.
  - left.
Qed.

Section Proposals.
Variables (OPTIMAL FEASIBLE : Z) (cp_solve : nat → list (list Z) → Z * list Z).

Lemma next_guess_candidate (entropy : nat) (self : TermoSolverCSP) (k : Z) :
  honours_allowed OPTIMAL FEASIBLE cp_solve →
  k ≠ 0%Z → k ≠ 1%Z → possible_words self ≠ ∅ →
  ∃ printed w,
    get_next_guess OPTIMAL FEASIBLE cp_solve entropy self k = (printed, Returned w) ∧
    w ∈ possible_words self.
Proof.
  intros Hsolver Hk0 Hk1 Hne. unfold get_next_guess.
  rewrite !decide_False by done.
  destruct (decide (size (possible_words self) = 1)).
  { destruct (list_index_elements_0 _ Hne) as (w & -> & Hw). by eexists _, w. }
  cbv zeta. destruct (decide (_ = [])).
  { destruct (random_choice_elements entropy _ Hne) as (w & -> & Hw). by eexists _, w. }
  destruct (cp_solve _ _) as [st sol] eqn:Hsol.
  destruct (decide (st = OPTIMAL ∨ st = FEASIBLE)) as [Hst|Hst].
  - pose proof (Hsolver _ _ _ _ Hsol Hst) as Hin.
    apply list_elem_of_fmap in Hin as (word & -> & Hword).
    apply list_elem_of_filter in Hword as [_ Hword%elem_of_elements].
    rewrite decode_encode. eexists _, _. split; [done|].
    unfold chars. by rewrite string_of_list_ascii_of_string.
  - destruct (random_choice_elements entropy _ Hne) as (w & -> & Hw). by eexists _, w.
Qed.

(** X18. From the third attempt on, when the word length is at least 1 (so
    that the constraint model has a variable), candidates remain and the
    solver only reports allowed tuples, [get_next_guess] does not raise and
    returns one of the candidates, whichever path it takes (single
    candidate, solver solution, or random choice after a solver failure). *)
Theorem proposal_is_candidate (entropy : nat) (self : TermoSolverCSP) (k : Z) :
  honours_allowed OPTIMAL FEASIBLE cp_solve →
  0 < word_length self →
  (2 ≤ k)%Z → possible_words self ≠ ∅ →
  ∃ w, (get_next_guess OPTIMAL FEASIBLE cp_solve entropy self k).2 = Returned w ∧
       w ∈ possible_words self.
Proof.
  intros Hsolver _ Hk Hne.
  destruct (next_guess_candidate entropy self k Hsolver) as (printed & w & -> & Hw);
    [lia|lia|done|].
  by exists w.
Qed.
End Proposals.

Lemma proposal_is_candidate_witness :
  honours_allowed 4 2 first_tuple ∧ 0 < word_length after_sassy ∧ (2 ≤ 2)%Z ∧
  possible_words after_sassy ≠ ∅ ∧
  ∃ w, (get_next_guess 4 2 first_tuple 0 after_sassy 2).2 = Returned w ∧
       w ∈ possible_words after_sassy.
Proof.
  assert (0 < word_length after_sassy) as HL by (vm_compute; lia).
  assert (2 ≤ 2)%Z as Hk by lia.
  assert (possible_words after_sassy ≠ ∅) as Hne by by_evaluation.
  split; [exact first_tuple_honours|]. do 3 (split; [assumption|]).
  exact (proposal_is_candidate 4 2 first_tuple 0 after_sassy 2 first_tuple_honours
           HL Hk Hne).
Defined.

(** ** [choose_secret_word] *)

Lemma choose_secret_word_member (entropy : nat) (valid_words : gset string) :
  valid_words ≠ ∅ →
  ∃ w, choose_secret_word entropy valid_words = Returned (Some w) ∧ w ∈ valid_words.
Proof.
  intros Hne. unfold choose_secret_word. rewrite decide_False by done.
  destruct (random_choice_elements entropy _ Hne) as (w & -> & Hw). by exists w.
Qed.

(** X19. [choose_secret_word] never raises: it returns [None] exactly when
    the corpus is empty, and otherwise a word of the corpus. *)
Theorem secret_from_corpus (entropy : nat) (valid_words : gset string) :
  ∃ r, choose_secret_word entropy valid_words = Returned r ∧
       (r = None ↔ valid_words = ∅) ∧
       (∀ w, r = Some w → w ∈ valid_words).
Proof.
  destruct (decide (valid_words = ∅)) as [->|Hne].
  - exists None. by split_and!.
  - destruct (choose_secret_word_member entropy valid_words Hne) as (w & -> & Hw).
    exists (Some w). split_and!; [done|by split|by intros ? [= <-]].
Qed.

(** ** [play_game]: a whole game *)

Definition first_char (s : string) : option ascii :=
  match s with
  | String c _ => Some c
  | EmptyString => None
  end.

(** A line that is neither of the two anomaly reports. *)
Definition calm (line : string) : Prop :=
  line ≠ no_candidates_message ∧ line ≠ no_recovery_message.

Lemma calm_first_char (line : string) :
  first_char line ≠ Some "E"%char → first_char line ≠ Some "C"%char → calm line.
Proof. intros HE HC. split; intros ->; [by apply HE|by apply HC]. Qed.

(** A decimal numeral does not start with a letter: the digits have the
    codes 48 to 57. *)
Lemma pretty_N_go_head (c : ascii) (x : N) :
  57 < nat_of_ascii c →
  ∀ s t, first_char (s +:+ t) ≠ Some c → first_char (pretty_N_go x s +:+ t) ≠ Some c.
Proof.
  intros Hc. induction x as [x IH] using (well_founded_induction N.lt_wf_0).
  intros s t Hs. destruct (decide (x = 0%N)) as [->|Hx].
  { by rewrite pretty_N_go_0. }
  rewrite pretty_N_go_step by lia. apply IH.
  - apply N.div_lt; lia.
  - cbn. intros [= <-]. unfold pretty_N_char in Hc.
    repeat case_match; vm_compute in Hc; lia.
Qed.

Lemma pretty_nat_head (c : ascii) (n : nat) (t : string) :
  57 < nat_of_ascii c →
  first_char t ≠ Some c → first_char (pretty n +:+ t) ≠ Some c.
Proof.
  intros Hc Ht. unfold pretty, pretty_nat, pretty, pretty_N.
  case_decide; [|by apply pretty_N_go_head].
  cbn. intros [= <-]. vm_compute in Hc. lia.
Qed.

Ltac calm_line :=
  apply calm_first_char;
  cbv [first_char String.append NL COLOR_GREEN COLOR_GRAY COLOR_YELLOW];
  vm_compute; discriminate.

Lemma calm_visual (guess secret visual : string) (ok : bool) (fb : feedback) :
  len guess = WORD_LENGTH → len secret = WORD_LENGTH → length fb = WORD_LENGTH →
  check_guess guess secret = Returned (visual, ok, Some <$> fb) → calm visual.
Proof.
  intros Hg Hs Hlen Hcg. rewrite (check_guess_slots _ _ _ _ _ Hg Hs Hcg).
  destruct fb as [|[[c st] j] [|e fb]]; [done|done|].
  rewrite !fmap_cons. cbn [String.concat slot_visual]. unfold visual_of. cbn [e_status].
  destruct st; unfold LETTER_CORRECT_POS_FORMAT, LETTER_WRONG_POS_FORMAT,
    LETTER_ABSENT_FORMAT; calm_line.
Qed.

Lemma add_feedback_guesses (self : TermoSolverCSP) (guess : string) (fb : feedback) :
  guesses_history (add_feedback self guess fb).1 = guesses_history self ++ [guess].
Proof. unfold add_feedback. by destruct (set_comprehension _ _). Qed.

Lemma check_guess_true (guess secret visual : string) (sf : list (option entry)) :
  check_guess guess secret = Returned (visual, true, sf) → guess = secret.
Proof.
  unfold check_guess. destruct (_ || _); [discriminate|].
  cbv zeta. case_bool_decide as Heq; [done|].
  intros Hcg. destruct (for_each _ (pass1_body _ _) _) as [s1|]; [|done].
  cbv [mbind outcome_bind] in Hcg.
  destruct (for_each _ (pass2_body _) _) as [[[vf sf'] cnt]|]; [|done].
  discriminate Hcg.
Qed.

Lemma next_guess_calm (OPTIMAL FEASIBLE : Z) (cp_solve : nat → list (list Z) → Z * list Z)
    (entropy : nat) (self : TermoSolverCSP) (k : Z) :
  possible_words self ≠ ∅ →
  Forall calm (get_next_guess OPTIMAL FEASIBLE cp_solve entropy self k).1.
Proof.
  intros Hne. unfold get_next_guess.
  destruct (decide (k = 0%Z)); [done|].
  destruct (decide (k = 1%Z)); [done|].
  rewrite decide_False by done.
  destruct (decide (size (possible_words self) = 1)); [done|].
  cbv zeta. destruct (decide (_ = [])).
  { apply Forall_singleton. split; discriminate. }
  destruct (cp_solve _ _) as [st sol]. destruct (decide (st = OPTIMAL ∨ st = FEASIBLE)).
  - destruct (for_list _ sol); [|done]. apply Forall_singleton. calm_line.
  - apply Forall_singleton. calm_line.
Qed.

Lemma next_guess_returns (OPTIMAL FEASIBLE : Z)
    (cp_solve : nat → list (list Z) → Z * list Z) (entropy : nat)
    (self : TermoSolverCSP) (k : Z) :
  honours_allowed OPTIMAL FEASIBLE cp_solve → possible_words self ≠ ∅ →
  ∃ printed w,
    get_next_guess OPTIMAL FEASIBLE cp_solve entropy self k = (printed, Returned w).
Proof.
  intros Hsolver Hne.
  destruct (decide (k = 0%Z)) as [->|Hk0]; [by eexists _, _|].
  destruct (decide (k = 1%Z)) as [->|Hk1]; [by eexists _, _|].
  destruct (next_guess_candidate OPTIMAL FEASIBLE cp_solve entropy self k
              Hsolver Hk0 Hk1 Hne) as (printed & w & Heq & _).
  by exists printed, w.
Qed.

Lemma say_eq {A} (lines out : list string) (r : printing A) (x : outcome A) :
  r = (out, x) → say lines r = (lines ++ out, x).
Proof. by intros ->. Qed.

Section SafeGame.
Variables (OPTIMAL FEASIBLE : Z) (cp_solve : nat → list (list Z) → Z * list Z).
Variables (repr_sorted : gset string → string) (rnd : nat → nat).
Variables (valid_words : gset string) (secret : string).
Hypothesis Hsolver : honours_allowed OPTIMAL FEASIBLE cp_solve.
Hypothesis Hcorpus : ∀ w, w ∈ valid_words → len w = WORD_LENGTH.
Hypothesis Hsecret : secret ∈ valid_words.

(** What holds of the solver object when a turn begins. *)
Definition game_inv (k : nat) (solver : TermoSolverCSP) (display : list string) : Prop :=
  session_inv WORD_LENGTH solver ∧
  _is_consistent solver secret = Returned true ∧
  secret ∈ possible_words solver ∧
  possible_words solver ⊆ valid_words ∧
  length (guesses_history solver) = k ∧
  (secret ∉ guesses_history solver) ∧
  Forall (λ g, g ∈ valid_words) (guesses_history solver) ∧
  Forall calm display.

(** What holds of it when the game is over. *)
Definition game_over (solver : TermoSolverCSP) : Prop :=
  secret ∈ possible_words solver ∧
  Forall (λ g, g ∈ valid_words) (guesses_history solver).

Definition round_ok (k : nat) (e : round_end) : Prop :=
  match e with
  | next_round solver display => game_inv k solver display
  | game_won solver =>
      game_over solver ∧ last (guesses_history solver) = Some secret ∧
      length (guesses_history solver) = k
  | loop_broken _ => False
  end.

Definition exit_ok (e : game_exit) : Prop :=
  match e with
  | no_secret => False
  | won solver =>
      game_over solver ∧ last (guesses_history solver) = Some secret ∧
      length (guesses_history solver) ≤ MAX_ATTEMPTS
  | lost solver =>
      game_over solver ∧ (secret ∉ guesses_history solver) ∧
      length (guesses_history solver) = MAX_ATTEMPTS
  end.

Lemma check_and_record_safe (k : nat) (solver : TermoSolverCSP) (display : list string)
    (guess : string) :
  game_inv k solver display → guess ∈ valid_words →
  ∃ out e, check_and_record secret solver display guess = (out, Returned e) ∧
           Forall calm out ∧ round_ok (S k) e.
Proof.
  intros (Hinv & Hcons & Hin & Hsub & Hk & Hnot & Hall & Hcalm) Hguess.
  pose proof (Hcorpus guess Hguess) as Hg. pose proof (Hcorpus secret Hsecret) as Hs.
  destruct (check_guess_returns guess secret Hg Hs) as (vis & fb & Hcg & Hfb).
  assert (length fb = WORD_LENGTH) as Hlen.
  { rewrite (ff_length _ _ _ Hfb), <- len_chars. done. }
  assert (shaped WORD_LENGTH guess fb) as Hsh.
  { rewrite <- Hg, len_chars. by eapply feedback_for_shaped. }
  destruct (add_feedback_returns WORD_LENGTH solver guess fb Hinv Hsh) as [Hnone Hinv'].
  assert (_is_consistent (updated solver guess fb) secret = Returned true) as Hup.
  { apply consistent_updated; [|done|done]. by rewrite <- len_chars, Hg. }
  pose proof (add_feedback_keeps solver guess fb secret Hin Hup) as Hin'.
  pose proof (add_feedback_guesses solver guess fb) as Hhist.
  pose proof (add_feedback_is_consistent solver guess fb secret) as Hcons'.
  rewrite Hup in Hcons'.
  pose proof (add_feedback_possible_words solver guess fb) as Hsub'.
  pose proof (calm_visual guess secret vis _ fb Hg Hs Hlen Hcg) as Hvis.
  unfold check_and_record. rewrite Hcg, tuples_filled.
  destruct (add_feedback solver guess fb) as [solver' [e|]]; [done|].
  cbn [fst snd] in *.
  assert (Forall (λ g, g ∈ valid_words) (guesses_history solver')) as Hall'.
  { rewrite Hhist. apply Forall_app. split; [done|]. by apply Forall_singleton. }
  assert (Forall calm (display ++ [vis])) as Hcalm'.
  { apply Forall_app. split; [done|]. by apply Forall_singleton. }
  assert (Forall calm ([NL +:+ "History:"] ++ (display ++ [vis]) ++
                       ["Possible words remaining: " +:+ pretty (size (possible_words solver'));
                        str_times "-" 20])) as Hreport.
  { apply Forall_app. split; [apply Forall_singleton; calm_line|].
    apply Forall_app. split; [done|].
    apply Forall_cons. split; [calm_line|]. apply Forall_singleton. calm_line. }
  case_bool_decide as Heq.
  - eexists _, _. split; [reflexivity|]. split.
    + cbn [fst]. apply Forall_app. split; [done|].
      repeat (apply Forall_cons; split; [calm_line|]). done.
    + cbn. split_and!; [by split| |].
      * rewrite Hhist, last_snoc. by rewrite Heq.
      * rewrite Hhist, length_app. cbn. lia.
  - eexists _, _. split; [reflexivity|]. split.
    + cbn [fst]. by rewrite app_nil_r.
    + cbn. split_and!; try done.
      * intros w Hw. apply Hsub. by apply Hsub'.
      * rewrite Hhist, length_app. cbn. lia.
      * rewrite Hhist. intros [?|?%list_elem_of_singleton]%elem_of_app; [done|].
        by apply Heq.
Qed.
Lemma play_round_safe (k : nat) (solver : TermoSolverCSP) (display : list string) :
  game_inv k solver display →
  ∃ out e,
    play_round OPTIMAL FEASIBLE cp_solve rnd valid_words secret k solver display
    = (out, Returned e) ∧
    Forall calm out ∧ round_ok (S k) e.
Proof.
  intros Hinv. pose proof Hinv as (_ & _ & Hin & Hsub & _).
  assert (possible_words solver ≠ ∅) as Hne.
  { intros Hempty. rewrite Hempty in Hin. by apply not_elem_of_empty in Hin. }
  destruct (next_guess_returns OPTIMAL FEASIBLE cp_solve (rnd (2 * k + 1)) solver
              (Z.of_nat k) Hsolver Hne) as (printed & guess & Hnext).
  pose proof (next_guess_calm OPTIMAL FEASIBLE cp_solve (rnd (2 * k + 1)) solver
                (Z.of_nat k) Hne) as Hprinted.
  rewrite Hnext in Hprinted. cbn [fst] in Hprinted.
  unfold play_round. rewrite Hnext.
  destruct (decide (guess ∈ valid_words)) as [Hguess|Hguess].
  - destruct (check_and_record_safe k solver display guess Hinv Hguess)
      as (out & e & -> & Hout & He).
    eexists _, e. split; [reflexivity|]. split; [|done]. cbn [say fst snd].
    repeat (apply Forall_cons; split; [calm_line|]).
    apply Forall_app. split; [done|]. apply Forall_cons. split; [calm_line|]. done.
  - rewrite decide_False by done.
    destruct (random_choice_elements (rnd (2 * k + 2)) _ Hne) as (guess' & -> & Hguess').
    destruct (check_and_record_safe k solver display guess' Hinv (Hsub _ Hguess'))
      as (out & e & -> & Hout & He).
    eexists _, e. split; [reflexivity|]. split; [|done]. cbn [say fst snd].
    repeat (apply Forall_cons; split; [calm_line|]).
    apply Forall_app. split; [done|].
    repeat (apply Forall_cons; split; [calm_line|]). done.
Qed.

Lemma after_loop_calm (solver : TermoSolverCSP) :
  Forall calm (after_loop repr_sorted secret solver).1.
Proof.
  unfold after_loop. cbn [fst].
  repeat (apply Forall_cons; split; [calm_line|]).
  destruct (decide _); repeat (apply Forall_cons; split; [calm_line|]); done.
Qed.

Lemma game_loop_safe (remaining : nat) :
  ∀ k solver display,
    game_inv k solver display → k + remaining = MAX_ATTEMPTS →
    ∃ out e,
      game_loop OPTIMAL FEASIBLE cp_solve repr_sorted rnd valid_words secret
                remaining k solver display = (out, Returned e) ∧
      Forall calm out ∧ exit_ok e.
Proof.
  induction remaining as [|remaining IH]; intros k solver display Hinv Hk.
  - cbn [game_loop]. eexists _, _. split; [reflexivity|].
    split; [apply after_loop_calm|].
    destruct Hinv as (_ & _ & Hin & _ & Hlen & Hnot & Hall & _).
    cbn. split_and!; [by split|done|lia].
  - cbn [game_loop].
    destruct (play_round_safe k solver display Hinv) as (out & e & -> & Hout & He).
    destruct e as [solver' display'|solver'|solver']; cbn in He; [| |done].
    + destruct (IH (k + 1) solver' display') as (out' & e' & -> & Hout' & He').
      { by replace (k + 1) with (S k) by lia. }
      { lia. }
      eexists _, e'. split; [reflexivity|]. split; [|done].
      cbn [say fst]. by apply Forall_app.
    + eexists _, _. split; [reflexivity|]. split.
      * cbn [say fst]. by rewrite app_nil_r.
      * destruct He as (Hover & Hlast & Hlen). cbn. split_and!; [done|done|lia].
Qed.
End SafeGame.

(** X20. A game on a well-formed corpus runs to its end: when every word of
    the (non-empty) corpus has length 5 and the solver only reports allowed
    tuples, [play_game] raises nothing and picks a secret from the corpus;
    it either leaves through the winning branch, the last of at most six
    guesses being the secret, or falls out of the loop after exactly six
    guesses, none of them the secret.  Either way the secret is still a
    candidate, every guess played is a word of the corpus, and neither
    anomaly report (no possible words remaining, no words for recovery) is
    printed. *)
Theorem game_runs_clean (OPTIMAL FEASIBLE : Z)
    (cp_solve : nat → list (list Z) → Z * list Z)
    (repr_sorted : gset string → string) (rnd : nat → nat)
    (valid_words : gset string) :
  honours_allowed OPTIMAL FEASIBLE cp_solve →
  valid_words ≠ ∅ →
  (∀ w, w ∈ valid_words → len w = WORD_LENGTH) →
  ∃ out secret solver,
    choose_secret_word (rnd 0) valid_words = Returned (Some secret) ∧
    secret ∈ valid_words ∧
    (play_game OPTIMAL FEASIBLE cp_solve repr_sorted rnd valid_words
       = (out, Returned (won solver)) ∧
     last (guesses_history solver) = Some secret ∧
     length (guesses_history solver) ≤ MAX_ATTEMPTS
     ∨
     play_game OPTIMAL FEASIBLE cp_solve repr_sorted rnd valid_words
       = (out, Returned (lost solver)) ∧
     (secret ∉ guesses_history solver) ∧
     length (guesses_history solver) = MAX_ATTEMPTS) ∧
    secret ∈ possible_words solver ∧
    Forall (λ g, g ∈ valid_words) (guesses_history solver) ∧
    (no_candidates_message ∉ out) ∧ (no_recovery_message ∉ out).
Proof.
  intros Hsolver Hne Hcorpus.
  destruct (choose_secret_word_member (rnd 0) valid_words Hne) as (secret & Hchoice & Hsecret).
  assert (secret ≠ "") as Hnonempty.
  { intros ->. by specialize (Hcorpus _ Hsecret). }
  destruct (game_loop_safe OPTIMAL FEASIBLE cp_solve repr_sorted rnd valid_words secret
              Hsolver Hcorpus Hsecret MAX_ATTEMPTS 0 (init valid_words WORD_LENGTH) [])
    as (out & e & Hloop & Hout & He).
  { split_and!; [apply session_inv_init|apply init_consistent|done|done|done| |done|done].
    by intros ?%elem_of_nil. }
  { done. }
  assert (play_game OPTIMAL FEASIBLE cp_solve repr_sorted rnd valid_words
          = ([NL +:+ "Welcome to Termo in Python with CSP Solver!";
              load_words_report valid_words;
              "(Debug: The secret word is '" +:+ str_upper secret +:+ "')";
              "The solver has " +:+ pretty MAX_ATTEMPTS +:+ " attempts."] ++ out,
             Returned e)) as Hgame.
  { unfold play_game. rewrite Hchoice, decide_False by done. by rewrite Hloop. }
  assert (∀ line, line ∈ [NL +:+ "Welcome to Termo in Python with CSP Solver!";
              load_words_report valid_words;
              "(Debug: The secret word is '" +:+ str_upper secret +:+ "')";
              "The solver has " +:+ pretty MAX_ATTEMPTS +:+ " attempts."] ++ out →
            calm line) as Hcalm.
  { apply Forall_forall, Forall_app. split; [|done].
    unfold load_words_report.
    apply Forall_cons. split; [calm_line|].
    apply Forall_cons. split; [apply calm_first_char; (apply pretty_nat_head; [vm_compute; lia|by vm_compute])|].
    repeat (apply Forall_cons; split; [calm_line|]). done. }
  eexists _, secret.
  destruct e as [|solver|solver]; cbn in He; [done| |].
  - destruct He as ([Hin Hall] & Hlast & Hlen).
    exists solver. split_and!; [done|done|by left|done|done|..].
    + intros Hbad. by apply Hcalm in Hbad as [? _].
    + intros Hbad. by apply Hcalm in Hbad as [_ ?].
  - destruct He as ([Hin Hall] & Hnot & Hlen).
    exists solver. split_and!; [done|done|by right|done|done|..].
    + intros Hbad. by apply Hcalm in Hbad as [? _].
    + intros Hbad. by apply Hcalm in Hbad as [_ ?].
Qed.

Lemma game_runs_clean_witness :
  honours_allowed 4 2 first_tuple ∧ small_corpus ≠ ∅ ∧
  (∀ w, w ∈ small_corpus → len w = WORD_LENGTH) ∧
  ∃ out secret solver,
    choose_secret_word 0 small_corpus = Returned (Some secret) ∧
    secret ∈ small_corpus ∧
    (play_game 4 2 first_tuple (λ _, "") (λ _, 0) small_corpus
       = (out, Returned (won solver)) ∧
     last (guesses_history solver) = Some secret ∧
     length (guesses_history solver) ≤ MAX_ATTEMPTS
     ∨
     play_game 4 2 first_tuple (λ _, "") (λ _, 0) small_corpus
       = (out, Returned (lost solver)) ∧
     (secret ∉ guesses_history solver) ∧
     length (guesses_history solver) = MAX_ATTEMPTS) ∧
    secret ∈ possible_words solver ∧
    Forall (λ g, g ∈ small_corpus) (guesses_history solver) ∧
    (no_candidates_message ∉ out) ∧ (no_recovery_message ∉ out).
Proof.
  assert (small_corpus ≠ ∅) as Hne by by_evaluation.
  assert (set_Forall (λ w, len w = WORD_LENGTH) small_corpus) as Hcorpus by by_evaluation.
  split; [exact first_tuple_honours|]. split; [exact Hne|]. split; [exact Hcorpus|].
  exact (game_runs_clean 4 2 first_tuple (λ _, "") (λ _, 0) small_corpus
           first_tuple_honours Hne Hcorpus).
Defined.

(** ** [play_game]: the winning exit *)

Section Exits.
Variables (OPTIMAL FEASIBLE : Z) (cp_solve : nat → list (list Z) → Z * list Z).
Variables (repr_sorted : gset string → string) (rnd : nat → nat).
Variables (valid_words : gset string) (secret : string).

Lemma check_and_record_won (solver : TermoSolverCSP) (display : list string)
    (guess : string) (solver' : TermoSolverCSP) :
  (check_and_record secret solver display guess).2 = Returned (game_won solver') →
  last (guesses_history solver') = Some secret.
Proof.
  unfold check_and_record.
  destruct (check_guess guess secret) as [[[vis ok] sf]|] eqn:Hcg; [|done].
  destruct (tuples sf) as [fb|]; [|done].
  pose proof (add_feedback_guesses solver guess fb) as Hhist.
  destruct (add_feedback solver guess fb) as [solver1 [e|]]; [done|].
  destruct ok; cbn; [|done]. intros [= <-].
  apply check_guess_true in Hcg as ->.
  cbn in Hhist. by rewrite Hhist, last_snoc.
Qed.

Lemma play_round_won (k : nat) (solver : TermoSolverCSP) (display : list string)
    (solver' : TermoSolverCSP) :
  (play_round OPTIMAL FEASIBLE cp_solve rnd valid_words secret k solver display).2
  = Returned (game_won solver') →
  last (guesses_history solver') = Some secret.
Proof.
  unfold play_round. destruct (get_next_guess _ _ _ _ _ _) as [printed [guess|e]]; [|done].
  cbn [say snd]. destruct (decide (guess ∈ valid_words)).
  { apply check_and_record_won. }
  cbn [say snd]. destruct (decide (possible_words solver = ∅)); [done|].
  destruct (random_choice _ _) as [guess'|e]; [|done].
  apply check_and_record_won.
Qed.

Lemma game_loop_won (remaining : nat) :
  ∀ k solver display solver',
    (game_loop OPTIMAL FEASIBLE cp_solve repr_sorted rnd valid_words secret
               remaining k solver display).2 = Returned (won solver') →
    last (guesses_history solver') = Some secret.
Proof.
  induction remaining as [|remaining IH]; intros k solver display solver'; [done|].
  cbn [game_loop].
  pose proof (play_round_won k solver display) as Hround.
  destruct (play_round _ _ _ _ _ _ _ _ _) as [printed [[s d|s|s]|e]]; cbn [say snd]; [| |done..].
  - apply IH.
  - intros [= <-]. by apply Hround.
Qed.
End Exits.

(** X21. The winning exit is sound on any corpus and with any solver: if
    [play_game] leaves through the [return] of the winning branch, a secret
    had been chosen and the last guess recorded in the solver object is that
    secret. *)
Theorem win_is_real (OPTIMAL FEASIBLE : Z) (cp_solve : nat → list (list Z) → Z * list Z)
    (repr_sorted : gset string → string) (rnd : nat → nat)
    (valid_words : gset string) (solver : TermoSolverCSP) :
  (play_game OPTIMAL FEASIBLE cp_solve repr_sorted rnd valid_words).2
  = Returned (won solver) →
  ∃ secret, choose_secret_word (rnd 0) valid_words = Returned (Some secret) ∧
            last (guesses_history solver) = Some secret.
Proof.
  unfold play_game. cbn [say snd].
  destruct (choose_secret_word (rnd 0) valid_words) as [[secret|]|e]; [|done..].
  destruct (decide (secret = "")); [done|]. cbn [say snd].
  intros Hwon. exists secret. split; [done|]. by eapply game_loop_won.
Qed.

(** A one-word corpus: the opening guess is the secret. *)
Definition acelo_acelo : feedback :=
  [("a"%char, correct, 0); ("c"%char, correct, 1); ("e"%char, correct, 2);
   ("l"%char, correct, 3); ("o"%char, correct, 4)].

Lemma acelo_game_won :
  (play_game 4 2 first_tuple (λ _, "") (λ _, 0) {[ "acelo" ]}).2
  = Returned (won (add_feedback (init {[ "acelo" ]} WORD_LENGTH) "acelo" acelo_acelo).1).
Proof. vm_compute. reflexivity. Qed.

Lemma win_is_real_witness :
  (play_game 4 2 first_tuple (λ _, "") (λ _, 0) {[ "acelo" ]}).2
  = Returned (won (add_feedback (init {[ "acelo" ]} WORD_LENGTH) "acelo" acelo_acelo).1) ∧
  ∃ secret, choose_secret_word 0 {[ "acelo" ]} = Returned (Some secret) ∧
            last (guesses_history
                    (add_feedback (init {[ "acelo" ]} WORD_LENGTH) "acelo" acelo_acelo).1)
            = Some secret.
Proof.
  split; [exact acelo_game_won|].
  exact (win_is_real 4 2 first_tuple (λ _, "") (λ _, 0) {[ "acelo" ]} _ acelo_game_won).
Defined.

(** ** [play_game]: a secret of the wrong length *)

(** X22. A corpus word whose length is not 5 (and not 0) ends the game with
    an exception when it is drawn as the secret: the first turn's
    [check_guess] returns its error result, and [add_feedback] raises
    [IndexError] on the empty feedback, which [play_game] does not catch. *)
Theorem wrong_length_secret_crashes (OPTIMAL FEASIBLE : Z)
    (cp_solve : nat → list (list Z) → Z * list Z)
    (repr_sorted : gset string → string) (rnd : nat → nat)
    (valid_words : gset string) (secret : string) :
  choose_secret_word (rnd 0) valid_words = Returned (Some secret) →
  secret ≠ "" → len secret ≠ WORD_LENGTH →
  (play_game OPTIMAL FEASIBLE cp_solve repr_sorted rnd valid_words).2
  = Raised IndexError.
Proof.
  intros Hchoice Hnonempty Hlen.
  assert (valid_words ≠ ∅) as Hne.
  { intros ->. discriminate Hchoice. }
  assert (secret ∈ valid_words) as Hsecret.
  { destruct (choose_secret_word_member (rnd 0) valid_words Hne) as (w & Hw & Hin).
    rewrite Hchoice in Hw. by injection Hw as ->. }
  assert (∀ guess display,
            (check_and_record secret (init valid_words WORD_LENGTH) display guess).2
            = Raised IndexError) as Hcrash.
  { intros guess display. unfold check_and_record.
    rewrite (check_guess_mismatch guess secret) by by right.
    cbv [tuples for_list mret outcome_ret].
    rewrite (empty_feedback_raises (init valid_words WORD_LENGTH) guess secret);
      [done|cbn; unfold WORD_LENGTH; lia|done|done|apply init_consistent]. }
  unfold play_game. rewrite Hchoice, decide_False by done.
  cbn [say snd game_loop MAX_ATTEMPTS]. unfold play_round.
  change (get_next_guess _ _ _ _ _ (Z.of_nat 0)) with (([] : list string), Returned "acelo").
  cbn [say snd].
  destruct (decide ("acelo" ∈ valid_words)).
  { cbn [say snd]. destruct (check_and_record _ _ _ _) as [out r] eqn:E.
    pose proof (Hcrash "acelo" []) as H. rewrite E in H. cbn in H. by rewrite H. }
  cbn [say snd]. rewrite decide_False by done.
  destruct (random_choice _ _) as [guess|e] eqn:Hrnd.
  - cbn [say snd]. destruct (check_and_record _ _ _ _) as [out r] eqn:E.
    pose proof (Hcrash guess []) as H. rewrite E in H. cbn in H. by rewrite H.
  - destruct (random_choice_elements (rnd (2 * 0 + 2)) valid_words Hne) as (w & Hw & _).
    cbn [init possible_words] in Hrnd. rewrite Hw in Hrnd. discriminate Hrnd.
Qed.

Lemma wrong_length_secret_crashes_witness :
  choose_secret_word 0 {[ "abc" ]} = Returned (Some "abc") ∧
  "abc" ≠ "" ∧ len "abc" ≠ WORD_LENGTH ∧
  (play_game 4 2 first_tuple (λ _, "") (λ _, 0) {[ "abc" ]}).2 = Raised IndexError.
Proof.
  assert (choose_secret_word 0 {[ "abc" ]} = Returned (Some "abc")) as Hc
    by (vm_compute; reflexivity).
  assert ("abc" ≠ "") as Hn by discriminate.
  assert (len "abc" ≠ WORD_LENGTH) as Hl by (vm_compute; lia).
  do 3 (split; [assumption|]).
  exact (wrong_length_secret_crashes 4 2 first_tuple (λ _, "") (λ _, 0) {[ "abc" ]} "abc"
           Hc Hn Hl).
Defined.

(** * The constraint state over a session *)

(** The constraint state of [self'] holds everything that of [self] holds:
    each green position with its letter, each yellow position with at least
    the letters barred before, each gray letter, both histories as a prefix,
    and each recorded minimum count with a value at least as large. *)
Definition only_grows (self self' : TermoSolverCSP) : Prop :=
  (∀ i c, green_letters self !! i = Some c → green_letters self' !! i = Some c) ∧
  (∀ i letters, yellow_letters self !! i = Some letters →
                ∃ letters', yellow_letters self' !! i = Some letters' ∧
                            letters ⊆ letters') ∧
  gray_letters self ⊆ gray_letters self' ∧
  guesses_history self `prefix_of` guesses_history self' ∧
  feedback_history self `prefix_of` feedback_history self' ∧
  (∀ c m, min_letter_counts self !! c = Some m →
          ∃ m', min_letter_counts self' !! c = Some m' ∧ (m ≤ m')%Z).

(** An update with the feedback of a secret that the tables accept: no
    ['correct'] tuple overwrites a different green letter or meets a letter
    barred from its position. *)
Lemma truthful_update_grows (self : TermoSolverCSP) (guess secret : string)
    (fb : feedback) :
  feedback_for guess secret fb → tables_accept self secret →
  only_grows self (_update_constraints self guess fb).
Proof.
  intros Hfb Htab. pose proof (feedback_for_positional _ _ _ Hfb) as Hpos.
  assert (∀ i c j, fb !! i = Some (c, correct, j) → chars secret !! i = Some c) as Hcorrect.
  { intros i c j Hi. by apply (ff_correct _ _ _ Hfb i c correct j Hi). }
  split_and!.
  - intros i c Hi. destruct (update_tables_at self guess fb i Hpos) as [-> _].
    destruct (fb !! i) as [[[c' st] j]|] eqn:E; [|done]. destruct st; [|done..].
    pose proof (Hcorrect i c' j E) as Hs.
    pose proof (ta_green _ _ Htab i c Hi) as Hg. rewrite green_violation_false in Hg.
    congruence.
  - intros i letters Hi. destruct (update_tables_at self guess fb i Hpos) as [_ ->].
    rewrite Hi. destruct (fb !! i) as [[[c' st] j]|] eqn:E; [|by exists letters].
    destruct st; cbn.
    + eexists. split; [done|]. intros x Hx. apply elem_of_difference. split; [done|].
      intros ->%elem_of_singleton.
      pose proof (ta_yellow _ _ Htab i letters Hi) as Hy.
      rewrite yellow_violation_false in Hy. by apply (Hy c' (Hcorrect i c' j E)).
    + eexists. split; [done|]. apply union_subseteq_r.
    + by exists letters.
  - intros c Hc. apply update_gray. by left.
  - done.
  - done.
  - intros c m Hc. rewrite update_min. case_decide; [exists m; split; [done|lia]|].
    eexists. split; [done|]. unfold dict_get. rewrite Hc. cbn. lia.
Qed.

(** C4. Across every call of a session, the constraint state only grows: from
    a fresh solver, after any attempts with guesses of length 5 against one
    secret, the next update with the feedback [check_guess] computes against
    that secret, through [_update_constraints] alone or through
    [add_feedback], loses no entry of [green_letters], [yellow_letters],
    [gray_letters] or the histories, and lowers no recorded minimum count.
    In particular a letter in [yellow_letters[i]] before the update is still
    there after it. *)
Theorem constraints_only_grow (valid_words : gset string) (secret : string)
    (guesses : list string) (guess : string) :
  len secret = WORD_LENGTH → Forall (λ g, len g = WORD_LENGTH) guesses →
  len guess = WORD_LENGTH →
  ∃ self visual is_correct fb,
    attempts (init valid_words WORD_LENGTH) secret guesses = Returned self ∧
    check_guess guess secret = Returned (visual, is_correct, Some <$> fb) ∧
    only_grows self (_update_constraints self guess fb) ∧
    only_grows self (add_feedback self guess fb).1 ∧
    (∀ i c, yellow_at (yellow_letters self) i c →
            yellow_at (yellow_letters (add_feedback self guess fb).1) i c).
Proof.
  intros Hs Hgs Hg.
  destruct (attempts_keep_secret secret guesses Hs Hgs (init valid_words WORD_LENGTH)
              (session_inv_init _ _) (init_consistent _ _ _))
    as (self & Hrun & Hinv & Hcons & _).
  destruct (check_guess_returns guess secret Hg Hs) as (vis & fb & Hcg & Hfb).
  apply is_consistent_true in Hcons as [Htab _].
  exists self, vis, (bool_decide (guess = secret)), fb.
  assert (only_grows self (add_feedback self guess fb).1) as Hgrow.
  { assert (tables_accept (record_history self guess fb) secret) as Htab'.
    { destruct Htab as [Hgr Hy Hr Hm]. by split. }
    destruct (truthful_update_grows (record_history self guess fb) guess secret fb
                Hfb Htab') as (Hgreen & Hyellow & Hgray & _ & _ & Hmin).
    assert (green_letters (add_feedback self guess fb).1
            = green_letters (updated self guess fb) ∧
            yellow_letters (add_feedback self guess fb).1
            = yellow_letters (updated self guess fb) ∧
            gray_letters (add_feedback self guess fb).1
            = gray_letters (updated self guess fb) ∧
            guesses_history (add_feedback self guess fb).1
            = guesses_history self ++ [guess] ∧
            feedback_history (add_feedback self guess fb).1
            = feedback_history self ++ [fb] ∧
            min_letter_counts (add_feedback self guess fb).1
            = min_letter_counts (updated self guess fb))
      as (Eg & Ey & Er & Egh & Efh & Em).
    { unfold add_feedback. fold (updated self guess fb).
      by destruct (set_comprehension _ _). }
    unfold only_grows. rewrite Eg, Ey, Er, Egh, Efh, Em. unfold updated.
    split_and!; [exact Hgreen|exact Hyellow|exact Hgray| | |exact Hmin];
      by apply prefix_app_r. }
  split_and!; [done|done|by eapply truthful_update_grows|done|].
  intros i c (letters & Hi & Hc).
  destruct Hgrow as (_ & Hyellow & _).
  destruct (Hyellow i letters Hi) as (letters' & Hi' & Hsub).
  exists letters'. split; [done|]. by apply Hsub.
Qed.

Lemma constraints_only_grow_witness :
  len "bravo" = WORD_LENGTH ∧ Forall (λ g, len g = WORD_LENGTH) ["acelo"; "sumir"] ∧
  len "bravo" = WORD_LENGTH ∧
  ∃ self visual is_correct fb,
    attempts (init {[ "bravo"; "amigo" ]} WORD_LENGTH) "bravo" ["acelo"; "sumir"]
      = Returned self ∧
    check_guess "bravo" "bravo" = Returned (visual, is_correct, Some <$> fb) ∧
    only_grows self (_update_constraints self "bravo" fb) ∧
    only_grows self (add_feedback self "bravo" fb).1 ∧
    (∀ i c, yellow_at (yellow_letters self) i c →
            yellow_at (yellow_letters (add_feedback self "bravo" fb).1) i c).
Proof.
  assert (Forall (λ g, len g = WORD_LENGTH) ["acelo"; "sumir"]) as Hgs.
  { constructor; [reflexivity|]. constructor; [reflexivity|constructor]. }
  split; [reflexivity|]. split; [exact Hgs|]. split; [reflexivity|].
  exact (constraints_only_grow {[ "bravo"; "amigo" ]} "bravo" ["acelo"; "sumir"] "bravo"
           eq_refl Hgs eq_refl).
Defined.
